(** * MOUSA oracle: a shallow embedding of [lib/oracle.js] and of the
    dictionary builder script, with the properties of their specification;
    then of the scripts that call the oracle ([scripts/test-oracle.mjs],
    [scripts/try-lengths.mjs]) and of the pure parts of
    [lib/translator.js], with further properties of the code.

    Text is modelled by [string] restricted to 7-bit ASCII, where the
    Unicode class [\p{L}] is [A-Za-z] and JavaScript white space is the six
    characters 9-13 and 32; Greek text is outside the model.  Where the
    order of the dictionary depends on letters beyond ASCII and on the
    collation of the locale, the builder is stated over a class of
    letters and a comparator.  The integer counts of the dictionary are
    modelled by [Z].  The sampling weights, the temperature and the
    random draws are modelled twice: by [R] (module [Oracle]: no
    rounding, no NaN, no Infinity), for the properties that hold of the
    exact numbers, and by the binary64 numbers of JavaScript (module
    [Doubles]: [float], with the rounding, the infinities and NaN of
    IEEE 754), for the properties of the sampler that depend on them. *)

From Stdlib Require Import List String Ascii Bool Arith ZArith NArith Lia.
From Stdlib Require Import Sorted Permutation.
From Stdlib Require Import Reals Lra.
From Stdlib Require Floats.
Import ListNotations.

Local Open Scope string_scope.
Local Open Scope list_scope.
Local Open Scope Z_scope.

(** String concatenation, the [+] of JavaScript on strings. *)
Local Infix "+++" := String.append (at level 60, right associativity).

(* ================================================================== *)
(** ** The JavaScript string primitives the sources rely on *)
(* ================================================================== *)

Module JS.

Definition code (c : ascii) : N := N_of_ascii c.

Definition inRange (lo hi : N) (c : ascii) : bool :=
  (N.leb lo (code c) && N.leb (code c) hi)%bool.

(** White space of [String.prototype.trim] and of the regex class [\s]. *)
Definition isWhiteSpace (c : ascii) : bool :=
  (inRange 9 13 c || N.eqb (code c) 32)%bool.

Definition isUpper (c : ascii) : bool := inRange 65 90 c.
Definition isLower (c : ascii) : bool := inRange 97 122 c.
Definition isDigit (c : ascii) : bool := inRange 48 57 c.

(** The regex class [\p{L}]. *)
Definition isLetter (c : ascii) : bool := (isUpper c || isLower c)%bool.

Definition isTab (c : ascii) : bool := N.eqb (code c) 9.
Definition isNewline (c : ascii) : bool := N.eqb (code c) 10.
Definition isReturn (c : ascii) : bool := N.eqb (code c) 13.

Definition lowerChar (c : ascii) : ascii :=
  if isUpper c then ascii_of_N (code c + 32) else c.
Definition upperChar (c : ascii) : ascii :=
  if isLower c then ascii_of_N (code c - 32) else c.

Fixpoint mapChars (f : ascii -> ascii) (s : string) : string :=
  match s with
  | EmptyString => EmptyString
  | String c r => String (f c) (mapChars f r)
  end.

Definition toLowerCase : string -> string := mapChars lowerChar.

(** Truthiness of a string: only the empty string is falsy. *)
Definition truthy (s : string) : bool :=
  match s with EmptyString => false | String _ _ => true end.

Fixpoint trimStart (s : string) : string :=
  match s with
  | EmptyString => EmptyString
  | String c r => if isWhiteSpace c then trimStart r else s
  end.

Fixpoint trimEnd (s : string) : string :=
  match s with
  | EmptyString => EmptyString
  | String c r =>
      match trimEnd r with
      | EmptyString => if isWhiteSpace c then EmptyString
                       else String c EmptyString
      | r' => String c r'
      end
  end.

Definition trim (s : string) : string := trimStart (trimEnd s).

(** [s.startsWith(p)]. *)
Definition startsWith (s p : string) : bool := String.prefix p s.

(** [s.replace(/[C]+/g, " ")]: every maximal run of characters of the
    class [cls] becomes one space. *)
Fixpoint replaceRunsFrom (cls : ascii -> bool) (inRun : bool) (s : string)
  : string :=
  match s with
  | EmptyString => EmptyString
  | String c r =>
      if cls c then
        if inRun then replaceRunsFrom cls true r
        else String " " (replaceRunsFrom cls true r)
      else String c (replaceRunsFrom cls false r)
  end.

Definition replaceRuns (cls : ascii -> bool) (s : string) : string :=
  replaceRunsFrom cls false s.

Definition consHead (c : ascii) (fields : list string) : list string :=
  match fields with
  | [] => [String c EmptyString]
  | f :: fs => String c f :: fs
  end.

(** [s.split(/[C]+/)]: the fields between maximal runs of characters of
    the class [cls]; a leading or a trailing run gives an empty first or
    last field, and the empty string gives one empty field. *)
Fixpoint splitRunsFrom (cls : ascii -> bool) (inRun : bool) (s : string)
  : list string :=
  match s with
  | EmptyString => [EmptyString]
  | String c r =>
      if cls c then
        if inRun then splitRunsFrom cls true r
        else EmptyString :: splitRunsFrom cls true r
      else consHead c (splitRunsFrom cls false r)
  end.

Definition splitRuns (cls : ascii -> bool) (s : string) : list string :=
  splitRunsFrom cls false s.

(** [s.split(/\r?\n/)]. *)
Fixpoint splitLines (s : string) : list string :=
  match s with
  | EmptyString => [EmptyString]
  | String c r =>
      if isNewline c then EmptyString :: splitLines r
      else
        match r with
        | String c' r' =>
            if (isReturn c && isNewline c')%bool
            then EmptyString :: splitLines r'
            else consHead c (splitLines r)
        | EmptyString => consHead c (splitLines r)
        end
  end.

(** [fields.join(sep)]. *)
Definition join (sep : string) (fields : list string) : string :=
  String.concat sep fields.

Definition digitValue (c : ascii) : Z := Z.of_N (code c) - 48.

(** The longest prefix of decimal digits, read as a number; [acc] is the
    value read so far ([None]: no digit yet). *)
Fixpoint readDigits (acc : option Z) (s : string) : option Z :=
  match s with
  | EmptyString => acc
  | String c r =>
      if isDigit c then
        readDigits
          (Some (10 * (match acc with Some a => a | None => 0 end)
                 + digitValue c)) r
      else acc
  end.

(** [parseInt(s, 10)]; [None] is NaN. *)
Definition parseInt (s : string) : option Z :=
  match trimStart s with
  | String c r =>
      if N.eqb (code c) 45 then option_map Z.opp (readDigits None r)
      else if N.eqb (code c) 43 then readDigits None r
      else readDigits None (String c r)
  | EmptyString => None
  end.

(** [arr.includes(x)] on an array of strings. *)
Definition includes (arr : list string) (x : string) : bool :=
  existsb (String.eqb x) arr.

(** [Array.from(new Set(arr))]: the first occurrences, in order. *)
Fixpoint uniqueFrom (seen : list string) (arr : list string) : list string :=
  match arr with
  | [] => []
  | x :: rest =>
      if includes seen x then uniqueFrom seen rest
      else x :: uniqueFrom (seen ++ [x]) rest
  end.

Definition unique (arr : list string) : list string := uniqueFrom [] arr.

(** [arr.indexOf(x)]; [None] is -1. *)
Fixpoint indexOf (arr : list string) (x : string) : option nat :=
  match arr with
  | [] => None
  | y :: rest =>
      if String.eqb y x then Some O else option_map S (indexOf rest x)
  end.

(** A stable sort under a JavaScript comparator ([cmp a b > 0]: [a] goes
    after [b]), as [Array.prototype.sort] is. *)
Section Sort.
Context {A : Type} (cmp : A -> A -> Z).

Fixpoint insertSorted (x : A) (l : list A) : list A :=
  match l with
  | [] => [x]
  | y :: rest =>
      if 0 <? cmp x y then y :: insertSorted x rest else x :: l
  end.

Definition sort (l : list A) : list A := fold_right insertSorted [] l.
End Sort.

End JS.

(* ================================================================== *)
(** ** The dictionary builder script (passages directory) *)
(* ================================================================== *)

Module Builder.
Import JS.

(** The object [counts]: its keys in insertion order, with their values. *)
Definition table := list (string * Z).

Fixpoint lookup (t : table) (w : string) : option Z :=
  match t with
  | [] => None
  | (k, v) :: rest => if String.eqb k w then Some v else lookup rest w
  end.

(** [counts[w]] as a number: a missing key reads as undefined. *)
Definition countOf (t : table) (w : string) : Z :=
  match lookup t w with Some v => v | None => 0 end.

(** [counts[w] = v]: an existing key keeps its place, a new one goes last. *)
Fixpoint assign (t : table) (w : string) (v : Z) : table :=
  match t with
  | [] => [(w, v)]
  | (k, old) :: rest =>
      if String.eqb k w then (k, v) :: rest else (k, old) :: assign rest w v
  end.

(** [counts[w] || 0]. *)
Definition orZero (t : table) (w : string) : Z :=
  match lookup t w with
  | Some v => if v =? 0 then 0 else v
  | None => 0
  end.

Definition normalized (text : string) : string :=
  replaceRuns (fun c => negb (isLetter c)) (toLowerCase text).

(** The tally loop over [normalized.split(/\s+/)]. *)
Definition tallyStep (t : table) (w : string) : table :=
  if negb (truthy w) then t else assign t w (orZero t w + 1).

Definition tally (text : string) : table :=
  fold_left tallyStep (splitRuns isWhiteSpace (normalized text)) [].

Definition keysOf (t : table) : list string := map fst t.

(** [a.localeCompare(b)] where the collation of the locale, on words of
    lower-case ASCII letters, is the lexicographic order, as the root
    collation is.  The collation the script runs with is that of the
    locale of its process: it is the parameter [collate] below. *)
Definition localeCompare (a b : string) : Z :=
  match String.compare a b with
  | Lt => -1
  | Eq => 0
  | Gt => 1
  end.

(** [x || y] on numbers. *)
Definition orElse (x y : Z) : Z := if x =? 0 then y else x.

Section Keys.
Variable collate : string -> string -> Z.

Definition keyOrder (t : table) (a b : string) : Z :=
  orElse (countOf t b - countOf t a) (collate a b).

Definition sortedKeysBy (t : table) : list string :=
  sort (keyOrder t) (keysOf t).

(** The selection loop: the entries with [count >= 10], in key order. *)
Fixpoint selectFrom (t : table) (keys : list string)
  : list (string * Z) :=
  match keys with
  | [] => []
  | word :: rest =>
      let count := countOf t word in
      if 10 <=? count then (word, count) :: selectFrom t rest
      else selectFrom t rest
  end.

Definition selectedBy (text : string) : list (string * Z) :=
  let t := tally text in selectFrom t (sortedKeysBy t).
End Keys.

Definition keys (t : table) : list string := sortedKeysBy localeCompare t.

Definition selected (text : string) : list (string * Z) :=
  selectedBy localeCompare text.

(** Decimal rendering of a count in a template string. *)
Definition digitChar (d : Z) : ascii := ascii_of_N (Z.to_N (48 + d)).

Fixpoint showDigits (fuel : nat) (n : Z) (acc : string) : string :=
  match fuel with
  | O => acc
  | S f =>
      let acc' := String (digitChar (n mod 10)) acc in
      if n / 10 =? 0 then acc' else showDigits f (n / 10) acc'
  end.

Definition showZ (n : Z) : string :=
  if n <? 0 then String "-" (showDigits (S (Z.to_nat (Z.log2 (- n)))) (- n) "")
  else showDigits (S (Z.to_nat (Z.log2 n))) n "".

Definition tab : string := String (ascii_of_nat 9) "".
Definition nl : string := String (ascii_of_nat 10) "".

Definition header (n : nat) : string :=
  "# Dictionary generated from iliad.txt" +++ nl +++
  "# Words with counts >= 10 and < 100" +++ nl +++
  "# Total unique words matching: " +++ showZ (Z.of_nat n) +++ nl +++
  "# Format: word" +++ tab +++ "count" +++ nl +++ nl.

Definition body (sel : list (string * Z)) : string :=
  join nl (map (fun e => fst e +++ tab +++ showZ (snd e)) sel).

(** The text written to the dictionary file. *)
Definition build (text : string) : string :=
  let sel := selected text in header (List.length sel) +++ body sel +++ nl.

(** The text written when [localeCompare] is [collate]: the collation is
    that of the locale the script runs in. *)
Definition buildBy (collate : string -> string -> Z) (text : string)
  : string :=
  let sel := selectedBy collate text in
  header (List.length sel) +++ body sel +++ nl.

(** The script on a corpus beyond ASCII, of code units below 256:
    [letters] is the class [\p{L}] on them, [collate] the collation of
    the locale.  The lower-case mapping is that of [toLowerCase] above,
    which is the one of JavaScript on a text whose capital letters are
    ASCII. *)
Section Letters.
Variable letters : ascii -> bool.
Variable collate : string -> string -> Z.

Definition normalizedOf (text : string) : string :=
  replaceRuns (fun c => negb (letters c)) (toLowerCase text).

Definition tallyOf (text : string) : table :=
  fold_left tallyStep (splitRuns isWhiteSpace (normalizedOf text)) [].

Definition selectedOf (text : string) : list (string * Z) :=
  let t := tallyOf text in selectFrom t (sortedKeysBy collate t).

Definition buildOf (text : string) : string :=
  let sel := selectedOf text in
  header (List.length sel) +++ body sel +++ nl.
End Letters.

End Builder.

(* ================================================================== *)
(** ** The oracle ([lib/oracle.js]) *)
(* ================================================================== *)

Module Oracle.
Import JS.

Definition nl : string := String (ascii_of_nat 10) "".
Definition dq : string := String (ascii_of_nat 34) "".

Definition DEFAULT_MODEL : string := "llama3.2:3b".
Definition DEFAULT_TEMPERATURE : R := (7 / 10)%R.

Definition CUSTOM_PROMPT_TEMPLATE : string :=
  "You are a Homeric oracle: terse, ominous, and poetic. Speak in elevated phrases that feel prophetic. Answer questions with statements, and use the proper pronouns. For example, if the question uses "
  +++ dq +++ "I" +++ dq +++ ", respond using " +++ dq +++ "you" +++ dq +++ ".".

(** The module state [words], [counts], [allowedSet] ([None]: null). *)
Record Vocabulary := {
  words : list string;
  counts : list Z;
  allowedSet : option (list string)
}.

Definition emptyVocabulary : Vocabulary :=
  {| words := []; counts := []; allowedSet := None |}.

(** [parseInt(...) || 1]. *)
Definition orOne (n : option Z) : Z :=
  match n with
  | Some c => if c =? 0 then 1 else c
  | None => 1
  end.

(** One turn of the loop over the lines of the file. *)
Definition loadLine (v : Vocabulary) (line : string) : Vocabulary :=
  if negb (truthy line) then v
  else if startsWith (trim line) "#" then v
  else
    let parts := splitRuns isTab line in
    if (2 <=? List.length parts)%nat then
      let w := trim (nth 0 parts "") in
      let c := orOne (parseInt (trim (nth 1 parts ""))) in
      if truthy w then
        {| words := words v ++ [w];
           counts := counts v ++ [c];
           allowedSet := allowedSet v |}
      else v
    else v.

(** [loadDictionary], run once on the module's initial state; [file] is
    what [fs.readFile] gives ([None]: it throws, and the error is logged). *)
Definition loadDictionary (file : option string) : Vocabulary :=
  match file with
  | Some raw =>
      let v := fold_left loadLine (splitLines raw) emptyVocabulary in
      if (List.length (words v) =? 0)%nat then v
      else {| words := words v; counts := counts v;
              allowedSet := Some (unique (words v)) |}
  | None => emptyVocabulary
  end.

Definition normalizeText (s : string) : string :=
  if negb (truthy s) then ""
  else trim (replaceRuns (fun c => negb (isLetter c)) (toLowerCase s)).

Definition tokenize (s : string) : list string :=
  let t := normalizeText s in
  if negb (truthy t) then []
  else filter truthy (splitRuns isWhiteSpace t).

Fixpoint cumulativeFrom (s : R) (arr : list R) : list R * R :=
  match arr with
  | [] => ([], s)
  | x :: rest =>
      let s' := (s + x)%R in
      let (cum, total) := cumulativeFrom s' rest in (s' :: cum, total)
  end.

Definition cumulativeFromArray (arr : list R) : list R * R :=
  cumulativeFrom 0%R arr.

(** The binary search loop of [sampleIndexFromCum]; [fuel] bounds the
    number of turns. *)
Fixpoint search (fuel : nat) (cumArr : list R) (r : R) (lo hi : nat) : nat :=
  match fuel with
  | O => lo
  | S f =>
      if (lo <? hi)%nat then
        let mid := ((lo + hi) / 2)%nat in
        if Rgt_dec (nth mid cumArr 0%R) r then search f cumArr r lo mid
        else search f cumArr r (mid + 1)%nat hi
      else lo
  end.

Definition capitalizeSentence (s : string) : string :=
  match s with
  | EmptyString => s
  | String c rest => String (upperChar c) rest +++ "."
  end.

(** [arr[i] = x] for [i] inside the array. *)
Fixpoint setAt {A : Type} (i : nat) (x : A) (arr : list A) : list A :=
  match arr, i with
  | [], _ => []
  | _ :: rest, O => x :: rest
  | y :: rest, S j => y :: setAt j x rest
  end.

(** What [predict] gives back. *)
Record GenerationResult := {
  text : string;
  tokens : list string;
  warning : option string
}.

Inductive Completion :=
| Return (res : GenerationResult)
| ReturnUndefined
| Throw (message : string).

(** The argument [opts]; [None] is a missing field. *)
Record Options := {
  opt_length : option Z;
  opt_size : option string;
  opt_mode : option string;
  opt_temperature : option R;
  opt_model : option string
}.

(** The call of the text generation service. *)
Record GenerateRequest := {
  req_model : string;
  req_prompt : string;
  req_temperature : R
}.

Inductive GenerateReply :=
| Responded (response : option string)
| Failed (message : string).

(** What the oracle takes from its environment: [Math.pow], the successive
    values of [Math.random()], and the replies of the generation service
    to its successive calls. *)
Record Runtime := {
  pow : R -> R -> R;
  random : nat -> R;
  generate : nat -> GenerateRequest -> GenerateReply
}.

(** How many random numbers were drawn and how many calls of the service
    were made. *)
Record State := {
  draws : nat;
  calls : nat
}.

Definition initial : State := {| draws := 0; calls := 0 |}.

Definition orDefault (o : option string) (d : string) : string :=
  match o with
  | Some s => if truthy s then s else d
  | None => d
  end.

Definition lengthOf (opts : Options) : Z :=
  let size := orDefault (opt_size opts) "short" in
  let defaultLength := if String.eqb size "long" then 140 else 12 in
  match opt_length opts with
  | Some n => Z.max 1 (if n =? 0 then 12 else n)
  | None => defaultLength
  end.

Definition temperatureOf (opts : Options) : R :=
  match opt_temperature opts with
  | Some t => t
  | None => DEFAULT_TEMPERATURE
  end.

Definition maxAttempts : nat := 3.

Definition constraintWarning : string :=
  "LLM did not adhere to vocabulary constraints; returned fallback sampled prediction.".

Definition EMPTY_MESSAGE : string := "Oracle: dictionary not loaded or empty".
Definition TYPE_ERROR : string :=
  "TypeError: Cannot set properties of undefined (setting 'warning')".

Definition setWarning (res : GenerationResult) (w : string)
  : GenerationResult :=
  {| text := text res; tokens := tokens res; warning := Some w |}.

Definition fallbackOpts (length : Z) (temperature : R) : Options :=
  {| opt_length := Some length; opt_size := None;
     opt_mode := Some "sample"; opt_temperature := Some temperature;
     opt_model := None |}.

Definition llmPrompt (seedTokens : list string) (allowedListStr prompt : string)
  : string :=
  ("You are the Oracle. Compose a short, coherent prediction of the future using ONLY the allowed vocabulary listed below." +++ nl +++ nl)
  +++ ("Rules:" +++ nl)
  +++ ("- Use ONLY words from the allowed list. Do not use any other words, punctuation, or symbols." +++ nl)
  +++ ("- Produce exactly one concise, coherent sentence. Do not produce multiple sentences or paragraphs." +++ nl)
  +++ ("- Do not add explanations, commentary, or extra lines. Output ONLY the sentence." +++ nl +++ nl)
  +++ (if truthy (trim CUSTOM_PROMPT_TEMPLATE)
      then "Persona:" +++ nl +++ CUSTOM_PROMPT_TEMPLATE +++ nl +++ nl else "")
  +++ (if (0 <? List.length seedTokens)%nat
      then "If possible, include these seed words from the allowed list: "
           +++ join " " seedTokens +++ "." +++ nl +++ nl
      else "")
  +++ ("Allowed words:" +++ nl +++ allowedListStr +++ nl +++ nl)
  +++ ("Seed: " +++ prompt +++ nl +++ nl +++ "Output:" +++ nl).

(** [response && response.response ? response.response.trim() : ""],
    then [raw.replace(/\n+/g, " ").trim()]. *)
Definition cleanResponse (response : option string) : string :=
  let raw := match response with
             | Some r => if truthy r then trim r else ""
             | None => ""
             end in
  trim (replaceRuns isNewline raw).

Definition setHas (set : option (list string)) (t : string) : bool :=
  match set with
  | Some s => includes s t
  | None => false
  end.

Section Predict.
Variable V : Vocabulary.
Variable rt : Runtime.

(** [sampleIndexFromCum]: one draw of [Math.random()]. *)
Definition sampleIndexFromCum (cumArr : list R) (total : R) (st : State)
  : nat * State :=
  let r := (random rt (draws st) * total)%R in
  (search (List.length cumArr) cumArr r 0 (List.length cumArr - 1),
   {| draws := S (draws st); calls := calls st |}).

(** The first truthy prompt word. *)
Fixpoint firstTruthy (promptUnique : list string) : option string :=
  match promptUnique with
  | [] => None
  | t :: rest => if truthy t then Some t else firstTruthy rest
  end.

(** [for (const p of promptUnique) if (p && !tokens.includes(p)) tokens.push(p)] *)
Definition pushPrompt (tokens promptUnique : list string) : list string :=
  fold_left
    (fun toks p =>
       if (truthy p && negb (includes toks p))%bool then toks ++ [p] else toks)
    promptUnique tokens.

(** The indices of the dictionary by descending count. *)
Definition rankedIdxs : list nat :=
  sort (fun a b => nth b (counts V) 0 - nth a (counts V) 0)
       (seq 0 (List.length (counts V))).

(** The filling loop of the mode [mostLikely], over the indices left. *)
Fixpoint fillRanked (length : Z) (idxs : list nat) (toks : list string)
  : list string :=
  match idxs with
  | [] => toks
  | i :: rest =>
      if Z.of_nat (List.length toks) <? length then
        let w := nth i (words V) "" in
        fillRanked length rest (if includes toks w then toks else toks ++ [w])
      else toks
  end.

(** [counts.map((c) => Math.pow(c, tempExp))]. *)
Definition reshape (temperature : R) : list R :=
  let tempExp := (1 / Rmax (/ 100000000) temperature)%R in
  map (fun c => pow rt (IZR c) tempExp) (counts V).

Definition zeroSeed (seed : option string) (modWeights : list R) : list R :=
  match seed with
  | Some s =>
      match indexOf (words V) s with
      | Some seedIdx => setAt seedIdx 0%R modWeights
      | None => modWeights
      end
  | None => modWeights
  end.

(** The sampling loop of the mode [sample]; [fuel] bounds the number of
    turns, [drawn] records the indices drawn so far. *)
Fixpoint sampleLoop (fuel : nat) (length : Z) (toks : list string)
  (drawn : list nat) (modWeights : list R) (st : State)
  : list string * list nat * State :=
  match fuel with
  | O => (toks, drawn, st)
  | S f =>
      if Z.of_nat (List.length toks) <? length then
        let (cum, total) := cumulativeFromArray modWeights in
        if Rle_dec total 0 then (toks, drawn, st)
        else
          let (idx, st') := sampleIndexFromCum cum total st in
          sampleLoop f length (toks ++ [nth idx (words V) ""])
                     (drawn ++ [idx]) (setAt idx 0%R modWeights) st'
      else (toks, drawn, st)
  end.

(** The weights the sampling loop of [predict] starts from. *)
Definition startWeights (temperature : R) (promptUnique : list string)
  : list R :=
  zeroSeed (firstTruthy promptUnique) (reshape temperature).

Definition startTokens (promptUnique : list string) : list string :=
  pushPrompt (match firstTruthy promptUnique with
              | Some seed => [seed]
              | None => []
              end) promptUnique.

(** The sampling of the mode [sample]: tokens, indices drawn, state. *)
Definition sampleRun (length : Z) (temperature : R)
  (promptUnique : list string) (st : State)
  : list string * list nat * State :=
  let toks := startTokens promptUnique in
  sampleLoop (Z.to_nat (length - Z.of_nat (List.length toks))) length toks []
             (startWeights temperature promptUnique) st.

Definition result (toks : list string) : GenerationResult :=
  {| text := capitalizeSentence (join " " toks);
     tokens := toks; warning := None |}.

(** The branch of the local modes [mostLikely] and [sample]. *)
Definition predictLocal (mode : string) (length : Z) (temperature : R)
  (promptUnique : list string) (st : State) : Completion * State :=
  if String.eqb mode "mostLikely" then
    (Return (result (fillRanked length rankedIdxs (startTokens promptUnique))),
     st)
  else
    let '(toks, _, st') := sampleRun length temperature promptUnique st in
    (Return (result toks), st').

(** [tokenize(text)] on the cleaned response of the service. *)
Definition responseTokens (response : option string) : list string :=
  tokenize (cleanResponse response).

(** The test [bad.length === 0 && toks.length > 0], where [bad] is
    [toks.filter((t) => !(allowedSet && allowedSet.has(t)))]. *)
Definition adheres (toks : list string) : bool :=
  let bad := filter (fun t => negb (setHas (allowedSet V) t)) toks in
  ((List.length bad =? 0)%nat && (0 <? List.length toks)%nat)%bool.

(** [promptUnique]. *)
Definition promptUniqueOf (prompt : string) : list string :=
  unique (tokenize prompt).

(** The argument of [ollamaClient.generate]; it is the same at every
    attempt. *)
Definition llmRequest (prompt : string) (opts : Options) : GenerateRequest :=
  let promptUnique := promptUniqueOf prompt in
  let mergedAllowedSet :=
    unique (match allowedSet V with Some s => s | None => [] end
            ++ promptUnique) in
  let mergedAllowedList :=
    promptUnique
    ++ filter (fun w => negb (includes promptUnique w)) (words V) in
  let allowedListStr := join " " mergedAllowedList in
  let seedTokens :=
    filter (fun t => (truthy t && includes mergedAllowedSet t)%bool)
           promptUnique in
  {| req_model := orDefault (opt_model opts) DEFAULT_MODEL;
     req_prompt := llmPrompt seedTokens allowedListStr prompt;
     req_temperature := temperatureOf opts |}.

(** [mode], with its default. *)
Definition modeOf (opts : Options) : string := orDefault (opt_mode opts) "llm".

Definition isLocal (mode : string) : bool :=
  (String.eqb mode "mostLikely" || String.eqb mode "sample")%bool.

(** The handler [catch (err)] of an attempt; [self] is [predict]. *)
Definition onError (self : string -> Options -> State -> option (Completion * State))
  (prompt : string) (length : Z) (temperature : R) (message : string)
  (st : State) : option (Completion * State) :=
  match self prompt (fallbackOpts length temperature) st with
  | Some (Return fallback, st') =>
      Some (Return (setWarning fallback ("LLM error: " +++ message)), st')
  | Some (ReturnUndefined, st') => Some (Throw TYPE_ERROR, st')
  | other => other
  end.

(** The turns of the loop [for (attempt = 1; attempt <= maxAttempts; ...)],
    from turn [attempt] on; [turns] bounds their number. *)
Fixpoint attemptLoop
  (self : string -> Options -> State -> option (Completion * State))
  (turns : nat) (attempt : nat) (request : GenerateRequest)
  (prompt : string) (length : Z) (temperature : R) (st : State)
  : option (Completion * State) :=
  match turns with
  | O => Some (ReturnUndefined, st)
  | S more =>
      if (attempt <=? maxAttempts)%nat then
        let st1 := {| draws := draws st; calls := S (calls st) |} in
        match generate rt (calls st) request with
        | Failed message =>
            onError self prompt length temperature message st1
        | Responded response =>
            let toks := responseTokens response in
            if adheres toks then Some (Return (result toks), st1)
            else if (attempt <? maxAttempts)%nat then
              attemptLoop self more (S attempt) request prompt length
                          temperature st1
            else
              match self prompt (fallbackOpts length temperature) st1 with
              | Some (Return fallback, st2) =>
                  Some (Return (setWarning fallback constraintWarning), st2)
              | Some (ReturnUndefined, st2) =>
                  onError self prompt length temperature TYPE_ERROR st2
              | Some (Throw message, st2) =>
                  onError self prompt length temperature message st2
              | None => None
              end
        end
      else Some (ReturnUndefined, st)
  end.

(** [predict(prompt, opts)]; [fuel] bounds the depth of its calls of
    itself ([None]: the bound is reached). *)
Fixpoint predictFuel (fuel : nat) (prompt : string) (opts : Options)
  (st : State) : option (Completion * State) :=
  match fuel with
  | O => None
  | S f =>
      let mode := modeOf opts in
      let length := lengthOf opts in
      let temperature := temperatureOf opts in
      if (List.length (words V) =? 0)%nat then Some (Throw EMPTY_MESSAGE, st)
      else
        let promptUnique := promptUniqueOf prompt in
        if isLocal mode
        then Some (predictLocal mode length temperature promptUnique st)
        else
          attemptLoop (predictFuel f) maxAttempts 1 (llmRequest prompt opts)
                      prompt length temperature st
  end.

(** [predict]: a call of itself is in mode [sample] and calls no further. *)
Definition predict (prompt : string) (opts : Options) (st : State)
  : option (Completion * State) :=
  predictFuel 2 prompt opts st.

End Predict.

End Oracle.

(* ================================================================== *)
(** ** The sampled mode on IEEE 754 doubles ([lib/oracle.js], 79-100 and
       166-186) *)
(* ================================================================== *)

(** The arithmetic of the sampled mode once more, on the numbers
    JavaScript has: binary64 values with their rounding, infinities and
    NaN.  The statements on which rounding, overflow or NaN bear are made
    on these definitions. *)
Module Doubles.
Import JS Oracle.
Import Floats.

#[local] Set Warnings "-inexact-float".

(** The number value of an integer: the nearest double. *)
Definition ofZ (z : Z) : float :=
  SF2Prim (binary_normalize prec emax z 0 false).

(** [Math.max(a, b)]: NaN if either is NaN; [+0] is larger than [-0]. *)
Definition mathMax (a b : float) : float :=
  if (is_nan a || is_nan b)%bool then nan
  else if ltb a b then b
  else if ltb b a then a
  else if get_sign a then b else a.

(** [Math.pow] and the successive values of [Math.random()]. *)
Record Runtime := {
  pow : float -> float -> float;
  random : nat -> float
}.

Fixpoint cumulativeFrom (s : float) (arr : list float) : list float * float :=
  match arr with
  | [] => ([], s)
  | x :: rest =>
      let s' := add s x in
      let (cum, total) := cumulativeFrom s' rest in (s' :: cum, total)
  end.

Definition cumulativeFromArray (arr : list float) : list float * float :=
  cumulativeFrom 0%float arr.

(** The binary search loop of [sampleIndexFromCum]: the test is
    [cumArr[mid] > r], false when either side is NaN. *)
Fixpoint search (fuel : nat) (cumArr : list float) (r : float) (lo hi : nat)
  : nat :=
  match fuel with
  | O => lo
  | S f =>
      if (lo <? hi)%nat then
        let mid := ((lo + hi) / 2)%nat in
        if ltb r (nth mid cumArr nan) then search f cumArr r lo mid
        else search f cumArr r (mid + 1)%nat hi
      else lo
  end.

Section Sample.
Variable V : Vocabulary.
Variable rt : Runtime.

Definition sampleIndexFromCum (cumArr : list float) (total : float)
  (st : State) : nat * State :=
  let r := mul (random rt (draws st)) total in
  (search (List.length cumArr) cumArr r 0 (List.length cumArr - 1),
   {| draws := S (draws st); calls := calls st |}).

(** [counts.map((c) => Math.pow(c, tempExp))] with
    [tempExp = 1 / Math.max(1e-8, temperature)]. *)
Definition reshape (temperature : float) : list float :=
  let tempExp := div 1%float (mathMax 1e-8%float temperature) in
  map (fun c => pow rt (ofZ c) tempExp) (counts V).

Definition zeroSeed (seed : option string) (modWeights : list float)
  : list float :=
  match seed with
  | Some s =>
      match indexOf (words V) s with
      | Some seedIdx => setAt seedIdx 0%float modWeights
      | None => modWeights
      end
  | None => modWeights
  end.

(** The sampling loop: it stops on [total <= 0], which is false for a
    total that is NaN. *)
Fixpoint sampleLoop (fuel : nat) (length : Z) (toks : list string)
  (drawn : list nat) (modWeights : list float) (st : State)
  : list string * list nat * State :=
  match fuel with
  | O => (toks, drawn, st)
  | S f =>
      if Z.of_nat (List.length toks) <? length then
        let (cum, total) := cumulativeFromArray modWeights in
        if leb total 0%float then (toks, drawn, st)
        else
          let (idx, st') := sampleIndexFromCum cum total st in
          sampleLoop f length (toks ++ [nth idx (words V) ""])
                     (drawn ++ [idx]) (setAt idx 0%float modWeights) st'
      else (toks, drawn, st)
  end.

Definition startWeights (temperature : float) (promptUnique : list string)
  : list float :=
  zeroSeed (firstTruthy promptUnique) (reshape temperature).

(** The sampling of the mode [sample]: tokens, indices drawn, state. *)
Definition sampleRun (length : Z) (temperature : float)
  (promptUnique : list string) (st : State)
  : list string * list nat * State :=
  let toks := startTokens promptUnique in
  sampleLoop (Z.to_nat (length - Z.of_nat (List.length toks))) length toks []
             (startWeights temperature promptUnique) st.

(** The branch [mode === "sample"] of [predict], for the length and the
    temperature read from the options. *)
Definition sample (length : Z) (temperature : float) (prompt : string)
  (st : State) : GenerationResult * State :=
  let '(toks, _, st') :=
    sampleRun length temperature (promptUniqueOf prompt) st in
  (result toks, st').

End Sample.

End Doubles.

(* ================================================================== *)
(** ** The check script of the oracle ([scripts/test-oracle.mjs]) *)
(* ================================================================== *)

Module Scripts.
Import JS Oracle.

(** What a run of the script shows: the lines of [console.log], as they
    are written to a stream that is no colour terminal, and the code given
    to [process.exit]; the lines of [console.error] are left out. *)
Record Run := {
  stdout : list string;
  exitCode : Z
}.

(** The options of the call: [{ length: 8, temperature: 1.0 }]. *)
Definition testOptions : Options :=
  {| opt_length := Some 8; opt_size := None; opt_mode := None;
     opt_temperature := Some 1%R; opt_model := None |}.

(** [new Set(oracle.words || [])] and [allowed.has(t)]. *)
Definition allowedHas (V : Vocabulary) (t : string) : bool :=
  includes (unique (words V)) t.

(** The body of [run]: the module is imported, which loads the
    dictionary, then [predict] is called once.  An exception of [predict],
    and the read of [res.text] on an undefined result, end in the handler
    [catch (err)]. *)
Definition testOracle (file : option string) (rt : Runtime) (st : State)
  : option (Run * State) :=
  let V := loadDictionary file in
  match predict V rt "prophecy" testOptions st with
  | Some (Return res, st') =>
      let out := ["Prediction: " +++ text res;
                  "Tokens: " +++ join " " (tokens res)] in
      let bad := filter (fun t => negb (allowedHas V t)) (tokens res) in
      if negb (List.length bad =? 0)%nat then
        Some ({| stdout := out; exitCode := 2 |}, st')
      else
        Some ({| stdout := out ++ ["OK: all tokens present in dictionary"];
                 exitCode := 0 |}, st')
  | Some (ReturnUndefined, st') => Some ({| stdout := []; exitCode := 1 |}, st')
  | Some (Throw _, st') => Some ({| stdout := []; exitCode := 1 |}, st')
  | None => None
  end.

(** *** [scripts/try-lengths.mjs] *)








End Scripts.

(* ================================================================== *)
(** ** The specification's own wording, for comparison with the code *)
(* ================================================================== *)

Module Spec.
Import JS.

(** A string of white space only. *)
Fixpoint blank (s : string) : bool :=
  match s with
  | EmptyString => true
  | String c r => (isWhiteSpace c && blank r)%bool
  end.

(** The count field as the specification words it: the parsed integer,
    and 1 exactly when parsing fails. *)
Definition countAsStated (field : string) : Z :=
  match parseInt field with
  | Some n => n
  | None => 1
  end.

(** The entry a line of the dictionary file stands for, as the
    specification words it: none for a blank line, for a line beginning
    with [#], for a line without a second tab-separated field or with an
    empty word. *)
Definition lineAsStated (line : string) : option (string * Z) :=
  if blank line then None
  else if startsWith line "#" then None
  else
    match splitRuns isTab line with
    | w :: c :: _ =>
        if truthy (trim w) then Some (trim w, countAsStated (trim c))
        else None
    | _ => None
    end.

(** The count field as the loader reads it: 1 when parsing fails and
    when the parsed integer is 0. *)
Definition countOfField (field : string) : Z :=
  match parseInt field with
  | Some n => if n =? 0 then 1 else n
  | None => 1
  end.

(** The entry of a line as the loader reads it: none for a blank line,
    for a line whose first non-blank character is [#], for a line without
    a second tab-separated field or with an empty word. *)
Definition entryOfLine (line : string) : option (string * Z) :=
  if blank line then None
  else if startsWith (trimStart line) "#" then None
  else
    match splitRuns isTab line with
    | w :: c :: _ =>
        if truthy (trim w) then Some (trim w, countOfField (trim c))
        else None
    | _ => None
    end.

(** The tokens of a text as the specification words them: its maximal
    runs of letters, in lower case.  [scan] gives the run the text starts
    with (empty when it starts with no letter) and the runs after it. *)
Fixpoint scan (s : string) : string * list string :=
  match s with
  | EmptyString => (EmptyString, [])
  | String c r =>
      let (cur, runs) := scan r in
      if isLetter c then (String (lowerChar c) cur, runs)
      else (EmptyString, if truthy cur then cur :: runs else runs)
  end.

Definition letterRuns (s : string) : list string :=
  let (cur, runs) := scan s in if truthy cur then cur :: runs else runs.

(** The tokens of the ranked mode as the specification words them: the
    prompt words, then the words of [byFrequency] (the vocabulary by
    descending frequency) not emitted yet, up to the requested length. *)
Definition rankedAsStated (promptUnique byFrequency : list string)
  (length : Z) : list string :=
  promptUnique
  ++ firstn (Z.to_nat (length - Z.of_nat (List.length promptUnique)))
            (filter (fun w => negb (includes promptUnique w))
                    (unique byFrequency)).

(** The reshaped weights as the specification words them, on doubles:
    [weights[i] ^ (1 / temperature)]. *)
Definition reshapeAsStated (pow : PrimFloat.float -> PrimFloat.float
                                  -> PrimFloat.float)
  (weights : list PrimFloat.float) (temperature : PrimFloat.float)
  : list PrimFloat.float :=
  map (fun w => pow w (PrimFloat.div PrimFloat.one temperature)) weights.

(** The same options, in another mode. *)
Definition withMode (opts : Oracle.Options) (mode : string) : Oracle.Options :=
  {| Oracle.opt_length := Oracle.opt_length opts;
     Oracle.opt_size := Oracle.opt_size opts;
     Oracle.opt_mode := Some mode;
     Oracle.opt_temperature := Oracle.opt_temperature opts;
     Oracle.opt_model := Oracle.opt_model opts |}.

(** The entries of a file, line by line. *)
Definition entries (entry : string -> option (string * Z)) (raw : string)
  : list (string * Z) :=
  flat_map (fun line => match entry line with
                        | Some e => [e]
                        | None => []
                        end) (splitLines raw).

End Spec.

(** Fixtures: a runtime whose generator is unreachable, the dictionary of
    the specification's example. *)
Module Fixture.
Import JS Oracle.

Definition tab : string := String (ascii_of_nat 9) "".

Definition offline : Runtime :=
  {| pow := Rpower;
     random := fun _ => (1 / 2)%R;
     generate := fun _ _ => Failed "connect ECONNREFUSED" |}.

(** A generator that never keeps to the vocabulary. *)
Definition stubborn : Runtime :=
  {| pow := Rpower;
     random := fun _ => (1 / 2)%R;
     generate := fun _ _ => Responded (Some "Zeus rises") |}.

Definition dictionaryFile : string :=
  "# Format: word" +++ tab +++ "count" +++ nl
  +++ "fate" +++ tab +++ "20" +++ nl
  +++ "doom" +++ tab +++ "15" +++ nl
  +++ "glory" +++ tab +++ "12" +++ nl.

Definition vocabulary : Vocabulary :=
  Eval vm_compute in loadDictionary (Some dictionaryFile).

Definition options (mode : string) (length : Z) (temperature : R) : Options :=
  {| opt_length := Some length; opt_size := None; opt_mode := Some mode;
     opt_temperature := Some temperature; opt_model := None |}.

Definition zeusLine : string := "zeus" +++ tab +++ "0".

Definition indentedComment : string := "  #x" +++ tab +++ "5".

(** A generator that keeps to the vocabulary at once. *)
Definition obliging : Runtime :=
  {| pow := Rpower;
     random := fun _ => (1 / 2)%R;
     generate := fun _ _ => Responded (Some " Fate, DOOM glory! ") |}.

(** A generator that echoes the seed phrase first, and keeps to the
    vocabulary at its second call. *)
Definition echoing : Runtime :=
  {| pow := Rpower;
     random := fun _ => (1 / 2)%R;
     generate := fun n _ =>
       match n with
       | O => Responded (Some "Tell of doom")
       | _ => Responded (Some "Doom, fate.")
       end |}.

(** A dictionary whose only word has the count 1. *)
Definition loneWord : Vocabulary :=
  Eval vm_compute in loadDictionary (Some ("zeus" +++ tab +++ "1")).

(** The letter e with an acute accent, the code unit U+00E9. *)
Definition eAcute : string := String (ascii_of_nat 233) "".

(** The class [\p{L}] on the first 256 code units: the ASCII letters,
    U+00AA, U+00B5, U+00BA and U+00C0 to U+00FF without the signs U+00D7
    and U+00F7. *)
Definition latinLetters (c : ascii) : bool :=
  (isLetter c
   || N.eqb (code c) 170 || N.eqb (code c) 181 || N.eqb (code c) 186
   || (inRange 192 255 c
       && negb (N.eqb (code c) 215) && negb (N.eqb (code c) 247)))%bool.

(** A corpus of ten [z] and then ten accented [e], one blank between
    two words. *)
Definition accentedCorpus : string :=
  join " " (repeat "z" 10 ++ repeat eAcute 10).

(** The letter without its accent, for the accented lower-case letters
    among the first 256 code units. *)
Definition baseOf (c : ascii) : ascii :=
  if inRange 224 229 c then "a"%char
  else if N.eqb (code c) 231 then "c"%char
  else if inRange 232 235 c then "e"%char
  else if inRange 236 239 c then "i"%char
  else if N.eqb (code c) 241 then "n"%char
  else if inRange 242 246 c then "o"%char
  else if inRange 249 252 c then "u"%char
  else if (N.eqb (code c) 253 || N.eqb (code c) 255)%bool then "y"%char
  else c.

(** A collation as [localeCompare] has in the root locale, on words of
    lower-case letters: by the letters without their accents first, the
    accents breaking ties; so an accented e sorts before z, which it
    follows in the order of the code units. *)
Definition rootCollate (a b : string) : Z :=
  match String.compare (mapChars baseOf a) (mapChars baseOf b) with
  | Lt => -1
  | Gt => 1
  | Eq => Builder.localeCompare a b
  end.

End Fixture.

Module DoublesFixture.
Import Floats.

(** A table of [Math.pow] for the examples: the cases ECMAScript fixes
    (an exponent that is NaN or zero, a base that is NaN, the bases 1 and
    -1 with an infinite exponent), the exponent 1, the base 1 with a
    finite exponent, and the powers of a base from 2 or from 10 on that
    are beyond the largest double, which are [Infinity].  The last line
    is not a value of [Math.pow]: it marks the arguments outside the
    table, at which no example evaluates it. *)
Definition mathPow (b e : float) : float :=
  if is_nan e then nan
  else if is_zero e then 1%float
  else if is_nan b then nan
  else if (is_infinity e && eqb (abs b) 1%float)%bool then nan
  else if eqb e 1%float then b
  else if eqb b 1%float then 1%float
  else if (leb 10%float b && leb 309%float e)%bool then infinity
  else if (leb 2%float b && leb 1024%float e)%bool then infinity
  else nan.

Definition machine : Doubles.Runtime :=
  {| Doubles.pow := mathPow; Doubles.random := fun _ => 0.5%float |}.

End DoublesFixture.

(* ================================================================== *)
(** ** Shapes of strings and sums, for the statements below *)
(* ================================================================== *)

Module Shape.
Import JS.

(** Every character of [s] is in the class [cls]. *)
Fixpoint allChars (cls : ascii -> bool) (s : string) : bool :=
  match s with
  | EmptyString => true
  | String c r => (cls c && allChars cls r)%bool
  end.

(** A word of the vocabulary as the tokenizer makes them: some lower-case
    letters, and nothing else. *)
Definition isLowerWord (s : string) : bool :=
  (truthy s && allChars isLower s)%bool.

(** [t] occurs in [s] as a substring ([s.includes(t)]). *)
Fixpoint contains (s t : string) : bool :=
  (String.prefix t s
   || match s with
      | EmptyString => false
      | String _ r => contains r t
      end)%bool.

Fixpoint sumR (l : list R) : R :=
  match l with
  | [] => 0%R
  | x :: rest => (x + sumR rest)%R
  end.

End Shape.

(* ================================================================== *)
(** ** The translation engine and the similarity score
       ([lib/translator.js]) *)
(* ================================================================== *)

Module Translator.
Import JS Shape.

Definition nl : string := String (ascii_of_nat 10) "".
Definition newline : ascii := ascii_of_nat 10.

Definition commentaryTriggers : list string :=
  ["Note:"; "Explanation:"; "Commentary:"; "Analysis:"; "(repeated";
   "(this"; "(the"; "Here"; "This"; "I have"; "The above"; "In this"].

Definition englishWords : list string :=
  ["repeated"; "times"; "three"; "this"; "the"; "a"; "an"].

(** [s.split(t)[0]] for a separator [t] that is not empty: what comes
    before the first occurrence of [t], all of [s] when there is none. *)
Fixpoint before (s t : string) : string :=
  if String.prefix t s then EmptyString
  else match s with
       | EmptyString => EmptyString
       | String c r => String c (before r t)
       end.

(** [s.split(sep)] for a separator of one character. *)
Fixpoint splitOn (sep : ascii) (s : string) : list string :=
  match s with
  | EmptyString => [EmptyString]
  | String c r =>
      if Ascii.eqb c sep then EmptyString :: splitOn sep r
      else consHead c (splitOn sep r)
  end.

(** [(s.match(/\*/g) || []).length], for any character. *)
Fixpoint countChar (x : ascii) (s : string) : nat :=
  match s with
  | EmptyString => O
  | String c r => if Ascii.eqb c x then S (countChar x r) else countChar x r
  end.

(** One turn of the loop over the triggers. *)
Definition cutAt (cleaned trigger : string) : string :=
  if contains cleaned trigger then trim (before cleaned trigger)
  else cleaned.

Definition isBullet (line : string) : bool := startsWith (trim line) "*".

(** The removal of the bullet points. *)
Definition dropBullets (cleaned : string) : string :=
  if (contains cleaned "*" && (2 <? countChar "*" cleaned)%nat)%bool then
    trim (join nl (filter (fun line => negb (isBullet line))
                          (splitOn newline cleaned)))
  else cleaned.

(** The test of a line that is skipped as an explanation. *)
Definition explains (line : string) : bool :=
  (contains line "("
   && existsb (fun word => contains (toLowerCase line) word) englishWords)%bool.

Definition dropExplained (cleaned : string) : string :=
  trim (join nl (filter (fun line => negb (explains line))
                        (splitOn newline cleaned))).

Definition cleanTranslation (translation : string) : string :=
  dropExplained
    (dropBullets (fold_left cutAt commentaryTriggers (trim translation))).

(** [new Set(s.toLowerCase().split(/\s+/))]. *)
Definition wordSet (s : string) : list string :=
  unique (splitRuns isWhiteSpace (toLowerCase s)).

(** [DegradationAnalyzer.calculateTextSimilarity]; its arguments are
    strings, so that nothing is thrown in the [try] block. *)
Definition calculateTextSimilarity (original final : string) : R :=
  let originalWords := wordSet original in
  let finalWords := wordSet final in
  if (List.length originalWords =? 0)%nat then 0%R
  else
    let intersection :=
      unique (filter (fun x => includes finalWords x) originalWords) in
    let union := unique (originalWords ++ finalWords) in
    if (0 <? List.length union)%nat then
      (INR (List.length intersection) / INR (List.length union))%R
    else 0%R.

(** A [TranslationEngine]: its model and its temperature; the client is
    the function [generate], which gives the reply of the service to the
    call of each rank. *)
Record Engine := {
  modelName : string;
  temperature : R
}.

(** [new TranslationEngine(modelName)]. *)
Definition engineOf (modelName : string) : Engine :=
  {| modelName := modelName; temperature := (3 / 10)%R |}.

Inductive Outcome :=
| Returned (translation : string)
| Thrown (message : string).

Definition greekToEnglishPrompt (greekText : string) : string :=
  "Translate this Ancient Greek text to English. " +++ nl
  +++ nl
  +++ "IMPORTANT: Provide ONLY the English translation. Do not include:" +++ nl
  +++ "- Notes or explanations" +++ nl
  +++ "- Commentary about translation choices  " +++ nl
  +++ "- Analysis of vocabulary or style" +++ nl
  +++ "- Any text after the translation" +++ nl
  +++ nl
  +++ "Ancient Greek:" +++ nl
  +++ greekText +++ nl
  +++ nl
  +++ "English:".

Definition englishToGreekPrompt (englishText : string) : string :=
  "Translate this English text to Ancient Greek in Homeric style." +++ nl
  +++ nl
  +++ "IMPORTANT: Provide ONLY the Ancient Greek translation. Do not include:"
  +++ nl
  +++ "- Notes about vocabulary choices" +++ nl
  +++ "- Explanations of poetic devices" +++ nl
  +++ "- Commentary about style" +++ nl
  +++ "- Any text after the translation" +++ nl
  +++ nl
  +++ "English:" +++ nl
  +++ englishText +++ nl
  +++ nl
  +++ "Ancient Greek:".

Definition customPromptOf (text customPrompt : string) : string :=
  customPrompt +++ nl
  +++ nl
  +++ "Text to translate:" +++ nl
  +++ text +++ nl
  +++ nl
  +++ "Translation:".

(** The message of the error of [translation.trim()] on a reply without
    the field [response]. *)
Definition UNDEFINED_TRIM : string :=
  "Cannot read properties of undefined (reading 'trim')".

Section Engine.
Variable generate : nat -> Oracle.GenerateRequest -> Oracle.GenerateReply.
Variable engine : Engine.

(** The block [try { ... } catch (error) { ... }] the three translation
    methods share; [calls] counts the calls of the service so far. *)
Definition translateWith (prompt : string) (calls : nat) : Outcome * nat :=
  let request := {| Oracle.req_model := modelName engine;
                    Oracle.req_prompt := prompt;
                    Oracle.req_temperature := temperature engine |} in
  match generate calls request with
  | Oracle.Responded (Some response) =>
      (Returned (cleanTranslation response), S calls)
  | Oracle.Responded None =>
      (Thrown ("Translation failed: " +++ UNDEFINED_TRIM), S calls)
  | Oracle.Failed message =>
      (Thrown ("Translation failed: " +++ message), S calls)
  end.

Definition translateGreekToEnglish (greekText : string) (calls : nat)
  : Outcome * nat :=
  translateWith (greekToEnglishPrompt greekText) calls.

Definition translateEnglishToGreek (englishText : string) (calls : nat)
  : Outcome * nat :=
  translateWith (englishToGreekPrompt englishText) calls.

Definition translateWithCustomPrompt (text customPrompt : string)
  (calls : nat) : Outcome * nat :=
  translateWith (customPromptOf text customPrompt) calls.

(** [if (customPrompt)]: [None] is the default [null]. *)
Definition given (customPrompt : option string) : option string :=
  match customPrompt with
  | Some p => if truthy p then Some p else None
  | None => None
  end.

Definition translateToEnglish (greekText : string)
  (customPrompt : option string) (calls : nat) : Outcome * nat :=
  match given customPrompt with
  | Some p => translateWithCustomPrompt greekText p calls
  | None => translateGreekToEnglish greekText calls
  end.

Definition translateToGreek (englishText : string)
  (customPrompt : option string) (calls : nat) : Outcome * nat :=
  match given customPrompt with
  | Some p => translateWithCustomPrompt englishText p calls
  | None => translateEnglishToGreek englishText calls
  end.

End Engine.

End Translator.

(* ================================================================== *)
(** ** Properties of the dictionary loader *)
(* ================================================================== *)

Module LoaderFacts.
Import JS Oracle.

Lemma trimStart_blank (s : string) : Spec.blank s = true -> trimStart s = "".
Proof.
  induction s as [|c r IH]; simpl; auto.
  intros H. apply andb_prop in H as [Hc Hr]. rewrite Hc. auto.
Qed.

Lemma trimEnd_blank (s : string) : Spec.blank s = true -> trimEnd s = "".
Proof.
  induction s as [|c r IH]; simpl; auto.
  intros H. apply andb_prop in H as [Hc Hr]. rewrite (IH Hr), Hc. reflexivity.
Qed.

Lemma trim_blank (s : string) : Spec.blank s = true -> trim s = "".
Proof.
  intros H. unfold trim. rewrite (trimEnd_blank s H). reflexivity.
Qed.

Lemma blank_consHead (c : ascii) (fs : list string) :
  isWhiteSpace c = true -> Forall (fun f => Spec.blank f = true) fs ->
  Forall (fun f => Spec.blank f = true) (consHead c fs).
Proof.
  intros Hc Hfs. destruct fs as [|f fs]; simpl.
  - constructor; [simpl; rewrite Hc; reflexivity | constructor].
  - inversion Hfs; subst. constructor; [simpl; rewrite Hc; assumption | assumption].
Qed.

(** The fields of a blank line are blank. *)
Lemma blank_fields (cls : ascii -> bool) (s : string) :
  Spec.blank s = true ->
  forall inRun, Forall (fun f => Spec.blank f = true) (splitRunsFrom cls inRun s).
Proof.
  induction s as [|c r IH]; simpl; intros H inRun.
  - constructor; [reflexivity | constructor].
  - apply andb_prop in H as [Hc Hr].
    destruct (cls c).
    + destruct inRun; [apply IH; assumption|].
      constructor; [reflexivity | apply IH; assumption].
    + apply blank_consHead; [assumption | apply IH; assumption].
Qed.

Lemma blank_nth (fs : list string) (i : nat) :
  Forall (fun f => Spec.blank f = true) fs -> Spec.blank (nth i fs "") = true.
Proof.
  intros H. revert i. induction H; intros [|i]; simpl; auto.
Qed.

(** A line that is not blank starts, once trimmed at its end, where it
    starts once trimmed at its start. *)
Lemma startsWith_trim (s : string) (p : ascii) :
  Spec.blank s = false ->
  startsWith (trim s) (String p "") = startsWith (trimStart s) (String p "").
Proof.
  unfold trim, startsWith.
  induction s as [|c r IH]; simpl; [discriminate|].
  intros H.
  destruct (isWhiteSpace c) eqn:Hc; simpl in H.
  - specialize (IH H).
    destruct (trimEnd r) as [|c' r'] eqn:Hr.
    + exact IH.
    + simpl. rewrite Hc. exact IH.
  - destruct (trimEnd r) as [|c' r'] eqn:Hr; simpl; try rewrite Hc; simpl;
      destruct (ascii_dec p c); try reflexivity; destruct r; reflexivity.
Qed.

(** One turn of the loading loop appends the entry of its line, if any. *)
Lemma loadLine_entry (v : Vocabulary) (line : string) :
  loadLine v line =
  match Spec.entryOfLine line with
  | Some (w, c) =>
      {| words := words v ++ [w]; counts := counts v ++ [c];
         allowedSet := allowedSet v |}
  | None => v
  end.
Proof.
  unfold loadLine, Spec.entryOfLine.
  destruct (Spec.blank line) eqn:Hb.
  - destruct (negb (truthy line)); [reflexivity|].
    rewrite (trim_blank line Hb). simpl (startsWith "" "#").
    pose proof (blank_fields isTab line Hb false) as HF.
    fold (splitRuns isTab line) in HF.
    destruct (2 <=? List.length (splitRuns isTab line))%nat; [|reflexivity].
    rewrite (trim_blank _ (blank_nth _ 0%nat HF)). reflexivity.
  - destruct line as [|c0 r0]; [discriminate|].
    simpl (negb (truthy _)). cbv iota.
    rewrite (startsWith_trim _ "#"%char Hb).
    destruct (startsWith (trimStart (String c0 r0)) "#"); [reflexivity|].
    destruct (splitRuns isTab (String c0 r0)) as [|f0 [|f1 fs]];
      try reflexivity.
    simpl. destruct (truthy (trim f0)); reflexivity.
Qed.

Lemma fold_loadLine (lines : list string) : forall v : Vocabulary,
  let es := flat_map (fun line => match Spec.entryOfLine line with
                                  | Some e => [e]
                                  | None => []
                                  end) lines in
  words (fold_left loadLine lines v) = words v ++ map fst es /\
  counts (fold_left loadLine lines v) = counts v ++ map snd es /\
  allowedSet (fold_left loadLine lines v) = allowedSet v.
Proof.
  induction lines as [|line rest IH]; intros v; simpl.
  - rewrite !app_nil_r. auto.
  - destruct (IH (loadLine v line)) as (Hw & Hc & Ha).
    rewrite Hw, Hc, Ha, loadLine_entry.
    destruct (Spec.entryOfLine line) as [[w c]|]; simpl.
    + rewrite <- !app_assoc. auto.
    + auto.
Qed.

(** C8 (as amended): the loader reads the file line by line; a blank
    line, a line whose first non-blank character is [#], and a malformed
    line (no second tab-separated field, or an empty word) add nothing and
    do not stop the load; every other line appends its trimmed word and
    its count to the parallel arrays, the count being the parsed integer,
    or 1 when parsing fails or gives 0. *)
Theorem loadDictionary_entries (raw : string) :
  let v := loadDictionary (Some raw) in
  let es := Spec.entries Spec.entryOfLine raw in
  words v = map fst es /\ counts v = map snd es /\
  List.length (words v) = List.length (counts v) /\
  allowedSet v = match es with [] => None | _ => Some (unique (map fst es)) end.
Proof.
  cbv zeta. unfold loadDictionary, Spec.entries.
  destruct (fold_loadLine (splitLines raw) emptyVocabulary) as (Hw & Hc & Ha).
  simpl in Hw, Hc, Ha.
  set (v := fold_left loadLine (splitLines raw) emptyVocabulary) in *.
  set (es := flat_map _ (splitLines raw)) in *.
  assert (Hlen : List.length (words v) = List.length (counts v))
    by (rewrite Hw, Hc, !length_map; reflexivity).
  destruct (List.length (words v) =? 0)%nat eqn:Hz; simpl.
  - rewrite Hw, Hc. repeat split.
    + rewrite !length_map; reflexivity.
    + rewrite Ha. apply Nat.eqb_eq in Hz. rewrite Hw, length_map in Hz.
      destruct es; [reflexivity | discriminate].
  - rewrite Hw, Hc. repeat split.
    + rewrite !length_map; reflexivity.
    + apply Nat.eqb_neq in Hz. rewrite Hw, length_map in Hz.
      destruct es; [contradiction | reflexivity].
Qed.

(** C8 (as stated) fails: the line [zeus<TAB>0] has a count that parses,
    to 0, and the loader stores 1; and the line [  #x<TAB>5], which does
    not begin with [#], is skipped as a comment. *)
Lemma loadDictionary_zero_count :
  parseInt "0" = Some 0
  /\ counts (loadDictionary (Some Fixture.zeusLine)) = [1]
  /\ counts (loadDictionary (Some Fixture.zeusLine))
     <> map snd (Spec.entries Spec.lineAsStated Fixture.zeusLine)
  /\ words (loadDictionary (Some Fixture.indentedComment)) = []
  /\ words (loadDictionary (Some Fixture.indentedComment))
     <> map fst (Spec.entries Spec.lineAsStated Fixture.indentedComment).
Proof.
  repeat split; try reflexivity; vm_compute; discriminate.
Qed.

End LoaderFacts.

(* ================================================================== *)
(** ** Properties of the stable sort *)
(* ================================================================== *)

Module SortFacts.
Import JS.

Section Sorting.
Context {A : Type} (cmp : A -> A -> Z) (before : A -> A -> Prop).
Hypothesis before_trans : forall x y z, before x y -> before y z -> before x z.

(** [x] is placed rightly with respect to [y], whichever way the
    comparator decides. *)
Local Abbreviation decides x y :=
  (if 0 <? cmp x y then before y x else before x y).

Lemma insertSorted_perm (x : A) (l : list A) :
  Permutation (x :: l) (insertSorted cmp x l).
Proof.
  induction l as [|y rest IH]; simpl; [reflexivity|].
  destruct (0 <? cmp x y); [|reflexivity].
  rewrite perm_swap. constructor. exact IH.
Qed.

Lemma sort_perm (l : list A) : Permutation l (sort cmp l).
Proof.
  induction l as [|x rest IH]; simpl; [constructor|].
  rewrite <- insertSorted_perm. constructor. exact IH.
Qed.

Lemma insertSorted_sorted (x : A) (l : list A) :
  StronglySorted before l ->
  (forall y, In y l -> decides x y) ->
  StronglySorted before (insertSorted cmp x l).
Proof.
  induction 1 as [|y rest Hs IH Hy]; intros Hx; simpl.
  - repeat constructor.
  - pose proof (Hx y (or_introl eq_refl)) as Hxy. cbv beta in Hxy.
    destruct (0 <? cmp x y).
    + constructor.
      * apply IH. intros z Hz. apply Hx. right. exact Hz.
      * apply Forall_forall. intros z Hz.
        apply (Permutation_in _ (Permutation_sym (insertSorted_perm x rest)))
          in Hz.
        destruct Hz as [<-|Hz]; [exact Hxy|].
        rewrite Forall_forall in Hy. apply Hy. exact Hz.
    + constructor; [constructor; assumption|].
      constructor; [exact Hxy|].
      rewrite Forall_forall in Hy |- *. intros z Hz.
      apply before_trans with y; [exact Hxy | apply Hy; exact Hz].
Qed.

(** Sorting a list whose every element is decided against the ones after
    it gives a list in the order [before]. *)
Lemma sort_sorted (l : list A) :
  (forall pre x post, l = pre ++ x :: post ->
                      forall y, In y post -> decides x y) ->
  StronglySorted before (sort cmp l).
Proof.
  induction l as [|x rest IH]; intros H; simpl; [constructor|].
  apply insertSorted_sorted.
  - apply IH. intros pre z post E y Hy.
    apply (H (x :: pre) z post); [rewrite E; reflexivity | exact Hy].
  - intros y Hy.
    apply (Permutation_in _ (Permutation_sym (sort_perm rest))) in Hy.
    apply (H [] x rest eq_refl). exact Hy.
Qed.
End Sorting.

(** In a list in the order [before], an element stands [before] the ones
    after it. *)
Lemma sorted_after {A : Type} (before : A -> A -> Prop) (l : list A) :
  StronglySorted before l ->
  forall pre x post y, l = pre ++ x :: post -> In y post -> before x y.
Proof.
  induction 1 as [|z rest Hs IH Hz]; intros pre x post y E Hy.
  - destruct pre; discriminate.
  - destruct pre as [|z' pre]; simpl in E; injection E as -> E.
    + subst rest. rewrite Forall_forall in Hz. apply Hz. exact Hy.
    + eapply IH; eassumption.
Qed.

Lemma sorted_split {A : Type} (before : A -> A -> Prop) (l : list A) :
  StronglySorted before l ->
  forall l1 x y l2, l = l1 ++ x :: y :: l2 -> before x y.
Proof.
  intros Hs l1 x y l2 E.
  apply (sorted_after before l Hs l1 x (y :: l2) y E). left. reflexivity.
Qed.

Lemma seq_sorted (n : nat) : forall a, StronglySorted lt (seq a n).
Proof.
  induction n as [|n IH]; intros a; simpl; constructor; [apply IH|].
  apply Forall_forall. intros y Hy. apply in_seq in Hy. lia.
Qed.

Lemma sorted_filter {A : Type} (before : A -> A -> Prop) (keep : A -> bool)
  (l : list A) :
  StronglySorted before l -> StronglySorted before (filter keep l).
Proof.
  induction 1 as [|z rest Hs IH Hz]; simpl; [constructor|].
  destruct (keep z); [|exact IH].
  constructor; [exact IH|].
  rewrite Forall_forall in Hz |- *. intros y Hy.
  apply filter_In in Hy as [Hy _]. apply Hz. exact Hy.
Qed.

End SortFacts.

(* ================================================================== *)
(** ** Properties of the dictionary builder *)
(* ================================================================== *)

Module BuilderFacts.
Import JS Builder.

Lemma keysOf_assign_in (t : table) (w : string) (v : Z) (k : string) :
  In k (keysOf (assign t w v)) <-> k = w \/ In k (keysOf t).
Proof.
  induction t as [|[k0 v0] rest IH]; simpl.
  - intuition.
  - destruct (String.eqb_spec k0 w) as [->|Hne]; simpl.
    + intuition.
    + rewrite IH. intuition.
Qed.

Lemma keysOf_assign_nodup (t : table) (w : string) (v : Z) :
  NoDup (keysOf t) -> NoDup (keysOf (assign t w v)).
Proof.
  induction t as [|[k0 v0] rest IH]; simpl; intros H.
  - constructor; [intros [] | constructor].
  - inversion H as [|? ? Hnotin Hrest]; subst.
    destruct (String.eqb_spec k0 w) as [->|Hne]; simpl.
    + constructor; assumption.
    + constructor; [|apply IH; assumption].
      rewrite keysOf_assign_in. intros [->|Hin]; [congruence | contradiction].
Qed.

(** The tally loop keeps the keys unique. *)
Lemma tallyLoop_nodup (ws : list string) (t : table) :
  NoDup (keysOf t) -> NoDup (keysOf (fold_left tallyStep ws t)).
Proof.
  revert t. induction ws as [|w ws IH]; intros t Ht; simpl; [exact Ht|].
  apply IH. unfold tallyStep.
  destruct (negb (truthy w)); [exact Ht | apply keysOf_assign_nodup, Ht].
Qed.

(** The keys of the tally are unique. *)
Lemma tally_nodup (text : string) : NoDup (keysOf (tally text)).
Proof. unfold tally. apply tallyLoop_nodup. constructor. Qed.

Lemma selectFrom_filter (t : table) (ks : list string) :
  selectFrom t ks
  = map (fun w => (w, countOf t w)) (filter (fun w => 10 <=? countOf t w) ks).
Proof.
  induction ks as [|k ks IH]; simpl; [reflexivity|].
  destruct (10 <=? countOf t k); simpl; rewrite IH; reflexivity.
Qed.

Lemma compare_le_trans : forall x y z : string,
  String.compare x y <> Gt -> String.compare y z <> Gt ->
  String.compare x z <> Gt.
Proof.
  induction x as [|a x IH]; intros [|b y] [|c z]; simpl; try congruence.
  unfold Ascii.compare.
  destruct (N.compare_spec (N_of_ascii a) (N_of_ascii b)),
           (N.compare_spec (N_of_ascii b) (N_of_ascii c)),
           (N.compare_spec (N_of_ascii a) (N_of_ascii c));
    try congruence; try lia; eauto.
Qed.

(** What the comparator of the builder decides. *)
Lemma keyOrder_le (t : table) (a b : string) :
  keyOrder localeCompare t a b <= 0 <->
  countOf t a > countOf t b
  \/ (countOf t a = countOf t b /\ String.leb a b = true).
Proof.
  unfold keyOrder, orElse, localeCompare, String.leb.
  destruct (Z.eqb_spec (countOf t b - countOf t a) 0) as [E|E].
  - destruct (String.compare a b); split; intros H; try lia;
      try (right; split; [lia | reflexivity]);
      destruct H as [H|[_ H]]; try lia; discriminate.
  - split; intros H; [left; lia | destruct H as [H|[H _]]; lia].
Qed.

Lemma keyOrder_trans (t : table) (x y z : string) :
  keyOrder localeCompare t x y <= 0 -> keyOrder localeCompare t y z <= 0 ->
  keyOrder localeCompare t x z <= 0.
Proof.
  rewrite !keyOrder_le. unfold String.leb.
  intros [H1|[H1 L1]] [H2|[H2 L2]]; try (left; lia).
  right. split; [lia|].
  pose proof (compare_le_trans x y z) as T.
  destruct (String.compare x y), (String.compare y z), (String.compare x z);
    try reflexivity; try discriminate; exfalso; apply T; congruence.
Qed.

Lemma keyOrder_decides (t : table) (x y : string) :
  if 0 <? keyOrder localeCompare t x y
  then keyOrder localeCompare t y x <= 0
  else keyOrder localeCompare t x y <= 0.
Proof.
  destruct (Z.ltb_spec 0 (keyOrder localeCompare t x y)) as [H|H]; [|exact H].
  revert H. unfold keyOrder, orElse, localeCompare.
  rewrite (String.compare_antisym x y).
  destruct (Z.eqb_spec (countOf t y - countOf t x) 0),
           (Z.eqb_spec (countOf t x - countOf t y) 0); try lia.
  destruct (String.compare y x); simpl; lia.
Qed.

(** The keys come out of the sort in the order of the comparator. *)
Lemma keys_sorted (t : table) :
  StronglySorted (fun a b => keyOrder localeCompare t a b <= 0) (keys t).
Proof.
  unfold keys, sortedKeysBy.
  apply SortFacts.sort_sorted.
  - intros x y z. apply keyOrder_trans.
  - intros pre x post _ y _. apply keyOrder_decides.
Qed.

Section Collation.
Variable collate : string -> string -> Z.
Hypothesis collate_sym : forall a b, 0 < collate a b -> collate b a <= 0.
Hypothesis collate_trans : forall a b c,
  collate a b <= 0 -> collate b c <= 0 -> collate a c <= 0.

(** What the comparator of the builder decides, whatever the
    collation. *)
Lemma keyOrder_by (t : table) (a b : string) :
  keyOrder collate t a b <= 0 <->
  countOf t a > countOf t b
  \/ (countOf t a = countOf t b /\ collate a b <= 0).
Proof.
  unfold keyOrder, orElse.
  destruct (Z.eqb_spec (countOf t b - countOf t a) 0) as [E|E].
  - split; [intros H; right; split; [lia | exact H]|].
    intros [H|[_ H]]; [lia | exact H].
  - split; intros H; [left; lia | destruct H as [H|[H _]]; lia].
Qed.

Lemma sortedKeysBy_sorted (t : table) :
  StronglySorted (fun a b => keyOrder collate t a b <= 0)
                 (sortedKeysBy collate t).
Proof.
  unfold sortedKeysBy. apply SortFacts.sort_sorted.
  - intros x y z. rewrite !keyOrder_by.
    intros [H1|[H1 L1]] [H2|[H2 L2]]; try (left; lia).
    right. split; [lia | apply (collate_trans x y z); assumption].
  - intros pre x post _ y _.
    destruct (Z.ltb_spec 0 (keyOrder collate t x y)) as [H|H]; [|exact H].
    apply keyOrder_by. revert H. unfold keyOrder, orElse.
    destruct (Z.eqb_spec (countOf t y - countOf t x) 0) as [E|E].
    + intros H. right. split; [lia | apply collate_sym, H].
    + intros H. left. lia.
Qed.

Lemma entries_sorted (t : table) (l1 l2 : list (string * Z))
  (w1 w2 : string) (c1 c2 : Z) :
  selectFrom t (sortedKeysBy collate t)
  = l1 ++ (w1, c1) :: (w2, c2) :: l2 ->
  c1 > c2 \/ (c1 = c2 /\ collate w1 w2 <= 0).
Proof.
  rewrite selectFrom_filter.
  set (kept := filter (fun w => 10 <=? countOf t w) (sortedKeysBy collate t)).
  assert (Hfst : map fst (map (fun w => (w, countOf t w)) kept) = kept)
    by (rewrite map_map; simpl; apply map_id).
  assert (Hs : StronglySorted (fun a b => keyOrder collate t a b <= 0) kept)
    by (apply SortFacts.sorted_filter, sortedKeysBy_sorted).
  intros E.
  assert (Hc : forall e, In e (map (fun w => (w, countOf t w)) kept) ->
                         snd e = countOf t (fst e)).
  { intros e He. apply in_map_iff in He as (w & <- & _). reflexivity. }
  assert (C1 : c1 = countOf t w1).
  { apply (Hc (w1, c1)). rewrite E. apply in_or_app. right. left.
    reflexivity. }
  assert (C2 : c2 = countOf t w2).
  { apply (Hc (w2, c2)). rewrite E. apply in_or_app. right. right. left.
    reflexivity. }
  apply (f_equal (map fst)) in E. rewrite Hfst, map_app in E. simpl in E.
  pose proof (SortFacts.sorted_split _ kept Hs _ _ _ _ E) as Hord.
  cbv beta in Hord. rewrite keyOrder_by in Hord. subst c1 c2. exact Hord.
Qed.

Lemma entries_distinct (t : table) :
  NoDup (keysOf t) ->
  NoDup (map fst (selectFrom t (sortedKeysBy collate t))).
Proof.
  intros H. rewrite selectFrom_filter, map_map. simpl. rewrite map_id.
  apply NoDup_filter.
  apply (Permutation_NoDup (SortFacts.sort_perm _ (keysOf t))). exact H.
Qed.

End Collation.

(** C7: the entries the builder serializes are in the order of its
    comparator: each entry and the next have counts [c1 > c2], or
    [c1 = c2] and words that [localeCompare] does not put in the other
    order, whatever the collation of the locale is, as long as it is a
    consistent comparator; and no word occurs twice.  This holds of every
    table of counts and so of the one tallied from the corpus, whatever
    the letters of the corpus are.  The order of the ties is the
    lexicographic one wherever the collation orders the words as the
    lexicographic comparison does. *)
Theorem entries_collated (letters : ascii -> bool)
  (collate : string -> string -> Z) (t : table) (text : string) :
  (forall a b, 0 < collate a b -> collate b a <= 0) ->
  (forall a b c, collate a b <= 0 -> collate b c <= 0 -> collate a c <= 0) ->
  (forall l1 w1 c1 w2 c2 l2,
      selectFrom t (sortedKeysBy collate t)
      = l1 ++ (w1, c1) :: (w2, c2) :: l2 ->
      c1 > c2 \/ (c1 = c2 /\ collate w1 w2 <= 0))
  /\ (NoDup (keysOf t) ->
      NoDup (map fst (selectFrom t (sortedKeysBy collate t))))
  /\ (forall l1 w1 c1 w2 c2 l2,
        selectedOf letters collate text
        = l1 ++ (w1, c1) :: (w2, c2) :: l2 ->
        c1 > c2 \/ (c1 = c2 /\ collate w1 w2 <= 0))
  /\ NoDup (map fst (selectedOf letters collate text))
  /\ buildOf letters collate text
     = header (List.length (selectedOf letters collate text))
       +++ body (selectedOf letters collate text) +++ nl
  /\ selectedBy collate text = selectedOf isLetter collate text
  /\ buildBy collate text = buildOf isLetter collate text
  /\ ((forall a b, collate a b <= 0 -> String.leb a b = true) ->
      forall l1 w1 c1 w2 c2 l2,
        selectedOf letters collate text
        = l1 ++ (w1, c1) :: (w2, c2) :: l2 ->
        c1 > c2 \/ (c1 = c2 /\ String.leb w1 w2 = true)).
Proof.
  intros Hsym Htrans.
  split; [intros l1 w1 c1 w2 c2 l2;
          apply (entries_sorted collate Hsym Htrans t)|].
  split; [apply entries_distinct|].
  split; [intros l1 w1 c1 w2 c2 l2;
          apply (entries_sorted collate Hsym Htrans (tallyOf letters text))|].
  split; [apply entries_distinct, tallyLoop_nodup; constructor|].
  split; [reflexivity|]. split; [reflexivity|]. split; [reflexivity|].
  intros Hlex l1 w1 c1 w2 c2 l2 E.
  destruct (entries_sorted collate Hsym Htrans (tallyOf letters text)
              _ _ _ _ _ _ E)
    as [H|[H1 H2]]; [left; exact H | right; split; [exact H1|]].
  apply Hlex, H2.
Qed.

(** The lexicographic comparison is a consistent comparator. *)
Lemma localeCompare_sym (a b : string) :
  0 < localeCompare a b -> localeCompare b a <= 0.
Proof.
  unfold localeCompare. rewrite (String.compare_antisym a b).
  destruct (String.compare b a); simpl; lia.
Qed.

Lemma localeCompare_le (a b : string) :
  localeCompare a b <= 0 <-> String.compare a b <> Gt.
Proof.
  unfold localeCompare.
  destruct (String.compare a b); split; intros H; try lia; congruence.
Qed.

Lemma localeCompare_trans (a b c : string) :
  localeCompare a b <= 0 -> localeCompare b c <= 0 -> localeCompare a c <= 0.
Proof. rewrite !localeCompare_le. apply compare_le_trans. Qed.

Lemma entries_collated_witness :
  NoDup (map fst (selectedBy localeCompare
    "fate doom fate doom fate doom fate doom fate doom fate doom fate doom fate doom fate doom fate doom"))
  /\ selectedBy localeCompare
    "fate doom fate doom fate doom fate doom fate doom fate doom fate doom fate doom fate doom fate doom"
     = [("doom", 10); ("fate", 10)].
Proof.
  destruct (entries_collated isLetter localeCompare []
    "fate doom fate doom fate doom fate doom fate doom fate doom fate doom fate doom fate doom fate doom"
    localeCompare_sym localeCompare_trans)
    as (_ & _ & _ & H & _).
  split; [exact H | reflexivity].
Defined.

Lemma compare_same (x : string) : String.compare x x = Eq.
Proof.
  pose proof (String.compare_antisym x x) as H.
  destruct (String.compare x x); [reflexivity | discriminate | discriminate].
Qed.

(** The collation of the examples is a consistent comparator. *)
Lemma rootCollate_le (a b : string) :
  Fixture.rootCollate a b <= 0 <->
  String.compare (mapChars Fixture.baseOf a) (mapChars Fixture.baseOf b) = Lt
  \/ (mapChars Fixture.baseOf a = mapChars Fixture.baseOf b
      /\ localeCompare a b <= 0).
Proof.
  unfold Fixture.rootCollate.
  destruct (String.compare (mapChars Fixture.baseOf a)
                           (mapChars Fixture.baseOf b)) eqn:E.
  - apply String.compare_eq_iff in E. rewrite E. split; [auto|].
    intros [H|[_ H]]; [discriminate | exact H].
  - split; [auto | lia].
  - split; [lia|]. intros [H|[H _]]; [discriminate|].
    rewrite H in E.
    rewrite compare_same in E. discriminate.
Qed.

Lemma rootCollate_sym (a b : string) :
  0 < Fixture.rootCollate a b -> Fixture.rootCollate b a <= 0.
Proof.
  unfold Fixture.rootCollate.
  rewrite (String.compare_antisym (mapChars Fixture.baseOf a)
                                  (mapChars Fixture.baseOf b)).
  destruct (String.compare (mapChars Fixture.baseOf b)
                           (mapChars Fixture.baseOf a)); simpl;
    [apply localeCompare_sym | lia | lia].
Qed.

Lemma rootCollate_trans (a b c : string) :
  Fixture.rootCollate a b <= 0 -> Fixture.rootCollate b c <= 0 ->
  Fixture.rootCollate a c <= 0.
Proof.
  rewrite !rootCollate_le.
  set (fa := mapChars Fixture.baseOf a). set (fb := mapChars Fixture.baseOf b).
  set (fc := mapChars Fixture.baseOf c).
  assert (Hlt : forall x y z, String.compare x y = Lt ->
                              String.compare y z <> Gt ->
                              String.compare x z = Lt).
  { intros x y z Hxy Hyz.
    assert (Hxz : String.compare x z <> Gt)
      by (apply (compare_le_trans x y z); congruence).
    destruct (String.compare x z) eqn:E; [|reflexivity | congruence].
    apply String.compare_eq_iff in E. subst z.
    rewrite (String.compare_antisym y x), Hxy in Hyz. simpl in Hyz.
    congruence. }
  intros [H1|[E1 L1]] [H2|[E2 L2]].
  - left. apply (Hlt fa fb fc H1). congruence.
  - left. rewrite <- E2. exact H1.
  - left. rewrite E1. exact H2.
  - right. split; [congruence | apply (localeCompare_trans a b c); assumption].
Qed.

(** C7 as stated fails where the collation is not the lexicographic
    comparison: of a corpus of ten [z] and ten accented [e], the word
    with the accent is written first, as the collation has it, although
    it follows [z] in lexicographic order. *)
Lemma collation_not_lexicographic :
  (forall a b, 0 < Fixture.rootCollate a b -> Fixture.rootCollate b a <= 0)
  /\ (forall a b c, Fixture.rootCollate a b <= 0 ->
                    Fixture.rootCollate b c <= 0 ->
                    Fixture.rootCollate a c <= 0)
  /\ tallyOf Fixture.latinLetters Fixture.accentedCorpus
     = [("z", 10); (Fixture.eAcute, 10)]
  /\ selectedOf Fixture.latinLetters Fixture.rootCollate
       Fixture.accentedCorpus
     = [(Fixture.eAcute, 10); ("z", 10)]
  /\ buildOf Fixture.latinLetters Fixture.rootCollate Fixture.accentedCorpus
     = header 2 +++ Fixture.eAcute +++ tab +++ "10" +++ nl
       +++ "z" +++ tab +++ "10" +++ nl
  /\ String.leb Fixture.eAcute "z" = false
  /\ ~ (10 > 10 \/ (10 = 10 /\ String.leb Fixture.eAcute "z" = true)).
Proof.
  split; [exact rootCollate_sym|]. split; [exact rootCollate_trans|].
  split; [reflexivity|]. split; [reflexivity|]. split; [reflexivity|].
  split; [reflexivity|].
  intros [H|[_ H]]; [lia | discriminate].
Qed.

End BuilderFacts.

(* ================================================================== *)
(** ** Properties of the oracle: tokens and prompt words *)
(* ================================================================== *)

Module TokenFacts.
Import JS Oracle.

Lemma includes_In (arr : list string) (x : string) :
  includes arr x = true <-> In x arr.
Proof.
  unfold includes. rewrite existsb_exists. split.
  - intros (y & Hy & E). apply String.eqb_eq in E. subst. exact Hy.
  - intros H. exists x. split; [exact H | apply String.eqb_refl].
Qed.

Lemma includes_false (arr : list string) (x : string) :
  includes arr x = false <-> ~ In x arr.
Proof.
  rewrite <- includes_In. destruct (includes arr x); split; congruence.
Qed.

Lemma uniqueFrom_In (arr : list string) : forall seen x,
  In x (uniqueFrom seen arr) <-> In x arr /\ ~ In x seen.
Proof.
  induction arr as [|y rest IH]; intros seen x; simpl; [tauto|].
  destruct (includes seen y) eqn:Hy.
  - apply includes_In in Hy. rewrite IH. split.
    + intros [H1 H2]. tauto.
    + intros [[->|H1] H2]; [contradiction | tauto].
  - apply includes_false in Hy. simpl. rewrite IH, in_app_iff. simpl.
    split.
    + intros [->|[H1 H2]]; [tauto|tauto].
    + intros [[->|H1] H2]; [tauto|].
      destruct (string_dec y x); [tauto|]. right. tauto.
Qed.

Lemma uniqueFrom_NoDup (arr : list string) : forall seen,
  NoDup (uniqueFrom seen arr).
Proof.
  induction arr as [|y rest IH]; intros seen; simpl; [constructor|].
  destruct (includes seen y); [apply IH|].
  constructor; [|apply IH].
  rewrite uniqueFrom_In, in_app_iff. simpl. tauto.
Qed.

(** [uniqueFrom] reads [seen] as a set. *)
Lemma uniqueFrom_ext (arr : list string) : forall seen seen',
  (forall x, In x seen <-> In x seen') ->
  uniqueFrom seen arr = uniqueFrom seen' arr.
Proof.
  induction arr as [|y rest IH]; intros seen seen' E; simpl; [reflexivity|].
  assert (Hy : includes seen y = includes seen' y).
  { destruct (includes seen' y) eqn:H'.
    - apply includes_In. apply E. apply includes_In. exact H'.
    - apply includes_false. rewrite E. apply includes_false. exact H'. }
  rewrite Hy. destruct (includes seen' y); [apply IH; exact E|].
  f_equal. apply IH. intros x. rewrite !in_app_iff, E. tauto.
Qed.

(** Skipping the words of [seen] and the repeats at once, or the repeats
    first and the words of [seen] afterwards. *)
Lemma uniqueFrom_filter (arr : list string) : forall seen since,
  uniqueFrom (seen ++ since) arr
  = filter (fun w => negb (includes seen w)) (uniqueFrom since arr).
Proof.
  induction arr as [|y rest IH]; intros seen since; simpl; [reflexivity|].
  destruct (includes since y) eqn:Hs.
  - assert (H : includes (seen ++ since) y = true).
    { apply includes_In, in_or_app. right. apply includes_In. exact Hs. }
    rewrite H. apply IH.
  - simpl. destruct (includes seen y) eqn:Hseen; simpl.
    + assert (H : includes (seen ++ since) y = true).
      { apply includes_In, in_or_app. left. apply includes_In. exact Hseen. }
      rewrite H, <- IH. apply uniqueFrom_ext.
      intros x. rewrite !in_app_iff. simpl. apply includes_In in Hseen.
      split; [tauto|]. intros [H1|[H1|[->|[]]]]; tauto.
    + assert (H : includes (seen ++ since) y = false).
      { apply includes_false. rewrite in_app_iff.
        apply includes_false in Hs, Hseen. tauto. }
      rewrite H, <- IH, <- app_assoc. reflexivity.
Qed.

Lemma tokenize_truthy (s t : string) : In t (tokenize s) -> truthy t = true.
Proof.
  unfold tokenize. destruct (negb (truthy (normalizeText s))); [intros []|].
  intros H. apply filter_In in H. apply H.
Qed.

Lemma promptUnique_truthy (prompt t : string) :
  In t (promptUniqueOf prompt) -> truthy t = true.
Proof.
  unfold promptUniqueOf, unique. rewrite uniqueFrom_In.
  intros [H _]. exact (tokenize_truthy _ _ H).
Qed.

Lemma promptUnique_NoDup (prompt : string) : NoDup (promptUniqueOf prompt).
Proof. apply uniqueFrom_NoDup. Qed.

Lemma pushPrompt_fresh (l : list string) : forall acc,
  (forall p, In p l -> truthy p = true) -> NoDup l ->
  (forall p, In p l -> ~ In p acc) -> pushPrompt acc l = acc ++ l.
Proof.
  unfold pushPrompt.
  induction l as [|p rest IH]; intros acc Ht Hn Hf; simpl.
  - rewrite app_nil_r. reflexivity.
  - rewrite (Ht p (or_introl eq_refl)).
    assert (Hp : includes acc p = false)
      by (apply includes_false, Hf; left; reflexivity).
    rewrite Hp. simpl. inversion Hn; subst.
    rewrite IH.
    + rewrite <- app_assoc. reflexivity.
    + intros q Hq. apply Ht. right. exact Hq.
    + assumption.
    + intros q Hq. rewrite in_app_iff. simpl. intros [H|[->|[]]].
      * apply (Hf q); [right; exact Hq | exact H].
      * contradiction.
Qed.

(** Both local modes start from the prompt words, in their order. *)
Lemma startTokens_prompt (l : list string) :
  (forall p, In p l -> truthy p = true) -> NoDup l -> startTokens l = l.
Proof.
  intros Ht Hn. unfold startTokens. destruct l as [|p rest]; [reflexivity|].
  simpl firstTruthy. rewrite (Ht p (or_introl eq_refl)).
  unfold pushPrompt. simpl. rewrite (Ht p (or_introl eq_refl)).
  rewrite String.eqb_refl. simpl.
  inversion Hn; subst.
  apply (pushPrompt_fresh rest [p]).
  - intros q Hq. apply Ht. right. exact Hq.
  - assumption.
  - intros q Hq [->|[]]. contradiction.
Qed.

Lemma lengthOf_pos (opts : Options) : 1 <= lengthOf opts.
Proof.
  unfold lengthOf. destruct (opt_length opts); [lia|].
  destruct (String.eqb _ _); lia.
Qed.

End TokenFacts.

(* ================================================================== *)
(** ** Properties of the tokenizer *)
(* ================================================================== *)

Module TokenizerFacts.
Import JS Oracle.

Local Ltac by_cases c :=
  destruct c as [[] [] [] [] [] [] [] []]; vm_compute; congruence.

Lemma white_not_letter (c : ascii) :
  isWhiteSpace c = true -> isLetter c = false.
Proof. by_cases c. Qed.

Lemma newline_not_letter (c : ascii) :
  isNewline c = true -> isLetter c = false.
Proof. by_cases c. Qed.

Lemma letter_lower (c : ascii) : isLetter (lowerChar c) = isLetter c.
Proof. by_cases c. Qed.

Lemma lower_letter_not_white (c : ascii) :
  isLetter c = true -> isWhiteSpace (lowerChar c) = false.
Proof. by_cases c. Qed.

(** The fields of [split(/\s+/)] that [filter(Boolean)] keeps. *)
Local Abbreviation kept fields := (filter truthy fields).
Local Abbreviation fieldsFrom := (splitRunsFrom isWhiteSpace).

Lemma kept_consHead (c : ascii) (h : string) (tl : list string) :
  kept (consHead c (h :: tl)) = String c h :: kept tl.
Proof. reflexivity. Qed.

(** The fields of a string of white space are empty. *)
Lemma blank_fieldsFrom (s : string) :
  trimEnd s = "" ->
  forall inRun, exists tl,
    fieldsFrom inRun s = "" :: tl /\ kept tl = [].
Proof.
  induction s as [|c r IH]; intros H inRun.
  - exists []. auto.
  - simpl in H. destruct (trimEnd r) eqn:Hr; [|discriminate].
    destruct (isWhiteSpace c) eqn:Hc; [|discriminate].
    destruct (IH eq_refl true) as (tl & E & Hk).
    simpl. rewrite Hc. destruct inRun.
    + exists tl. auto.
    + exists ("" :: tl). rewrite E. auto.
Qed.

Lemma fieldsFrom_cons (inRun : bool) (c : ascii) (r : string) :
  fieldsFrom inRun (String c r)
  = if isWhiteSpace c then
      if inRun then fieldsFrom true r else "" :: fieldsFrom true r
    else consHead c (fieldsFrom false r).
Proof. reflexivity. Qed.

(** Trimming the end of a string changes no field that is kept, nor the
    first field. *)
Lemma trimEnd_fieldsFrom (s : string) : forall inRun,
  exists h tl tl',
    fieldsFrom inRun (trimEnd s) = h :: tl
    /\ fieldsFrom inRun s = h :: tl'
    /\ kept tl = kept tl'.
Proof.
  induction s as [|c r IH]; intros inRun.
  - exists "", [], []. auto.
  - rewrite (fieldsFrom_cons inRun c r).
    pose proof (IH true) as (ht & tlt & tlt' & Et1 & Et2 & Hkt).
    pose proof (IH false) as (hf & tlf & tlf' & Ef1 & Ef2 & Hkf).
    simpl trimEnd. destruct (trimEnd r) as [|c' r'] eqn:Hr.
    + destruct (isWhiteSpace c) eqn:Hc.
      * destruct (blank_fieldsFrom r Hr true) as (tl & E & Hk).
        rewrite E. destruct inRun.
        -- exists "", [], tl. auto.
        -- exists "", [], ("" :: tl). auto.
      * destruct (blank_fieldsFrom r Hr false) as (tl & E & Hk).
        rewrite E. exists (String c ""), [], tl. simpl. rewrite Hc. auto.
    + rewrite (fieldsFrom_cons inRun c). destruct (isWhiteSpace c) eqn:Hc.
      * rewrite Et1, Et2. destruct inRun.
        -- exists ht, tlt, tlt'. auto.
        -- exists "", (ht :: tlt), (ht :: tlt'). simpl. rewrite Hkt. auto.
      * rewrite Ef1, Ef2. exists (String c hf), tlf, tlf'. auto.
Qed.

Lemma kept_any_start (s : string) :
  kept (fieldsFrom true s) = kept (fieldsFrom false s).
Proof.
  destruct s as [|c r]; [reflexivity|]. simpl.
  destruct (isWhiteSpace c); reflexivity.
Qed.

Lemma trimStart_kept (s : string) :
  kept (fieldsFrom false (trimStart s)) = kept (fieldsFrom false s).
Proof.
  induction s as [|c r IH]; [reflexivity|]. simpl trimStart.
  destruct (isWhiteSpace c) eqn:Hc; [|reflexivity].
  rewrite IH. simpl fieldsFrom at 2. rewrite Hc. simpl.
  symmetry. apply kept_any_start.
Qed.

(** Trimming a string changes no field that is kept. *)
Lemma trim_kept (s : string) :
  kept (splitRuns isWhiteSpace (trim s)) = kept (splitRuns isWhiteSpace s).
Proof.
  unfold trim, splitRuns. rewrite trimStart_kept.
  destruct (trimEnd_fieldsFrom s false) as (h & tl & tl' & E1 & E2 & Hk).
  rewrite E1, E2. simpl. rewrite Hk. reflexivity.
Qed.

(** The fields of the normalized text are the runs of letters. *)
Lemma normalized_fields (s : string) :
  (exists tl,
      fieldsFrom false
        (replaceRunsFrom (fun c => negb (isLetter c)) false (toLowerCase s))
      = fst (Spec.scan s) :: tl
      /\ kept tl = snd (Spec.scan s))
  /\ kept (fieldsFrom true
             (replaceRunsFrom (fun c => negb (isLetter c)) true
                              (toLowerCase s)))
     = Spec.letterRuns s.
Proof.
  unfold Spec.letterRuns, toLowerCase.
  induction s as [|c r [(tl & E & Hk) IHt]].
  - split; [exists []; auto | reflexivity].
  - simpl. rewrite letter_lower.
    destruct (Spec.scan r) as [cur runs] eqn:Hscan. simpl in E, Hk.
    destruct (isLetter c) eqn:Hc; simpl.
    + rewrite (lower_letter_not_white c Hc), E. simpl. rewrite Hk.
      split; [exists tl; auto | reflexivity].
    + split.
      * eexists. split; [reflexivity|]. exact IHt.
      * exact IHt.
Qed.

(** [tokenize] gives the maximal runs of letters of its argument, in
    lower case. *)
Lemma tokenize_letterRuns (s : string) : tokenize s = Spec.letterRuns s.
Proof.
  assert (H : kept (splitRuns isWhiteSpace
                      (trim (replaceRuns (fun c => negb (isLetter c))
                                         (toLowerCase s))))
              = Spec.letterRuns s).
  { rewrite trim_kept. unfold splitRuns, replaceRuns.
    destruct (normalized_fields s) as [(tl & E & Hk) _].
    rewrite E. unfold Spec.letterRuns.
    destruct (Spec.scan s) as [cur runs]. simpl in *. rewrite Hk.
    reflexivity. }
  unfold tokenize, normalizeText.
  destruct s as [|c r]; [reflexivity|]. simpl truthy. simpl negb. cbv iota.
  destruct (trim _) eqn:Ht; [|exact H].
  simpl. rewrite <- H. reflexivity.
Qed.

Lemma scan_trimEnd (s : string) : Spec.scan (trimEnd s) = Spec.scan s.
Proof.
  induction s as [|c r IH]; [reflexivity|]. simpl trimEnd.
  destruct (trimEnd r) as [|c' r'] eqn:Hr.
  - simpl in IH. destruct (isWhiteSpace c) eqn:Hc.
    + simpl. rewrite <- IH, (white_not_letter c Hc). reflexivity.
    + simpl. rewrite <- IH. reflexivity.
  - simpl Spec.scan at 2. rewrite <- IH. reflexivity.
Qed.

Lemma letterRuns_trimStart (s : string) :
  Spec.letterRuns (trimStart s) = Spec.letterRuns s.
Proof.
  induction s as [|c r IH]; [reflexivity|]. simpl trimStart.
  destruct (isWhiteSpace c) eqn:Hc; [|reflexivity].
  rewrite IH. unfold Spec.letterRuns. simpl.
  rewrite (white_not_letter c Hc).
  destruct (Spec.scan r) as [cur runs]. simpl.
  destruct (truthy cur); reflexivity.
Qed.

Lemma letterRuns_trim (s : string) :
  Spec.letterRuns (trim s) = Spec.letterRuns s.
Proof.
  unfold trim. rewrite letterRuns_trimStart. unfold Spec.letterRuns.
  rewrite scan_trimEnd. reflexivity.
Qed.

(** Replacing runs of line feeds by a space changes no run of letters. *)
Lemma letterRuns_replace (s : string) :
  Spec.scan (replaceRunsFrom isNewline false s) = Spec.scan s
  /\ Spec.letterRuns (replaceRunsFrom isNewline true s) = Spec.letterRuns s.
Proof.
  unfold Spec.letterRuns.
  induction s as [|c r [IHf IHt]]; [auto|]. simpl.
  destruct (isNewline c) eqn:Hc.
  - rewrite (newline_not_letter c Hc). simpl.
    destruct (Spec.scan (replaceRunsFrom isNewline true r)) as [cur' runs'].
    destruct (Spec.scan r) as [cur runs]. simpl in *.
    rewrite IHt. auto.
  - simpl. rewrite IHf. auto.
Qed.

(** The tokens of a reply are the tokens of its text. *)
Lemma responseTokens_tokenize (r : string) :
  responseTokens (Some r) = tokenize r.
Proof.
  unfold responseTokens, cleanResponse.
  rewrite !tokenize_letterRuns, letterRuns_trim. unfold replaceRuns.
  destruct (truthy r) eqn:Hr.
  - destruct (letterRuns_replace (trim r)) as [Hs _].
    unfold Spec.letterRuns. rewrite Hs. apply letterRuns_trim.
  - destruct r; [reflexivity | discriminate].
Qed.

End TokenizerFacts.

(* ================================================================== *)
(** ** Properties of the oracle: the empty vocabulary, the ranked mode *)
(* ================================================================== *)

Module RankedFacts.
Import JS Oracle TokenFacts.

Lemma predict_vocabulary_unavailable_aux (V : Vocabulary) (rt : Runtime)
  (prompt : string) (opts : Options) (st : State) :
  words V = [] ->
  predict V rt prompt opts st = Some (Throw EMPTY_MESSAGE, st).
Proof.
  intros H. unfold predict. simpl. rewrite H. reflexivity.
Qed.

(** C2: with no loaded word, [predict] throws the error of the
    unavailable vocabulary, whatever the seed phrase and the options are,
    and returns no result. *)
Theorem predict_vocabulary_unavailable (V : Vocabulary) (rt : Runtime)
  (prompt : string) (opts : Options) (st : State) :
  words V = [] ->
  predict V rt prompt opts st = Some (Throw EMPTY_MESSAGE, st).
Proof.
  intros H. unfold predict. simpl. rewrite H. reflexivity.
Qed.

Lemma predict_vocabulary_unavailable_witness :
  words (loadDictionary None) = []
  /\ predict (loadDictionary None) Fixture.offline "tell of doom"
             (Fixture.options "llm" 4 1%R) initial
     = Some (Throw EMPTY_MESSAGE, initial).
Proof.
  split; [reflexivity|].
  apply predict_vocabulary_unavailable. reflexivity.
Defined.

(** The filling loop appends, of the words at [idxs], those not emitted
    yet, while the length is short. *)
Lemma fillRanked_unique (V : Vocabulary) (length : Z) (idxs : list nat) :
  forall toks,
  fillRanked V length idxs toks
  = toks ++ firstn (Z.to_nat (length - Z.of_nat (List.length toks)))
                   (uniqueFrom toks (map (fun i => nth i (words V) "") idxs)).
Proof.
  induction idxs as [|i rest IH]; intros toks; simpl.
  - rewrite firstn_nil, app_nil_r. reflexivity.
  - destruct (Z.ltb_spec (Z.of_nat (List.length toks)) length) as [Hlt|Hge].
    + destruct (includes toks (nth i (words V) "")) eqn:Hin.
      * apply IH.
      * rewrite IH, length_app, <- app_assoc. simpl.
        replace (Z.to_nat (length - Z.of_nat (List.length toks)))
          with (S (Z.to_nat (length - Z.of_nat (List.length toks + 1)))) by lia.
        reflexivity.
    + replace (Z.to_nat (length - Z.of_nat (List.length toks))) with O by lia.
      rewrite app_nil_r. reflexivity.
Qed.

(** The indices come out of the sort by descending count, equal counts
    in the order of the dictionary. *)
Lemma rankedIdxs_sorted (V : Vocabulary) :
  StronglySorted
    (fun a b => nth a (counts V) 0 > nth b (counts V) 0
                \/ (nth a (counts V) 0 = nth b (counts V) 0 /\ (a < b)%nat))
    (rankedIdxs V).
Proof.
  unfold rankedIdxs. apply SortFacts.sort_sorted.
  - intros x y z H1 H2. lia.
  - intros pre x post E y Hy.
    pose proof (SortFacts.sorted_after lt _ (SortFacts.seq_sorted _ 0%nat)
                  pre x post y E Hy) as Hxy.
    destruct (Z.ltb_spec 0 (nth y (counts V) 0 - nth x (counts V) 0)); lia.
Qed.

Lemma rankedIdxs_perm (V : Vocabulary) :
  Permutation (seq 0 (List.length (counts V))) (rankedIdxs V).
Proof. apply SortFacts.sort_perm. Qed.

Lemma words_nonempty (V : Vocabulary) :
  words V <> [] -> (List.length (words V) =? 0)%nat = false.
Proof. destruct (words V); [congruence | reflexivity]. Qed.

(** C4: the tokens of the ranked mode are the prompt words in their
    order of first occurrence, then the vocabulary words by descending
    count (equal counts in dictionary order), skipping the words emitted
    already, until the length is reached or the vocabulary is exhausted;
    for the vocabulary fate:20, doom:15, glory:12, the seed
    [tell of doom] and the length 4 they are tell, of, doom, fate and the
    text is [Tell of doom fate.]. *)
Theorem ranked_output (V : Vocabulary) (rt : Runtime) (prompt : string)
  (opts : Options) (st : State) :
  words V <> [] -> modeOf opts = "mostLikely" ->
  let byFrequency := map (fun i => nth i (words V) "") (rankedIdxs V) in
  predict V rt prompt opts st
  = Some (Return (result (Spec.rankedAsStated (promptUniqueOf prompt)
                            byFrequency (lengthOf opts))), st)
  /\ Permutation (seq 0 (List.length (counts V))) (rankedIdxs V)
  /\ StronglySorted
       (fun a b => nth a (counts V) 0 > nth b (counts V) 0
                   \/ (nth a (counts V) 0 = nth b (counts V) 0
                       /\ (a < b)%nat))
       (rankedIdxs V)
  /\ predict Fixture.vocabulary rt "tell of doom"
             (Fixture.options "mostLikely" 4 DEFAULT_TEMPERATURE) st
     = Some (Return {| text := "Tell of doom fate.";
                       tokens := ["tell"; "of"; "doom"; "fate"];
                       warning := None |}, st).
Proof.
  intros Hw Hm. cbv zeta.
  split; [|split; [apply rankedIdxs_perm|split; [apply rankedIdxs_sorted|]]].
  - unfold predict, predictFuel. rewrite (words_nonempty V Hw), Hm.
    simpl isLocal. cbv iota. unfold predictLocal. simpl String.eqb. cbv iota.
    rewrite startTokens_prompt
      by (apply promptUnique_truthy || apply promptUnique_NoDup).
    rewrite fillRanked_unique. unfold Spec.rankedAsStated, unique.
    rewrite <- uniqueFrom_filter, app_nil_r. reflexivity.
  - reflexivity.
Qed.

Lemma ranked_output_witness :
  predict Fixture.vocabulary Fixture.offline "tell of doom"
          (Fixture.options "mostLikely" 4 1%R) initial
  = Some (Return {| text := "Tell of doom fate.";
                    tokens := ["tell"; "of"; "doom"; "fate"];
                    warning := None |}, initial).
Proof.
  apply (ranked_output Fixture.vocabulary Fixture.offline "tell of doom"
           (Fixture.options "mostLikely" 4 1%R) initial).
  - discriminate.
  - reflexivity.
Defined.

End RankedFacts.

(* ================================================================== *)
(** ** Properties of the weighted sampler *)
(* ================================================================== *)

Module SamplerFacts.
Import JS Oracle.
Local Open Scope R_scope.

Lemma cumulativeFrom_length (arr : list R) : forall s,
  List.length (fst (cumulativeFrom s arr)) = List.length arr.
Proof.
  induction arr as [|x rest IH]; intros s; simpl; [reflexivity|].
  specialize (IH (s + x)). destruct (cumulativeFrom (s + x) rest). simpl in *.
  rewrite IH. reflexivity.
Qed.

Lemma cumulativeFrom_head (x : R) (rest : list R) (s : R) :
  nth 0 (fst (cumulativeFrom s (x :: rest))) 0 = s + x.
Proof. simpl. destruct (cumulativeFrom (s + x) rest). reflexivity. Qed.

(** Each cumulative value is the one before plus the weight. *)
Lemma cumulativeFrom_step (arr : list R) : forall s i,
  (S i < List.length arr)%nat ->
  nth (S i) (fst (cumulativeFrom s arr)) 0
  = nth i (fst (cumulativeFrom s arr)) 0 + nth (S i) arr 0.
Proof.
  induction arr as [|x rest IH]; intros s i Hi; simpl in Hi; [lia|].
  destruct i as [|i].
  - destruct rest as [|y rest]; simpl in Hi; [lia|]. simpl.
    destruct (cumulativeFrom (s + x + y) rest). reflexivity.
  - specialize (IH (s + x) i). simpl.
    destruct (cumulativeFrom (s + x) rest) as [cum total]. simpl in *.
    apply IH. lia.
Qed.

(** The total is the last cumulative value. *)
Lemma cumulativeFrom_last (arr : list R) : forall s,
  arr <> [] ->
  nth (List.length arr - 1) (fst (cumulativeFrom s arr)) 0
  = snd (cumulativeFrom s arr).
Proof.
  induction arr as [|x rest IH]; intros s Hne; [congruence|].
  destruct rest as [|y rest]; [reflexivity|].
  specialize (IH (s + x)). simpl in *.
  destruct (cumulativeFrom (s + x + y) rest) as [cum total]. simpl in *.
  rewrite Nat.sub_0_r in IH. apply IH. discriminate.
Qed.

Lemma search_turn (fuel : nat) (cumArr : list R) (r : R) (lo hi : nat) :
  search (S fuel) cumArr r lo hi
  = if (lo <? hi)%nat then
      if Rgt_dec (nth ((lo + hi) / 2) cumArr 0) r
      then search fuel cumArr r lo ((lo + hi) / 2)
      else search fuel cumArr r ((lo + hi) / 2 + 1) hi
    else lo.
Proof. reflexivity. Qed.

Lemma middle (lo hi : nat) :
  (lo < hi)%nat -> (lo <= (lo + hi) / 2 < hi)%nat.
Proof.
  intros H.
  pose proof (Nat.div_mod_eq (lo + hi) 2) as Hdiv.
  pose proof (Nat.mod_upper_bound (lo + hi) 2 ltac:(lia)) as Hmod.
  lia.
Qed.

(** The binary search keeps its bracket: the value left of [lo] is not
    above [r], the value at [hi] is. *)
Lemma search_bracket (cumArr : list R) (r : R) : forall fuel lo hi,
  (lo <= hi)%nat -> (hi - lo <= fuel)%nat ->
  (lo = 0%nat \/ nth (lo - 1) cumArr 0 <= r) ->
  nth hi cumArr 0 > r ->
  (lo <= search fuel cumArr r lo hi <= hi)%nat
  /\ (search fuel cumArr r lo hi = 0%nat
      \/ nth (search fuel cumArr r lo hi - 1) cumArr 0 <= r)
  /\ nth (search fuel cumArr r lo hi) cumArr 0 > r.
Proof.
  induction fuel as [|f IH]; intros lo hi Hle Hf Hlo Hhi.
  - simpl. assert (lo = hi) by lia. subst. repeat split; auto.
  - rewrite search_turn.
    destruct (Nat.ltb_spec lo hi) as [Hlt|Hge].
    + pose proof (middle lo hi Hlt) as Hmid.
      set (mid := ((lo + hi) / 2)%nat) in *.
      destruct (Rgt_dec (nth mid cumArr 0) r) as [Hgt|Hngt].
      * destruct (IH lo mid) as (H1 & H2 & H3); try lia; auto.
        repeat split; auto; lia.
      * destruct (IH (mid + 1)%nat hi) as (H1 & H2 & H3); try lia; auto.
        { right. replace (mid + 1 - 1)%nat with mid by lia. lra. }
        repeat split; auto; lia.
    + assert (lo = hi) by lia. subst. repeat split; auto.
Qed.

(** The number of turns of the binary search is bounded: more fuel
    changes nothing. *)
Lemma search_fuel (cumArr : list R) (r : R) : forall fuel fuel' lo hi,
  (hi - lo <= fuel)%nat -> (hi - lo <= fuel')%nat ->
  search fuel cumArr r lo hi = search fuel' cumArr r lo hi.
Proof.
  induction fuel as [|f IH]; intros fuel' lo hi Hf Hf'.
  - destruct fuel'; [reflexivity|]. rewrite search_turn. simpl.
    destruct (Nat.ltb_spec lo hi); [lia | reflexivity].
  - destruct fuel' as [|f']; rewrite !search_turn.
    + simpl. destruct (Nat.ltb_spec lo hi); [lia | reflexivity].
    + destruct (Nat.ltb_spec lo hi) as [Hlt|Hge]; [|reflexivity].
      pose proof (middle lo hi Hlt) as Hmid.
      destruct (Rgt_dec _ _); apply IH; lia.
Qed.

Lemma setAt_length {A : Type} (x : A) (arr : list A) : forall i,
  List.length (setAt i x arr) = List.length arr.
Proof.
  induction arr as [|y rest IH]; intros [|i]; simpl; auto.
Qed.

Lemma setAt_same {A : Type} (x d : A) (arr : list A) : forall i,
  (i < List.length arr)%nat -> nth i (setAt i x arr) d = x.
Proof.
  induction arr as [|y rest IH]; intros [|i] Hi; simpl in *; try lia; auto.
  apply IH. lia.
Qed.

Lemma setAt_other {A : Type} (x d : A) (arr : list A) : forall i j,
  i <> j -> nth j (setAt i x arr) d = nth j arr d.
Proof.
  induction arr as [|y rest IH]; intros [|i] [|j] Hij; simpl; auto;
    try congruence.
Qed.

Lemma cumulative_empty_total : snd (cumulativeFromArray []) = 0.
Proof. reflexivity. Qed.

(** With weights that are not negative the cumulative values grow. *)
Lemma cumulative_monotone (arr : list R) :
  (forall x, In x arr -> 0 <= x) ->
  forall j i, (i <= j)%nat -> (j < List.length arr)%nat ->
  nth i (fst (cumulativeFromArray arr)) 0
  <= nth j (fst (cumulativeFromArray arr)) 0.
Proof.
  intros Hpos. unfold cumulativeFromArray.
  induction j as [|j IH]; intros i Hij Hj.
  - replace i with 0%nat by lia. lra.
  - destruct (Nat.eq_dec i (S j)) as [->|Hne]; [lra|].
    rewrite cumulativeFrom_step by exact Hj.
    assert (0 <= nth (S j) arr 0) by (apply Hpos, nth_In; exact Hj).
    specialize (IH i ltac:(lia) ltac:(lia)). lra.
Qed.

(** One draw: the value drawn lies in [[0, total)], the index found is
    inside the array, its cumulative value is above the draw, the one
    before is not, and its weight is positive. *)
Lemma draw_bracket (rt : Runtime) (arr : list R) (st : State) :
  0 <= random rt (draws st) < 1 ->
  0 < snd (cumulativeFromArray arr) ->
  let cum := fst (cumulativeFromArray arr) in
  let total := snd (cumulativeFromArray arr) in
  let r := random rt (draws st) * total in
  let idx := fst (sampleIndexFromCum rt cum total st) in
  0 <= r < total
  /\ (idx < List.length arr)%nat
  /\ nth idx cum 0 > r
  /\ (idx = 0%nat \/ nth (idx - 1) cum 0 <= r)
  /\ 0 < nth idx arr 0.
Proof.
  intros Hu Htotal. cbv zeta.
  set (total := snd (cumulativeFromArray arr)) in *.
  set (cum := fst (cumulativeFromArray arr)).
  set (r := random rt (draws st) * total).
  assert (Hr : 0 <= r < total) by (unfold r; nra).
  assert (Hne : arr <> []).
  { intros ->. unfold total in Htotal. rewrite cumulative_empty_total in Htotal.
    lra. }
  assert (Hlen : List.length cum = List.length arr)
    by apply cumulativeFrom_length.
  assert (Hn : (0 < List.length arr)%nat)
    by (destruct arr; [congruence | simpl; lia]).
  assert (Hlast : nth (List.length cum - 1) cum 0 > r).
  { rewrite Hlen. unfold cum, cumulativeFromArray.
    rewrite cumulativeFrom_last by exact Hne. fold (cumulativeFromArray arr).
    fold total. lra. }
  unfold sampleIndexFromCum. cbv zeta. simpl fst. fold r.
  destruct (search_bracket cum r (List.length cum) 0 (List.length cum - 1))
    as ((_ & Hhi) & Hleft & Habove); try lia; auto.
  set (idx := search (List.length cum) cum r 0 (List.length cum - 1)) in *.
  split; [exact Hr|]. split; [lia|]. split; [exact Habove|].
  split; [exact Hleft|].
  destruct idx as [|j] eqn:Hidx.
  - destruct arr as [|x rest]; [congruence|].
    unfold cum, cumulativeFromArray in Habove.
    rewrite cumulativeFrom_head in Habove. simpl. lra.
  - destruct Hleft as [Hz|Hleft]; [discriminate|].
    replace (S j - 1)%nat with j in Hleft by lia.
    unfold cum, cumulativeFromArray in Habove, Hleft.
    rewrite cumulativeFrom_step in Habove by lia. lra.
Qed.

Lemma sampleLoop_turn (V : Vocabulary) (rt : Runtime) (fuel : nat)
  (length : Z) (toks : list string) (drawn : list nat) (modWeights : list R)
  (st : State) :
  sampleLoop V rt (S fuel) length toks drawn modWeights st
  = if (Z.of_nat (List.length toks) <? length)%Z then
      if Rle_dec (snd (cumulativeFromArray modWeights)) 0
      then (toks, drawn, st)
      else
        let idx := fst (sampleIndexFromCum rt
                          (fst (cumulativeFromArray modWeights))
                          (snd (cumulativeFromArray modWeights)) st) in
        sampleLoop V rt fuel length (toks ++ [nth idx (words V) ""%string])
                   (drawn ++ [idx]) (setAt idx 0 modWeights)
                   {| draws := S (draws st); calls := calls st |}
    else (toks, drawn, st).
Proof.
  simpl. destruct (cumulativeFromArray modWeights) as [cum total].
  reflexivity.
Qed.

(** The sampling loop: the indices it draws are distinct and had a
    positive weight; it ends with the length reached or with no weight
    left. *)
Lemma sampleLoop_spec (V : Vocabulary) (rt : Runtime) :
  (forall n, 0 <= random rt n < 1) ->
  forall fuel length toks drawn modWeights st toks' drawn' st',
  sampleLoop V rt fuel length toks drawn modWeights st = (toks', drawn', st') ->
  exists new,
    drawn' = drawn ++ new
    /\ toks' = toks ++ map (fun i => nth i (words V) ""%string) new
    /\ NoDup new
    /\ (forall i, In i new ->
                  (i < List.length modWeights)%nat /\ 0 < nth i modWeights 0)
    /\ st' = {| draws := draws st + List.length new; calls := calls st |}
    /\ ((Z.to_nat (length - Z.of_nat (List.length toks)) <= fuel)%nat ->
        (length <= Z.of_nat (List.length toks'))%Z
        \/ snd (cumulativeFromArray
                  (fold_left (fun a i => setAt i 0 a) new modWeights)) <= 0).
Proof.
  intros Hrand.
  assert (Hstop : forall (fuel : nat) length toks drawn w st,
    ((Z.to_nat (length - Z.of_nat (List.length toks)) <= fuel)%nat ->
     (length <= Z.of_nat (List.length toks))%Z
     \/ snd (cumulativeFromArray w) <= 0) ->
    exists new,
      drawn = drawn ++ new
      /\ toks = toks ++ map (fun i => nth i (words V) ""%string) new
      /\ NoDup new
      /\ (forall i, In i new -> (i < List.length w)%nat /\ 0 < nth i w 0)
      /\ st = {| draws := draws st + List.length new; calls := calls st |}
      /\ ((Z.to_nat (length - Z.of_nat (List.length toks)) <= fuel)%nat ->
          (length <= Z.of_nat (List.length toks))%Z
          \/ snd (cumulativeFromArray
                    (fold_left (fun a i => setAt i 0 a) new w)) <= 0)).
  { intros fuel length toks drawn w st H. exists []. simpl.
    rewrite !app_nil_r, Nat.add_0_r.
    split; [reflexivity|]. split; [reflexivity|]. split; [constructor|].
    split; [intros i []|]. split; [destruct st; reflexivity | exact H]. }
  induction fuel as [|f IH];
    intros length toks drawn w st toks' drawn' st' E.
  - simpl in E. injection E as <- <- <-. apply Hstop. intros H. left. lia.
  - rewrite sampleLoop_turn in E.
    destruct (Z.ltb_spec (Z.of_nat (List.length toks)) length) as [Hlt|Hge].
    + destruct (Rle_dec (snd (cumulativeFromArray w)) 0) as [Hzero|Hpos].
      * injection E as <- <- <-. apply Hstop. intros _. right. exact Hzero.
      * cbv zeta in E.
        destruct (draw_bracket rt w st (Hrand _) ltac:(lra))
          as (_ & Hidx & _ & _ & Hweight).
        set (idx := fst (sampleIndexFromCum rt (fst (cumulativeFromArray w))
                           (snd (cumulativeFromArray w)) st)) in *.
        apply IH in E. destruct E as (new & -> & -> & Hnd & Hin & -> & Hend).
        exists (idx :: new). simpl.
        rewrite <- !app_assoc. simpl.
        split; [reflexivity|]. split; [reflexivity|].
        split.
        { constructor; [|exact Hnd]. intros Hi. apply Hin in Hi as [_ Hi].
          rewrite setAt_same in Hi by exact Hidx. lra. }
        split.
        { intros i [<-|Hi]; [split; assumption|].
          apply Hin in Hi as [Hi1 Hi2]. rewrite setAt_length in Hi1.
          split; [exact Hi1|].
          destruct (Nat.eq_dec idx i) as [<-|Hne].
          - rewrite setAt_same in Hi2 by exact Hidx. lra.
          - rewrite setAt_other in Hi2 by exact Hne. exact Hi2. }
        split; [f_equal; lia|].
        intros Hfuel. rewrite <- app_assoc in Hend. simpl in Hend.
        apply Hend. rewrite length_app. simpl. lia.
    + injection E as <- <- <-. apply Hstop. intros _. left. exact Hge.
Qed.

End SamplerFacts.

(* ================================================================== *)
(** ** Properties of the sampled mode on doubles *)
(* ================================================================== *)

Module DoubleFacts.
Import JS Oracle.
Import Floats.

#[local] Set Warnings "-inexact-float".

(** *** The order of doubles *)

Lemma cont_swap (p q : positive) :
  Pos.compare_cont Eq q p = CompOpp (Pos.compare_cont Eq p q).
Proof. rewrite (Pos.compare_cont_antisym p q Eq). reflexivity. Qed.

Lemma compare_swap (x y : spec_float) :
  SFcompare y x = option_map CompOpp (SFcompare x y).
Proof.
  destruct x as [sx|sx| |sx mx ex], y as [sy|sy| |sy my ey]; simpl;
    try reflexivity;
    try (destruct sx; reflexivity); try (destruct sy; reflexivity);
    try (destruct sx, sy; reflexivity).
  rewrite (Z.compare_antisym ex ey), (cont_swap mx my).
  destruct sx, sy, (ex ?= ey), (Pos.compare_cont Eq mx my); reflexivity.
Qed.

(** A double that compares equal to a finite one other than zero is that
    double. *)
Lemma compare_eq_finite (s : bool) (m : positive) (e : Z) (y : spec_float) :
  SFcompare (S754_finite s m e) y = Some Eq -> y = S754_finite s m e.
Proof.
  destruct y as [sy|sy| |sy my ey]; simpl;
    try (destruct s; discriminate); try (destruct sy; discriminate);
    try discriminate.
  destruct s, sy; try discriminate;
    destruct (e ?= ey) eqn:E; try discriminate;
    destruct (Pos.compare_cont Eq m my) eqn:E'; try discriminate;
    intros _; apply Z.compare_eq in E; apply (Pos.compare_eq m my) in E';
    subst; reflexivity.
Qed.

Lemma compare_refl (x : spec_float) :
  x <> S754_nan -> SFcompare x x = Some Eq.
Proof.
  destruct x as [s|s| |s m e]; simpl; intros H;
    [reflexivity | destruct s; reflexivity | contradiction|].
  rewrite Z.compare_refl, Pos.compare_cont_refl. destruct s; reflexivity.
Qed.

(** A double that takes part in a comparison that holds is not NaN. *)
Lemma leb_not_nan (a t : float) : leb a t = true -> is_nan t = false.
Proof.
  rewrite leb_spec. unfold is_nan. rewrite eqb_spec. unfold SFleb, SFeqb.
  intros H.
  rewrite compare_refl; [reflexivity|].
  intros E. rewrite E in H. destruct (Prim2SF a); discriminate.
Qed.

Lemma ltb_not_nan (t a : float) : ltb t a = true -> is_nan t = false.
Proof.
  rewrite ltb_spec. unfold is_nan. rewrite eqb_spec. unfold SFltb, SFeqb.
  intros H.
  rewrite compare_refl; [reflexivity|].
  intros E. rewrite E in H. discriminate.
Qed.

Lemma ltb_swap (x y : float) : ltb x y = true -> ltb y x = false.
Proof.
  rewrite !ltb_spec. unfold SFltb.
  rewrite (compare_swap (Prim2SF x) (Prim2SF y)).
  destruct (SFcompare (Prim2SF x) (Prim2SF y)) as [[]|];
    try discriminate. reflexivity.
Qed.

(** *** The guard of the exponent *)

Lemma mathMax_above (t : float) :
  leb 1e-8 t = true -> Doubles.mathMax 1e-8 t = t.
Proof.
  intros H. unfold Doubles.mathMax. rewrite (leb_not_nan _ _ H).
  change (is_nan 1e-8) with false. cbn [orb].
  destruct (ltb 1e-8 t) eqn:Hlt; [reflexivity|].
  assert (E : SFcompare (Prim2SF 1e-8) (Prim2SF t) = Some Eq).
  { rewrite leb_spec in H. rewrite ltb_spec in Hlt. unfold SFleb, SFltb in *.
    destruct (SFcompare (Prim2SF 1e-8) (Prim2SF t)) as [[]|]; congruence. }
  assert (Ht : t = 1e-8%float).
  { apply Prim2SF_inj.
    remember (Prim2SF 1e-8) as f eqn:Hf. vm_compute in Hf. subst f.
    apply compare_eq_finite in E. rewrite E. reflexivity. }
  subst t. reflexivity.
Qed.

Lemma mathMax_below (t : float) :
  ltb t 1e-8 = true -> Doubles.mathMax 1e-8 t = 1e-8%float.
Proof.
  intros H. unfold Doubles.mathMax. rewrite (ltb_not_nan _ _ H).
  change (is_nan 1e-8) with false. cbn [orb].
  rewrite (ltb_swap _ _ H), H. reflexivity.
Qed.

(** A temperature is NaN, or at least [1e-8], or below it. *)
Lemma guard_cases (t : float) :
  is_nan t = true \/ leb 1e-8 t = true \/ ltb t 1e-8 = true.
Proof.
  destruct (leb 1e-8 t) eqn:Hle; [right; left; reflexivity|].
  destruct (ltb t 1e-8) eqn:Hlt; [right; right; reflexivity|].
  left. rewrite leb_spec in Hle. rewrite ltb_spec in Hlt.
  unfold SFleb, SFltb in Hle, Hlt.
  rewrite (compare_swap (Prim2SF 1e-8) (Prim2SF t)) in Hlt.
  unfold is_nan. rewrite eqb_spec. unfold SFeqb.
  remember (Prim2SF 1e-8) as f eqn:Hf. vm_compute in Hf. subst f.
  destruct (Prim2SF t) as [s|s| |s m e]; [| |reflexivity|];
    exfalso;
    match type of Hle with
    | context [SFcompare ?a ?b] =>
        destruct (SFcompare a b) as [[]|] eqn:E; try discriminate
    end;
    simpl in E; try destruct s; discriminate.
Qed.

(** C6: the weights of the sampled mode are the counts raised to
    [1 / Math.max(1e-8, temperature)]: they are what the specification
    words, the counts raised to [1 / temperature], for every temperature
    from [1e-8] on; for every temperature below [1e-8], zero and the
    negative ones too, the exponent is [1e8], and for a temperature that
    is NaN it is NaN.  No temperature is outside these three cases. *)
Theorem reshape_guarded (V : Vocabulary) (rt : Doubles.Runtime)
  (temperature : float) :
  Doubles.reshape V rt temperature
  = Spec.reshapeAsStated (Doubles.pow rt) (map Doubles.ofZ (counts V))
                         (Doubles.mathMax 1e-8 temperature)
  /\ (is_nan temperature = true \/ leb 1e-8 temperature = true
      \/ ltb temperature 1e-8 = true)
  /\ (leb 1e-8 temperature = true ->
      Doubles.reshape V rt temperature
      = Spec.reshapeAsStated (Doubles.pow rt) (map Doubles.ofZ (counts V))
                             temperature)
  /\ (ltb temperature 1e-8 = true ->
      Doubles.reshape V rt temperature
      = map (fun c => Doubles.pow rt (Doubles.ofZ c) 100000000%float)
            (counts V))
  /\ (is_nan temperature = true ->
      Doubles.reshape V rt temperature
      = map (fun c => Doubles.pow rt (Doubles.ofZ c) nan) (counts V)).
Proof.
  unfold Doubles.reshape, Spec.reshapeAsStated. cbv zeta.
  rewrite !map_map.
  split; [reflexivity|]. split; [apply guard_cases|]. split; [|split].
  - intros H. rewrite (mathMax_above _ H). reflexivity.
  - intros H. rewrite (mathMax_below _ H). reflexivity.
  - intros H. unfold Doubles.mathMax. rewrite H, orb_true_r. reflexivity.
Qed.

(** C6 as stated fails.  A count of 1 at a positive temperature so small
    that its inverse overflows: the code raises 1 to [1e8], which is 1,
    where [count ^ (1 / temperature)] raises 1 to [Infinity], which is
    NaN. *)
Lemma reshape_subnormal :
  ltb 0 1e-310 = true
  /\ Doubles.reshape Fixture.loneWord DoublesFixture.machine 1e-310
     = [1%float]
  /\ Spec.reshapeAsStated DoublesFixture.mathPow
                          (map Doubles.ofZ (counts Fixture.loneWord)) 1e-310
     = [nan]
  /\ Doubles.reshape Fixture.loneWord DoublesFixture.machine 1e-310
     <> Spec.reshapeAsStated DoublesFixture.mathPow
                            (map Doubles.ofZ (counts Fixture.loneWord))
                            1e-310.
Proof.
  split; [reflexivity|]. split; [reflexivity|]. split; [reflexivity|].
  intros E. apply (f_equal (fun l => is_nan (nth 0 l 0%float))) in E.
  vm_compute in E. discriminate.
Qed.

(** *** Sums and products with zero and infinity *)

Lemma eqb_zero (z : float) :
  eqb z 0 = true -> exists s, Prim2SF z = S754_zero s.
Proof.
  rewrite eqb_spec. change (Prim2SF 0) with (S754_zero false).
  unfold SFeqb.
  destruct (Prim2SF z) as [s|s| |s m e]; simpl; intros H;
    [exists s; reflexivity | destruct s; discriminate | discriminate
    | destruct s; discriminate].
Qed.

(** Adding a zero changes no comparison. *)
Lemma ltb_add_zero (r x z : float) :
  eqb z 0 = true -> ltb r (add x z) = ltb r x.
Proof.
  intros Hz. destruct (eqb_zero z Hz) as [s Hs].
  rewrite !ltb_spec, add_spec, Hs. unfold SF64add, SFltb.
  destruct (Prim2SF x) as [sx|sx| |sx mx ex]; simpl; try reflexivity.
  destruct sx, s; simpl; destruct (Prim2SF r) as [sr|sr| |sr mr er];
    reflexivity.
Qed.

(** The product of a double that is not negative with [Infinity] is
    [Infinity] or NaN: it is below no double. *)
Lemma scaled_overflow (x c : float) :
  leb 0 x = true -> ltb (mul x infinity) c = true -> False.
Proof.
  rewrite leb_spec, ltb_spec, mul_spec.
  change (Prim2SF 0) with (S754_zero false).
  change (Prim2SF infinity) with (S754_infinity false).
  unfold SFleb, SFltb, SF64mul.
  destruct (Prim2SF x) as [sx|sx| |sx mx ex]; simpl; try discriminate.
  - destruct sx; [discriminate|]. intros _. simpl.
    destruct (Prim2SF c) as [sc|sc| |sc mc ec]; try discriminate.
    destruct sc; discriminate.
  - destruct sx; [discriminate|]. intros _. simpl.
    destruct (Prim2SF c) as [sc|sc| |sc mc ec]; try discriminate.
    destruct sc; discriminate.
Qed.

(** *** The binary search *)

Lemma bisect_turn (fuel : nat) (cumArr : list float) (r : float)
  (lo hi : nat) :
  Doubles.search (S fuel) cumArr r lo hi
  = if (lo <? hi)%nat then
      if ltb r (nth ((lo + hi) / 2) cumArr nan)
      then Doubles.search fuel cumArr r lo ((lo + hi) / 2)
      else Doubles.search fuel cumArr r ((lo + hi) / 2 + 1) hi
    else lo.
Proof. reflexivity. Qed.

(** The search keeps its bracket: the value left of [lo] is not above
    [r], the value at [hi] is. *)
Lemma bisect_bracket (cumArr : list float) (r : float) : forall fuel lo hi,
  (lo <= hi)%nat -> (hi - lo <= fuel)%nat ->
  (lo = 0%nat \/ ltb r (nth (lo - 1) cumArr nan) = false) ->
  ltb r (nth hi cumArr nan) = true ->
  (lo <= Doubles.search fuel cumArr r lo hi <= hi)%nat
  /\ (Doubles.search fuel cumArr r lo hi = 0%nat
      \/ ltb r (nth (Doubles.search fuel cumArr r lo hi - 1) cumArr nan)
         = false)
  /\ ltb r (nth (Doubles.search fuel cumArr r lo hi) cumArr nan) = true.
Proof.
  induction fuel as [|f IH]; intros lo hi Hle Hf Hlo Hhi.
  - simpl. assert (lo = hi) by lia. subst. repeat split; auto.
  - rewrite bisect_turn.
    destruct (Nat.ltb_spec lo hi) as [Hlt|Hge].
    + pose proof (SamplerFacts.middle lo hi Hlt) as Hmid.
      set (mid := ((lo + hi) / 2)%nat) in *.
      destruct (ltb r (nth mid cumArr nan)) eqn:Hgt.
      * destruct (IH lo mid) as (H1 & H2 & H3); try lia; auto.
        repeat split; auto; lia.
      * destruct (IH (mid + 1)%nat hi) as (H1 & H2 & H3); try lia; auto.
        { right. replace (mid + 1 - 1)%nat with mid by lia. exact Hgt. }
        repeat split; auto; lia.
    + assert (lo = hi) by lia. subst. repeat split; auto.
Qed.

(** When no cumulative value is above [r], the search ends at the last
    index. *)
Lemma search_last (cumArr : list float) (r : float) : forall fuel lo hi,
  (lo <= hi)%nat -> (hi - lo <= fuel)%nat ->
  (forall i, ltb r (nth i cumArr nan) = false) ->
  Doubles.search fuel cumArr r lo hi = hi.
Proof.
  induction fuel as [|f IH]; intros lo hi Hle Hf Hall.
  - simpl. lia.
  - rewrite bisect_turn.
    destruct (Nat.ltb_spec lo hi) as [Hlt|Hge]; [|lia].
    pose proof (SamplerFacts.middle lo hi Hlt) as Hmid.
    rewrite Hall. apply IH; [lia | lia | exact Hall].
Qed.

(** *** The cumulative sums *)

Lemma running_length (arr : list float) : forall s,
  List.length (fst (Doubles.cumulativeFrom s arr)) = List.length arr.
Proof.
  induction arr as [|x rest IH]; intros s; simpl; [reflexivity|].
  specialize (IH (add s x)).
  destruct (Doubles.cumulativeFrom (add s x) rest). simpl in *.
  rewrite IH. reflexivity.
Qed.

Lemma running_head (x : float) (rest : list float) (s : float) :
  nth 0 (fst (Doubles.cumulativeFrom s (x :: rest))) nan = add s x.
Proof.
  simpl. destruct (Doubles.cumulativeFrom (add s x) rest). reflexivity.
Qed.

Lemma running_step (arr : list float) : forall s i,
  (S i < List.length arr)%nat ->
  nth (S i) (fst (Doubles.cumulativeFrom s arr)) nan
  = add (nth i (fst (Doubles.cumulativeFrom s arr)) nan) (nth (S i) arr nan).
Proof.
  induction arr as [|x rest IH]; intros s i Hi; simpl in Hi; [lia|].
  destruct i as [|i].
  - destruct rest as [|y rest]; simpl in Hi; [lia|]. simpl.
    destruct (Doubles.cumulativeFrom (add (add s x) y) rest). reflexivity.
  - specialize (IH (add s x) i). simpl.
    destruct (Doubles.cumulativeFrom (add s x) rest) as [cum total].
    simpl in *. apply IH. lia.
Qed.

Lemma running_last (arr : list float) : forall s,
  arr <> [] ->
  nth (List.length arr - 1) (fst (Doubles.cumulativeFrom s arr)) nan
  = snd (Doubles.cumulativeFrom s arr).
Proof.
  induction arr as [|x rest IH]; intros s Hne; [congruence|].
  destruct rest as [|y rest]; [reflexivity|].
  specialize (IH (add s x)). simpl in *.
  destruct (Doubles.cumulativeFrom (add (add s x) y) rest) as [cum total].
  simpl in *. rewrite Nat.sub_0_r in IH. apply IH. discriminate.
Qed.

(** X5: on doubles, a draw whose scaled random value [r] is not
    negative and is below the total returns an index of the array whose
    cumulative value is above [r], the one before being not, and whose
    weight is not zero: a zero weight leaves the cumulative sum where it
    was, whatever the rounding, so that such a draw never returns a
    zeroed index. *)
Theorem draw_nonzero_weight (rt : Doubles.Runtime) (arr : list float)
  (st : State) :
  let cum := fst (Doubles.cumulativeFromArray arr) in
  let total := snd (Doubles.cumulativeFromArray arr) in
  let r := mul (Doubles.random rt (draws st)) total in
  let idx := fst (Doubles.sampleIndexFromCum rt cum total st) in
  ltb r total = true -> ltb r 0 = false ->
  List.length cum = List.length arr
  /\ (idx < List.length arr)%nat
  /\ ltb r (nth idx cum nan) = true
  /\ (idx = 0%nat \/ ltb r (nth (idx - 1) cum nan) = false)
  /\ eqb (nth idx arr nan) 0 = false.
Proof.
  cbv zeta. unfold Doubles.sampleIndexFromCum. cbv zeta. cbn [fst].
  set (cum := fst (Doubles.cumulativeFromArray arr)).
  set (r := mul _ _). intros Htotal Hneg.
  assert (Hlen : List.length cum = List.length arr)
    by apply running_length.
  assert (Hne : arr <> []).
  { intros E. unfold r in Htotal. rewrite E in Htotal. cbn in Htotal.
    unfold r in Hneg. rewrite E in Hneg. cbn in Hneg. congruence. }
  assert (Hn : (0 < List.length arr)%nat)
    by (destruct arr; [congruence | simpl; lia]).
  assert (Hlast : ltb r (nth (List.length cum - 1) cum nan) = true).
  { rewrite Hlen. unfold cum, Doubles.cumulativeFromArray.
    rewrite running_last by exact Hne. exact Htotal. }
  destruct (bisect_bracket cum r (List.length cum) 0 (List.length cum - 1))
    as ((_ & Hhi) & Hleft & Habove); try lia; auto.
  set (idx := Doubles.search (List.length cum) cum r 0 (List.length cum - 1))
    in *.
  split; [exact Hlen|]. split; [lia|]. split; [exact Habove|].
  split; [exact Hleft|].
  destruct (eqb (nth idx arr nan) 0) eqn:Hz; [exfalso | reflexivity].
  destruct idx as [|j] eqn:Hidx.
  - destruct arr as [|x rest]; [congruence|].
    unfold cum, Doubles.cumulativeFromArray in Habove.
    rewrite running_head in Habove. simpl in Hz.
    rewrite (ltb_add_zero r 0 x Hz) in Habove. congruence.
  - destruct Hleft as [Hzero|Hleft]; [discriminate|].
    replace (S j - 1)%nat with j in Hleft by lia.
    unfold cum, Doubles.cumulativeFromArray in Habove, Hleft.
    rewrite running_step in Habove by lia.
    rewrite (ltb_add_zero r _ _ Hz) in Habove. congruence.
Qed.

Lemma draw_nonzero_weight_witness :
  fst (Doubles.sampleIndexFromCum DoublesFixture.machine
         (fst (Doubles.cumulativeFromArray [0; 20; 12]%float))
         (snd (Doubles.cumulativeFromArray [0; 20; 12]%float)) initial)
  = 1%nat
  /\ eqb (nth 1 [0; 20; 12]%float nan) 0 = false.
Proof.
  destruct (draw_nonzero_weight DoublesFixture.machine [0; 20; 12]%float
              initial eq_refl eq_refl) as (_ & _ & _ & _ & H).
  split; [reflexivity | exact H].
Defined.

(** *** The run at a temperature whose exponent overflows *)

Lemma redraw_turn (V : Vocabulary) (rt : Doubles.Runtime) (fuel : nat)
  (length : Z) (toks : list string) (drawn : list nat)
  (modWeights : list float) (st : State) :
  Doubles.sampleLoop V rt (S fuel) length toks drawn modWeights st
  = if (Z.of_nat (List.length toks) <? length)%Z then
      if leb (snd (Doubles.cumulativeFromArray modWeights)) 0
      then (toks, drawn, st)
      else
        let idx := fst (Doubles.sampleIndexFromCum rt
                          (fst (Doubles.cumulativeFromArray modWeights))
                          (snd (Doubles.cumulativeFromArray modWeights)) st) in
        Doubles.sampleLoop V rt fuel length
          (toks ++ [nth idx (words V) ""%string])
          (drawn ++ [idx]) (setAt idx 0%float modWeights)
          {| draws := S (draws st); calls := calls st |}
    else (toks, drawn, st).
Proof.
  simpl. destruct (Doubles.cumulativeFromArray modWeights) as [cum total].
  reflexivity.
Qed.

(** With a total that is [Infinity] a draw returns the last index,
    whatever [Math.random()] gives that is not negative. *)
Lemma draw_overflow (rt : Doubles.Runtime) (cum : list float) (st : State) :
  leb 0 (Doubles.random rt (draws st)) = true ->
  fst (Doubles.sampleIndexFromCum rt cum infinity st)
  = (List.length cum - 1)%nat.
Proof.
  intros H. unfold Doubles.sampleIndexFromCum. cbv zeta. cbn [fst].
  apply search_last; [lia | lia |].
  intros i.
  destruct (ltb (mul (Doubles.random rt (draws st)) infinity)
                (nth i cum nan)) eqn:E; [|reflexivity].
  destruct (scaled_overflow _ _ H E).
Qed.

(** C5: at the temperature 0.001 the exponent is 1000 and the weights of
    the counts 20, 15 and 12 overflow to [Infinity].  The total is then
    [Infinity], no cumulative value is above the scaled random value,
    and every draw returns the last index, zeroed or not: for the seed
    [x] and the length 4 the run draws the index 2 three times and emits
    [x glory glory glory], whatever [Math.random()] gives. *)
Theorem overflow_redraws (rt : Doubles.Runtime) (st : State) :
  Doubles.pow rt 20 1000 = infinity ->
  Doubles.pow rt 15 1000 = infinity ->
  Doubles.pow rt 12 1000 = infinity ->
  (forall n, leb 0 (Doubles.random rt n) = true) ->
  Doubles.reshape Fixture.vocabulary rt 0.001 = [infinity; infinity; infinity]
  /\ Doubles.sampleRun Fixture.vocabulary rt 4 0.001 (promptUniqueOf "x") st
     = (["x"; "glory"; "glory"; "glory"]%string, [2; 2; 2]%nat,
        {| draws := S (S (S (draws st))); calls := calls st |})
  /\ ~ NoDup (snd (fst (Doubles.sampleRun Fixture.vocabulary rt 4 0.001
                          (promptUniqueOf "x") st)))
  /\ fst (Doubles.sample Fixture.vocabulary rt 4 0.001 "x" st)
     = {| text := "X glory glory glory.";
          tokens := ["x"; "glory"; "glory"; "glory"]%string;
          warning := None |}.
Proof.
  intros H20 H15 H12 Hrand.
  assert (Hw : Doubles.reshape Fixture.vocabulary rt 0.001
               = [infinity; infinity; infinity]).
  { unfold Doubles.reshape. cbv zeta.
    change (div 1 (Doubles.mathMax 1e-8 0.001)) with 1000%float.
    change (counts Fixture.vocabulary) with [20; 15; 12]%Z.
    cbn [map].
    change (Doubles.ofZ 20) with 20%float.
    change (Doubles.ofZ 15) with 15%float.
    change (Doubles.ofZ 12) with 12%float.
    rewrite H20, H15, H12. reflexivity. }
  assert (Hrun : Doubles.sampleRun Fixture.vocabulary rt 4 0.001
                   (promptUniqueOf "x") st
                 = (["x"; "glory"; "glory"; "glory"]%string, [2; 2; 2]%nat,
                    {| draws := S (S (S (draws st))); calls := calls st |})).
  { unfold Doubles.sampleRun, Doubles.startWeights. rewrite Hw.
    change (promptUniqueOf "x") with ["x"%string].
    change (startTokens ["x"%string]) with ["x"%string].
    change (Doubles.zeroSeed Fixture.vocabulary (firstTruthy ["x"%string])
              [infinity; infinity; infinity])
      with [infinity; infinity; infinity].
    change (Z.to_nat (4 - Z.of_nat (List.length ["x"%string]))) with 3%nat.
    rewrite redraw_turn.
    change (Doubles.cumulativeFromArray [infinity; infinity; infinity])
      with ([infinity; infinity; infinity], infinity).
    cbn [fst snd List.length Z.of_nat Z.ltb Z.compare Pos.compare
         Pos.compare_cont Pos.of_succ_nat Pos.succ app].
    change (leb infinity 0) with false. cbv iota zeta.
    rewrite draw_overflow by apply Hrand.
    cbn [List.length Nat.sub nth setAt app].
    change (nth 2 (words Fixture.vocabulary) ""%string) with "glory"%string.
    rewrite redraw_turn.
    change (Doubles.cumulativeFromArray [infinity; infinity; 0%float])
      with ([infinity; infinity; infinity], infinity).
    cbn [fst snd List.length Z.of_nat Z.ltb Z.compare Pos.compare
         Pos.compare_cont Pos.of_succ_nat Pos.succ app].
    change (leb infinity 0) with false. cbv iota zeta.
    rewrite draw_overflow by apply Hrand.
    cbn [List.length Nat.sub nth setAt app].
    change (nth 2 (words Fixture.vocabulary) ""%string) with "glory"%string.
    rewrite redraw_turn.
    change (Doubles.cumulativeFromArray [infinity; infinity; 0%float])
      with ([infinity; infinity; infinity], infinity).
    cbn [fst snd List.length Z.of_nat Z.ltb Z.compare Pos.compare
         Pos.compare_cont Pos.of_succ_nat Pos.succ app].
    change (leb infinity 0) with false. cbv iota zeta.
    rewrite draw_overflow by apply Hrand.
    cbn [List.length Nat.sub nth setAt app].
    change (nth 2 (words Fixture.vocabulary) ""%string) with "glory"%string.
    reflexivity. }
  split; [exact Hw|]. split; [exact Hrun|]. split.
  - rewrite Hrun. cbn [fst snd]. intros Hnd.
    inversion Hnd as [|? ? Hnotin _]; subst. apply Hnotin. left. reflexivity.
  - unfold Doubles.sample. rewrite Hrun. reflexivity.
Qed.

Lemma overflow_redraws_witness :
  Doubles.sampleRun Fixture.vocabulary DoublesFixture.machine 4 0.001
                    (promptUniqueOf "x") initial
  = (["x"; "glory"; "glory"; "glory"]%string, [2; 2; 2]%nat,
     {| draws := 3; calls := 0 |}).
Proof.
  destruct (overflow_redraws DoublesFixture.machine initial
              eq_refl eq_refl eq_refl (fun n => eq_refl)) as (_ & H & _).
  exact H.
Defined.

End DoubleFacts.

(* ================================================================== *)
(** ** Properties of the oracle: the local modes and the given length *)
(* ================================================================== *)

Module LocalFacts.
Import JS Oracle TokenFacts.

(** In a local mode [predict] is the local branch, with no call of itself. *)
Lemma predict_local (V : Vocabulary) (rt : Runtime) (prompt : string)
  (opts : Options) (st : State) :
  words V <> [] -> isLocal (modeOf opts) = true ->
  predict V rt prompt opts st
  = Some (predictLocal V rt (modeOf opts) (lengthOf opts) (temperatureOf opts)
                       (promptUniqueOf prompt) st).
Proof.
  intros Hw Hm. unfold predict, predictFuel.
  rewrite (RankedFacts.words_nonempty V Hw), Hm. reflexivity.
Qed.

(** The sampling loop only appends, at most one token a turn. *)
Lemma sampleLoop_appends (V : Vocabulary) (rt : Runtime) :
  forall fuel length toks drawn modWeights st,
  exists filler,
    fst (fst (sampleLoop V rt fuel length toks drawn modWeights st))
    = toks ++ filler
    /\ (List.length filler <= fuel)%nat.
Proof.
  induction fuel as [|f IH]; intros length toks drawn w st.
  - exists []. simpl. rewrite app_nil_r. auto.
  - rewrite SamplerFacts.sampleLoop_turn.
    destruct (Z.of_nat (List.length toks) <? length);
      [|exists []; simpl; rewrite app_nil_r; split; [reflexivity | lia]].
    destruct (Rle_dec _ _);
      [exists []; simpl; rewrite app_nil_r; split; [reflexivity | lia]|].
    cbv zeta.
    match goal with
    | |- context [sampleLoop V rt f length ?t ?d ?m ?s] =>
        destruct (IH length t d m s) as (filler & E & Hlen)
    end.
    rewrite E, <- app_assoc. eexists. split; [reflexivity|].
    simpl. lia.
Qed.

(** C10: in the ranked and in the sampled mode the tokens are all the
    prompt words followed by a filler, and the length bounds the filler
    only: when the prompt has more unique words than the length, the
    tokens are the prompt words, more than the length asked for. *)
Theorem prompt_words_exceed_length (V : Vocabulary) (rt : Runtime)
  (prompt : string) (opts : Options) (st : State) :
  words V <> [] -> isLocal (modeOf opts) = true ->
  exists res st' filler,
    predict V rt prompt opts st = Some (Return res, st')
    /\ tokens res = promptUniqueOf prompt ++ filler
    /\ Z.of_nat (List.length filler)
       <= Z.max 0 (lengthOf opts
                   - Z.of_nat (List.length (promptUniqueOf prompt)))
    /\ (lengthOf opts < Z.of_nat (List.length (promptUniqueOf prompt)) ->
        tokens res = promptUniqueOf prompt
        /\ lengthOf opts < Z.of_nat (List.length (tokens res)))
    /\ (forall n, opt_length opts = Some n ->
                  n < Z.of_nat (List.length (promptUniqueOf prompt)) ->
                  n < Z.of_nat (List.length (tokens res))).
Proof.
  intros Hw Hm. rewrite (predict_local V rt prompt opts st Hw Hm).
  set (pu := promptUniqueOf prompt).
  assert (Hstart : startTokens pu = pu)
    by (apply startTokens_prompt;
        [apply promptUnique_truthy | apply promptUnique_NoDup]).
  assert (Hgen : forall toks st' filler,
    predictLocal V rt (modeOf opts) (lengthOf opts) (temperatureOf opts) pu st
    = (Return (result toks), st') ->
    toks = pu ++ filler ->
    (List.length filler
     <= Z.to_nat (lengthOf opts - Z.of_nat (List.length pu)))%nat ->
    exists res st' filler,
      Some (predictLocal V rt (modeOf opts) (lengthOf opts)
                         (temperatureOf opts) pu st)
      = Some (Return res, st')
      /\ tokens res = pu ++ filler
      /\ Z.of_nat (List.length filler)
         <= Z.max 0 (lengthOf opts - Z.of_nat (List.length pu))
      /\ (lengthOf opts < Z.of_nat (List.length pu) ->
          tokens res = pu
          /\ lengthOf opts < Z.of_nat (List.length (tokens res)))
      /\ (forall n, opt_length opts = Some n ->
                    n < Z.of_nat (List.length pu) ->
                    n < Z.of_nat (List.length (tokens res)))).
  { intros toks st' filler E -> Hlen.
    exists (result (pu ++ filler)), st', filler. rewrite E. simpl.
    split; [reflexivity|]. split; [reflexivity|]. split; [lia|]. split.
    - intros Hshort. destruct filler; [|simpl in Hlen; lia].
      rewrite app_nil_r. split; [reflexivity | exact Hshort].
    - intros n Hn Hlt. rewrite length_app.
      pose proof (lengthOf_pos opts). lia. }
  unfold predictLocal in *.
  destruct (String.eqb (modeOf opts) "mostLikely").
  - eapply Hgen; [reflexivity | |].
    + rewrite Hstart, RankedFacts.fillRanked_unique. reflexivity.
    + rewrite length_firstn. lia.
  - unfold sampleRun in *. rewrite Hstart in *.
    destruct (sampleLoop_appends V rt
                (Z.to_nat (lengthOf opts - Z.of_nat (List.length pu)))
                (lengthOf opts) pu []
                (startWeights V rt (temperatureOf opts) pu) st)
      as (filler & E & Hlen).
    destruct (sampleLoop V rt _ _ pu [] _ st) as [[toks drawn] st'].
    simpl in E. subst toks.
    eapply Hgen; [reflexivity | reflexivity | exact Hlen].
Qed.

Lemma prompt_words_exceed_length_witness :
  exists res st' filler,
    predict Fixture.vocabulary Fixture.offline "tell of doom"
            (Fixture.options "sample" 2 1%R) initial
    = Some (Return res, st')
    /\ tokens res = promptUniqueOf "tell of doom" ++ filler
    /\ Z.of_nat (List.length filler)
       <= Z.max 0 (lengthOf (Fixture.options "sample" 2 1%R)
                   - Z.of_nat (List.length (promptUniqueOf "tell of doom")))
    /\ (lengthOf (Fixture.options "sample" 2 1%R)
        < Z.of_nat (List.length (promptUniqueOf "tell of doom")) ->
        tokens res = promptUniqueOf "tell of doom"
        /\ lengthOf (Fixture.options "sample" 2 1%R)
           < Z.of_nat (List.length (tokens res)))
    /\ (forall n, opt_length (Fixture.options "sample" 2 1%R) = Some n ->
                  n < Z.of_nat (List.length (promptUniqueOf "tell of doom")) ->
                  n < Z.of_nat (List.length (tokens res))).
Proof.
  apply prompt_words_exceed_length.
  - discriminate.
  - reflexivity.
Defined.

End LocalFacts.

(* ================================================================== *)
(** ** Properties of the oracle: the sampled mode *)
(* ================================================================== *)

Module SampledFacts.
Import JS Oracle.
Local Open Scope R_scope.

(** At the temperature 1 the example vocabulary keeps its counts as
    weights, and a first prompt word outside the vocabulary zeroes none. *)
Lemma example_weights (promptUnique : list string) :
  firstTruthy promptUnique = Some "tell"%string ->
  startWeights Fixture.vocabulary Fixture.offline 1 promptUnique
  = [20; 15; 12].
Proof.
  intros H. unfold startWeights, zeroSeed, reshape. rewrite H.
  change (indexOf (words Fixture.vocabulary) "tell") with (@None nat).
  cbv iota.
  replace (Rmax (/ 100000000) 1) with 1 by (rewrite Rmax_right; lra).
  replace (1 / 1) with 1 by lra.
  change (counts Fixture.vocabulary) with [20; 15; 12]%Z.
  unfold map. cbn [pow Fixture.offline].
  rewrite !Rpower_1 by lra. reflexivity.
Qed.

Lemma example_search :
  search 3 [0 + 20; 0 + 20 + 15; 0 + 20 + 15 + 12]
         (1 / 2 * (0 + 20 + 15 + 12)) 0 2 = 1%nat.
Proof.
  rewrite SamplerFacts.search_turn.
  change (0 <? 2)%nat with true. change ((0 + 2) / 2)%nat with 1%nat.
  cbn [nth].
  destruct (Rgt_dec (0 + 20 + 15) (1 / 2 * (0 + 20 + 15 + 12))) as [_|Hn];
    [|exfalso; apply Hn; lra].
  rewrite SamplerFacts.search_turn.
  change (0 <? 1)%nat with true. change ((0 + 1) / 2)%nat with 0%nat.
  cbn [nth].
  destruct (Rgt_dec (0 + 20) (1 / 2 * (0 + 20 + 15 + 12))) as [Hg|_]; [lra|].
  reflexivity.
Qed.

Lemma example_run :
  sampleRun Fixture.vocabulary Fixture.offline 4 1
            ["tell"; "of"; "doom"]%string initial
  = (["tell"; "of"; "doom"; "doom"]%string, [1%nat],
     {| draws := 1; calls := 0 |}).
Proof.
  unfold sampleRun.
  rewrite example_weights by reflexivity.
  change (startTokens ["tell"; "of"; "doom"]%string)
    with ["tell"; "of"; "doom"]%string.
  change (Z.to_nat (4 - Z.of_nat (List.length ["tell"; "of"; "doom"]%string)))
    with 1%nat.
  rewrite SamplerFacts.sampleLoop_turn.
  change (Z.of_nat (List.length ["tell"; "of"; "doom"]%string) <? 4)%Z
    with true.
  cbv iota. cbn [cumulativeFromArray cumulativeFrom fst snd].
  destruct (Rle_dec (0 + 20 + 15 + 12) 0) as [Hc|_]; [lra|].
  cbv zeta. unfold sampleIndexFromCum.
  cbn [fst List.length random Fixture.offline Nat.sub].
  rewrite example_search. reflexivity.
Qed.

(** C9: in the sampled mode a word can come out twice.  With the
    vocabulary fate:20, doom:15, glory:12, the seed [tell of doom], the
    length 4, the temperature 1 and the random value 1/2, the tokens are
    tell, of, doom, doom: only the weight of the first prompt word is
    zeroed (here none, as [tell] is no vocabulary word), so the prompt
    word [doom] keeps a positive weight and is drawn after having been
    placed. *)
Theorem sampled_output_repeats :
  exists (prompt : string) (length : Z) (rt : Runtime)
         (res : GenerationResult) (st' : State),
    (forall n, 0 <= random rt n < 1)
    /\ predict Fixture.vocabulary rt prompt
               (Fixture.options "sample" length 1) initial
       = Some (Return res, st')
    /\ tokens res = ["tell"; "of"; "doom"; "doom"]%string
    /\ ~ NoDup (tokens res)
    /\ In "doom"%string (promptUniqueOf prompt)
    /\ indexOf (words Fixture.vocabulary) "doom" = Some 1%nat
    /\ 0 < nth 1 (startWeights Fixture.vocabulary rt 1 (promptUniqueOf prompt))
               0.
Proof.
  exists "tell of doom"%string, 4%Z, Fixture.offline.
  eexists. eexists.
  split; [intros n; simpl; lra|].
  split.
  { rewrite LocalFacts.predict_local by (discriminate || reflexivity).
    unfold predictLocal.
    change (modeOf (Fixture.options "sample" 4 1)) with "sample"%string.
    change (String.eqb "sample" "mostLikely") with false. cbv iota.
    change (lengthOf (Fixture.options "sample" 4 1)) with 4%Z.
    change (temperatureOf (Fixture.options "sample" 4 1)) with 1.
    change (promptUniqueOf "tell of doom")
      with ["tell"; "of"; "doom"]%string.
    rewrite example_run. reflexivity. }
  cbn [tokens result].
  split; [reflexivity|].
  split.
  { intros H. inversion H as [|? ? _ H1]; subst.
    inversion H1 as [|? ? _ H2]; subst.
    inversion H2 as [|? ? H3 _]; subst. apply H3. left. reflexivity. }
  split; [vm_compute; auto|].
  split; [reflexivity|].
  rewrite example_weights by reflexivity. cbn [nth]. lra.
Qed.

End SampledFacts.

(* ================================================================== *)
(** ** Properties of the oracle: the delegated mode *)
(* ================================================================== *)

Module DelegatedFacts.
Import JS Oracle TokenFacts.

Lemma loaded_allowedSet (file : option string) :
  words (loadDictionary file) <> [] ->
  allowedSet (loadDictionary file)
  = Some (unique (words (loadDictionary file))).
Proof.
  destruct file as [raw|]; [|intros H; exfalso; apply H; reflexivity].
  unfold loadDictionary.
  set (v := fold_left loadLine (splitLines raw) emptyVocabulary).
  destruct (List.length (words v) =? 0)%nat eqn:E; [|reflexivity].
  apply Nat.eqb_eq in E. intros H. exfalso. apply H.
  destruct (words v); [reflexivity | discriminate].
Qed.

(** The membership set of a loaded vocabulary is the set of its words. *)
Lemma setHas_words (file : option string) (t : string) :
  words (loadDictionary file) <> [] ->
  setHas (allowedSet (loadDictionary file)) t = true
  <-> In t (words (loadDictionary file)).
Proof.
  intros H. rewrite (loaded_allowedSet file H). unfold setHas, unique.
  rewrite includes_In, uniqueFrom_In. simpl. tauto.
Qed.

(** The test of an attempt: some token, and every token a vocabulary
    word. *)
Lemma adheres_iff (file : option string) (toks : list string) :
  words (loadDictionary file) <> [] ->
  adheres (loadDictionary file) toks = true
  <-> toks <> [] /\ forall t, In t toks -> In t (words (loadDictionary file)).
Proof.
  intros H. unfold adheres.
  set (bad := filter _ toks).
  assert (Hbad : bad = [] <->
                 forall t, In t toks -> In t (words (loadDictionary file))).
  { unfold bad. split.
    - intros E t Ht.
      destruct (setHas (allowedSet (loadDictionary file)) t) eqn:Hs.
      + apply (setHas_words file t H). exact Hs.
      + assert (Hin : In t (filter
                  (fun t => negb (setHas (allowedSet (loadDictionary file)) t))
                  toks))
          by (apply filter_In; rewrite Hs; auto).
        rewrite E in Hin. destruct Hin.
    - intros Hall.
      destruct (filter _ toks) as [|t rest] eqn:E; [reflexivity|].
      assert (Hin : In t (filter
                  (fun t => negb (setHas (allowedSet (loadDictionary file)) t))
                  toks))
        by (rewrite E; left; reflexivity).
      apply filter_In in Hin as [Hin Hneg].
      apply Hall, (setHas_words file t H) in Hin. rewrite Hin in Hneg.
      discriminate. }
  rewrite andb_true_iff, Nat.eqb_eq, Nat.ltb_lt, <- Hbad.
  split.
  - intros [Hb Hn]. split.
    + intros ->. simpl in Hn. lia.
    + destruct bad; [reflexivity | discriminate].
  - intros [Hn Hb]. rewrite Hb. split; [reflexivity|].
    destruct toks; [congruence | simpl; lia].
Qed.

(** The sampling loop does not read the number of service calls and
    leaves it as it is. *)
Lemma sampleLoop_calls (V : Vocabulary) (rt : Runtime) :
  forall fuel length toks drawn modWeights d,
  exists toks' drawn' d',
  forall c,
    sampleLoop V rt fuel length toks drawn modWeights
               {| draws := d; calls := c |}
    = (toks', drawn', {| draws := d'; calls := c |}).
Proof.
  induction fuel as [|f IH]; intros length toks drawn w d.
  - exists toks, drawn, d. reflexivity.
  - destruct (Z.of_nat (List.length toks) <? length) eqn:Hlen.
    + destruct (Rle_dec (snd (cumulativeFromArray w)) 0) as [Hz|Hp].
      * exists toks, drawn, d. intros c.
        rewrite SamplerFacts.sampleLoop_turn, Hlen.
        destruct (Rle_dec _ _); [reflexivity | contradiction].
      * set (idx := fst (sampleIndexFromCum rt (fst (cumulativeFromArray w))
                           (snd (cumulativeFromArray w))
                           {| draws := d; calls := 0 |})).
        destruct (IH length (toks ++ [nth idx (words V) ""]) (drawn ++ [idx])
                     (setAt idx 0%R w) (S d)) as (toks' & drawn' & d' & E).
        exists toks', drawn', d'. intros c.
        rewrite SamplerFacts.sampleLoop_turn, Hlen.
        destruct (Rle_dec _ _); [contradiction|]. apply E.
    + exists toks, drawn, d. intros c.
      rewrite SamplerFacts.sampleLoop_turn, Hlen. reflexivity.
Qed.

(** The sampled mode returns a result, the same whatever the number of
    service calls made before, and leaves that number as it is. *)
Lemma predictLocal_sample (V : Vocabulary) (rt : Runtime) (length : Z)
  (temperature : R) (promptUnique : list string) (d : nat) :
  exists toks d',
  forall c,
    predictLocal V rt "sample" length temperature promptUnique
                 {| draws := d; calls := c |}
    = (Return (result toks), {| draws := d'; calls := c |}).
Proof.
  unfold predictLocal, sampleRun. simpl String.eqb. cbv iota.
  destruct (sampleLoop_calls V rt
              (Z.to_nat (length
                         - Z.of_nat (List.length (startTokens promptUnique))))
              length (startTokens promptUnique) []
              (startWeights V rt temperature promptUnique) d)
    as (toks & drawn & d' & E).
  exists toks, d'. intros c. rewrite E. reflexivity.
Qed.

(** The call [predict(prompt, { length, mode: "sample", temperature })]
    made by the delegated mode is the sampled mode with that length. *)
Lemma fallback_call (V : Vocabulary) (rt : Runtime) (prompt : string)
  (length : Z) (temperature : R) (st : State) :
  words V <> [] -> 1 <= length ->
  predictFuel V rt 1 prompt (fallbackOpts length temperature) st
  = Some (predictLocal V rt "sample" length temperature
                       (promptUniqueOf prompt) st).
Proof.
  intros Hw Hl. unfold predictFuel.
  rewrite (RankedFacts.words_nonempty V Hw).
  change (modeOf (fallbackOpts length temperature)) with "sample".
  change (isLocal "sample") with true. cbv iota.
  change (temperatureOf (fallbackOpts length temperature)) with temperature.
  replace (lengthOf (fallbackOpts length temperature)) with length;
    [reflexivity|].
  unfold lengthOf, fallbackOpts. cbn [opt_length].
  destruct (Z.eqb_spec length 0); lia.
Qed.

Section Attempts.
Variable V : Vocabulary.
Variable rt : Runtime.
Variable prompt : string.
Variable length : Z.
Variable temperature : R.
Variable request : GenerateRequest.
Hypothesis vocabulary_loaded : words V <> [].
Hypothesis length_positive : 1 <= length.

Local Abbreviation attempts :=
  (attemptLoop V rt (predictFuel V rt 1)).
Local Abbreviation sampled :=
  (predictLocal V rt "sample" length temperature (promptUniqueOf prompt)).
Local Abbreviation after st k :=
  {| draws := draws st; calls := calls st + k |}.

(** The replies to the calls [calls st], ..., [calls st + k - 1] all break
    the constraint. *)
Local Abbreviation violations st k :=
  (forall j, (j < k)%nat ->
             exists rj, generate rt (calls st + j) request = Responded rj
                        /\ adheres V (responseTokens rj) = false).

Lemma attemptLoop_turn (turns attempt : nat) (st : State) :
  attempts (S turns) attempt request prompt length temperature st
  = if (attempt <=? maxAttempts)%nat then
      match generate rt (calls st) request with
      | Failed message =>
          onError (predictFuel V rt 1) prompt length temperature message
                  (after st 1)
      | Responded response =>
          if adheres V (responseTokens response)
          then Some (Return (result (responseTokens response)), after st 1)
          else if (attempt <? maxAttempts)%nat then
            attempts turns (S attempt) request prompt length temperature
                     (after st 1)
          else
            match predictFuel V rt 1 prompt (fallbackOpts length temperature)
                              (after st 1) with
            | Some (Return fallback, st2) =>
                Some (Return (setWarning fallback constraintWarning), st2)
            | Some (ReturnUndefined, st2) =>
                onError (predictFuel V rt 1) prompt length temperature
                        TYPE_ERROR st2
            | Some (Throw message, st2) =>
                onError (predictFuel V rt 1) prompt length temperature
                        message st2
            | None => None
            end
      end
    else Some (ReturnUndefined, st).
Proof.
  cbn [attemptLoop]. rewrite Nat.add_1_r. reflexivity.
Qed.

(** The loop of attempts, from any of its turns on: either an attempt is
    accepted after violations only, or the loop falls back on the sampled
    mode, at the first error or after the last violation. *)
Lemma attemptLoop_cases : forall turns attempt st,
  (attempt + turns = 4)%nat -> (1 <= turns)%nat ->
  (exists k response,
      (k < turns)%nat
      /\ violations st k
      /\ generate rt (calls st + k) request = Responded response
      /\ adheres V (responseTokens response) = true
      /\ attempts turns attempt request prompt length temperature st
         = Some (Return (result (responseTokens response)), after st (S k)))
  \/ (exists k w toks st',
      (k < turns)%nat
      /\ violations st k
      /\ ((exists message,
              generate rt (calls st + k) request = Failed message
              /\ w = "LLM error: " +++ message)
          \/ (S k = turns /\ w = constraintWarning
              /\ exists rk,
                   generate rt (calls st + k) request = Responded rk
                   /\ adheres V (responseTokens rk) = false))
      /\ sampled (after st (S k)) = (Return (result toks), st')
      /\ attempts turns attempt request prompt length temperature st
         = Some (Return (setWarning (result toks) w), st')).
Proof.
  induction turns as [|more IH]; intros attempt st Hsum Hturns; [lia|].
  rewrite attemptLoop_turn.
  assert (Hle : (attempt <=? maxAttempts)%nat = true)
    by (apply Nat.leb_le; unfold maxAttempts; lia).
  rewrite Hle.
  destruct (predictLocal_sample V rt length temperature
              (promptUniqueOf prompt) (draws st)) as (toks & d' & Hs).
  assert (Hnone : violations st 0%nat) by (intros j Hj; lia).
  destruct (generate rt (calls st) request) as [response|message] eqn:Hgen.
  - destruct (adheres V (responseTokens response)) eqn:Had.
    + left. exists 0%nat, response. rewrite Nat.add_0_r.
      repeat split; auto; lia.
    + destruct (Nat.ltb_spec attempt maxAttempts) as [Hlt|Hge].
      * assert (Hshift : forall j, (calls (after st 1) + j
                                    = calls st + S j)%nat)
          by (intros j; simpl; lia).
        assert (Hviol : forall k, violations (after st 1) k ->
                                  violations st (S k)).
        { intros k Hk [|j] Hj.
          - exists response. rewrite Nat.add_0_r. auto.
          - destruct (Hk j ltac:(lia)) as (rj & Hrj & Haj).
            exists rj. rewrite <- Hshift. auto. }
        assert (Hafter : forall k, after (after st 1) k = after st (S k))
          by (intros k; simpl; f_equal; lia).
        unfold maxAttempts in Hlt.
        destruct (IH (S attempt) (after st 1) ltac:(lia) ltac:(lia))
          as [(k & rk & Hk & Hv & Hg & Ha & E)
             |(k & w & toks' & st' & Hk & Hv & Hw & Hsam & E)].
        -- left. exists (S k), rk. rewrite Hshift in Hg. rewrite Hafter in E.
           split; [lia|]. split; [apply Hviol, Hv|]. split; [exact Hg|].
           split; [exact Ha | exact E].
        -- right. exists (S k), w, toks', st'.
           rewrite Hshift in Hw. rewrite Hafter in Hsam.
           split; [lia|]. split; [apply Hviol, Hv|]. split; [|auto].
           destruct Hw as [Hw|(Hlast & Hw & Hr)]; [left; exact Hw|].
           right. split; [lia | auto].
      * right. exists 0%nat, constraintWarning, toks,
          {| draws := d'; calls := calls st + 1 |}.
        rewrite fallback_call by assumption. rewrite (Hs (calls st + 1)%nat).
        unfold maxAttempts in Hge.
        split; [lia|]. split; [exact Hnone|]. split; [|auto].
        right. split; [lia|]. split; [reflexivity|].
        exists response. rewrite Nat.add_0_r. auto.
  - right. exists 0%nat, ("LLM error: " +++ message), toks,
      {| draws := d'; calls := calls st + 1 |}.
    unfold onError. rewrite fallback_call by assumption.
    rewrite (Hs (calls st + 1)%nat).
    split; [lia|]. split; [exact Hnone|]. split; [|auto].
    left. exists message. rewrite Nat.add_0_r. auto.
Qed.
End Attempts.

Lemma predict_sample_mode (V : Vocabulary) (rt : Runtime) (prompt : string)
  (opts : Options) (st : State) :
  words V <> [] ->
  predict V rt prompt (Spec.withMode opts "sample") st
  = Some (predictLocal V rt "sample" (lengthOf opts) (temperatureOf opts)
                       (promptUniqueOf prompt) st).
Proof.
  intros Hw. rewrite LocalFacts.predict_local by (assumption || reflexivity).
  reflexivity.
Qed.

(** The loop of attempts calls [predict] for the fallback only. *)
Lemma attemptLoop_self (V : Vocabulary) (rt : Runtime)
  (self self' : string -> Options -> State -> option (Completion * State))
  (request : GenerateRequest) (prompt : string) (length : Z)
  (temperature : R) :
  (forall s, self prompt (fallbackOpts length temperature) s
             = self' prompt (fallbackOpts length temperature) s) ->
  forall turns attempt st,
    attemptLoop V rt self turns attempt request prompt length temperature st
    = attemptLoop V rt self' turns attempt request prompt length temperature
                  st.
Proof.
  intros Hself. induction turns as [|more IH]; intros attempt st;
    [reflexivity|].
  cbn [attemptLoop]. unfold onError. rewrite IH, !Hself.
  destruct (attempt <=? maxAttempts)%nat; [|reflexivity].
  destruct (generate rt (calls st) request); [|reflexivity].
  destruct (adheres V (responseTokens response)); [reflexivity|].
  destruct (attempt <? maxAttempts)%nat; [reflexivity|].
  destruct (self' prompt (fallbackOpts length temperature) _)
    as [[[res| |message] st2]|]; try reflexivity; rewrite Hself; reflexivity.
Qed.

(** The depth of the calls of [predict] by itself is 2: a greater bound
    gives the same outcome. *)
Lemma predictFuel_enough (V : Vocabulary) (rt : Runtime) (fuel : nat)
  (prompt : string) (opts : Options) (st : State) :
  predictFuel V rt (S (S fuel)) prompt opts st = predict V rt prompt opts st.
Proof.
  unfold predict.
  change (predictFuel V rt (S (S fuel)) prompt opts st)
    with (if (List.length (words V) =? 0)%nat
          then Some (Throw EMPTY_MESSAGE, st)
          else if isLocal (modeOf opts)
               then Some (predictLocal V rt (modeOf opts) (lengthOf opts)
                            (temperatureOf opts) (promptUniqueOf prompt) st)
               else attemptLoop V rt (predictFuel V rt (S fuel)) maxAttempts 1
                      (llmRequest V prompt opts) prompt (lengthOf opts)
                      (temperatureOf opts) st).
  change (predictFuel V rt 2 prompt opts st)
    with (if (List.length (words V) =? 0)%nat
          then Some (Throw EMPTY_MESSAGE, st)
          else if isLocal (modeOf opts)
               then Some (predictLocal V rt (modeOf opts) (lengthOf opts)
                            (temperatureOf opts) (promptUniqueOf prompt) st)
               else attemptLoop V rt (predictFuel V rt 1) maxAttempts 1
                      (llmRequest V prompt opts) prompt (lengthOf opts)
                      (temperatureOf opts) st).
  destruct (List.length (words V) =? 0)%nat; [reflexivity|].
  destruct (isLocal (modeOf opts)); [reflexivity|].
  apply attemptLoop_self. intros s. reflexivity.
Qed.

(** The delegated mode, whole: [predict] returns either the tokens of
    the first reply that passes the test, after replies that fail it, or
    the result of the sampled mode with a warning, at the first error of
    the service or after the third failed reply. *)
Lemma predict_delegated (V : Vocabulary) (rt : Runtime) (prompt : string)
  (opts : Options) (st : State) :
  words V <> [] -> isLocal (modeOf opts) = false ->
  exists toks d',
    (forall c,
        predict V rt prompt (Spec.withMode opts "sample")
                {| draws := draws st; calls := c |}
        = Some (Return (result toks), {| draws := d'; calls := c |}))
    /\ ((exists k response,
           (k < 3)%nat
           /\ (forall j, (j < k)%nat ->
                 exists rj,
                   generate rt (calls st + j) (llmRequest V prompt opts)
                   = Responded rj
                   /\ adheres V (responseTokens rj) = false)
           /\ generate rt (calls st + k) (llmRequest V prompt opts)
              = Responded response
           /\ adheres V (responseTokens response) = true
           /\ predict V rt prompt opts st
              = Some (Return (result (responseTokens response)),
                      {| draws := draws st; calls := calls st + S k |}))
        \/ (exists k w,
           (k < 3)%nat
           /\ (forall j, (j < k)%nat ->
                 exists rj,
                   generate rt (calls st + j) (llmRequest V prompt opts)
                   = Responded rj
                   /\ adheres V (responseTokens rj) = false)
           /\ ((exists message,
                   generate rt (calls st + k) (llmRequest V prompt opts)
                   = Failed message
                   /\ w = "LLM error: " +++ message)
               \/ (S k = 3%nat /\ w = constraintWarning
                   /\ exists rk,
                        generate rt (calls st + k) (llmRequest V prompt opts)
                        = Responded rk
                        /\ adheres V (responseTokens rk) = false))
           /\ predict V rt prompt opts st
              = Some (Return (setWarning (result toks) w),
                      {| draws := d'; calls := calls st + S k |}))).
Proof.
  intros Hw Hm.
  destruct (predictLocal_sample V rt (lengthOf opts) (temperatureOf opts)
              (promptUniqueOf prompt) (draws st)) as (toks & d' & Hs).
  exists toks, d'. split.
  { intros c. rewrite predict_sample_mode by exact Hw. rewrite Hs.
    reflexivity. }
  assert (Hp : predict V rt prompt opts st
               = attemptLoop V rt (predictFuel V rt 1) maxAttempts 1
                             (llmRequest V prompt opts) prompt (lengthOf opts)
                             (temperatureOf opts) st).
  { unfold predict. cbn [predictFuel].
    rewrite (RankedFacts.words_nonempty V Hw), Hm. reflexivity. }
  rewrite Hp.
  destruct (attemptLoop_cases V rt prompt (lengthOf opts) (temperatureOf opts)
              (llmRequest V prompt opts) Hw (lengthOf_pos opts)
              3%nat 1%nat st eq_refl ltac:(lia))
    as [(k & r & Hk & Hv & Hg & Ha & E)
       |(k & w & toks' & st' & Hk & Hv & Hcause & Hsam & E)].
  - left. exists k, r. auto.
  - right. exists k, w. rewrite Hs in Hsam.
    assert (Hres : result toks' = result toks)
      by (pose proof (f_equal fst Hsam) as H; cbn [fst] in H; congruence).
    assert (Hst : st' = {| draws := d'; calls := calls st + S k |})
      by (pose proof (f_equal snd Hsam) as H; cbn [snd] in H; congruence).
    rewrite Hres, Hst in E. auto 6.
Qed.

(** A reply with a token outside the vocabulary fails the test. *)
Lemma outside_token (file : option string) (toks : list string) (t : string) :
  words (loadDictionary file) <> [] ->
  In t toks -> ~ In t (words (loadDictionary file)) ->
  adheres (loadDictionary file) toks = false.
Proof.
  intros Hw Ht Hout.
  destruct (adheres (loadDictionary file) toks) eqn:E; [|reflexivity].
  apply (adheres_iff file toks Hw) in E as [_ Hall].
  exfalso. apply Hout, Hall, Ht.
Qed.

(** C1: in the delegated mode, when the reply of each of the three
    attempts has a token outside the vocabulary, [predict] calls the
    service three times and returns the result of the sampled mode for
    the same seed phrase, length and temperature with the warning of the
    broken constraint, which is not empty; when the service fails at the
    first call, [predict] returns that result at once, with the warning
    of the error. *)
Theorem delegated_fallback (file : option string) (rt : Runtime)
  (prompt : string) (opts : Options) (st : State) :
  words (loadDictionary file) <> [] -> isLocal (modeOf opts) = false ->
  exists res d',
    (forall c,
        predict (loadDictionary file) rt prompt (Spec.withMode opts "sample")
                {| draws := draws st; calls := c |}
        = Some (Return res, {| draws := d'; calls := c |}))
    /\ warning res = None
    /\ ((forall k, (k < 3)%nat ->
           exists response t,
             generate rt (calls st + k)
                      (llmRequest (loadDictionary file) prompt opts)
             = Responded response
             /\ In t (responseTokens response)
             /\ ~ In t (words (loadDictionary file))) ->
        predict (loadDictionary file) rt prompt opts st
        = Some (Return (setWarning res constraintWarning),
                {| draws := d'; calls := calls st + 3 |})
        /\ constraintWarning <> "")
    /\ (forall k message,
          (k < 3)%nat ->
          (forall j, (j < k)%nat ->
             exists response t,
               generate rt (calls st + j)
                        (llmRequest (loadDictionary file) prompt opts)
               = Responded response
               /\ In t (responseTokens response)
               /\ ~ In t (words (loadDictionary file))) ->
          generate rt (calls st + k)
                   (llmRequest (loadDictionary file) prompt opts)
          = Failed message ->
          predict (loadDictionary file) rt prompt opts st
          = Some (Return (setWarning res ("LLM error: " +++ message)),
                  {| draws := d'; calls := calls st + S k |})
          /\ "LLM error: " +++ message <> "").
Proof.
  intros Hw Hm.
  destruct (predict_delegated (loadDictionary file) rt prompt opts st Hw Hm)
    as (toks & d' & Hs & Hcases).
  exists (result toks), d'.
  split; [exact Hs|]. split; [reflexivity|]. split.
  - intros Hall. split; [|discriminate].
    destruct Hcases as [(k & r & Hk & _ & Hg & Ha & _)
                       |(k & w & Hk & _ & Hcause & E)].
    + destruct (Hall k Hk) as (r' & t & Hg' & Ht & Hout).
      rewrite Hg in Hg'. injection Hg' as <-.
      rewrite (outside_token file _ t Hw Ht Hout) in Ha. discriminate.
    + destruct Hcause as [(message & Hg & _)|(Hlast & -> & _)].
      * destruct (Hall k Hk) as (r' & t & Hg' & _). congruence.
      * injection Hlast as ->. exact E.
  - intros k message Hk Hbefore Hfail. split; [|discriminate].
    assert (Hsame : forall k',
               (k' < 3)%nat ->
               (forall j, (j < k')%nat ->
                  exists rj,
                    generate rt (calls st + j)
                             (llmRequest (loadDictionary file) prompt opts)
                    = Responded rj
                    /\ adheres (loadDictionary file) (responseTokens rj)
                       = false) ->
               (forall r,
                   generate rt (calls st + k')
                            (llmRequest (loadDictionary file) prompt opts)
                   = Responded r ->
                   adheres (loadDictionary file) (responseTokens r) = true
                   \/ S k' = 3%nat) ->
               k' = k).
    { intros k' Hk' Hv Hat.
      destruct (Nat.lt_trichotomy k' k) as [Hlt|[Heq|Hgt]]; [|exact Heq|].
      - destruct (Hbefore k' Hlt) as (r & t & Hr & Ht & Hout).
        destruct (Hat r Hr) as [Ha|Hlast]; [|lia].
        rewrite (outside_token file _ t Hw Ht Hout) in Ha. discriminate.
      - destruct (Hv k Hgt) as (rj & Hrj & _). congruence. }
    destruct Hcases as [(k' & r & Hk' & Hv & Hg & Ha & _)
                       |(k' & w & Hk' & Hv & Hcause & E)].
    + assert (k' = k).
      { apply Hsame; auto. intros r' Hr'. left. congruence. }
      subst k'. congruence.
    + destruct Hcause as [(message' & Hg & ->)|(Hlast & _ & rk & Hrk & _)].
      * assert (k' = k).
        { apply Hsame; auto. intros r' Hr'. congruence. }
        subst k'. rewrite Hfail in Hg. injection Hg as <-. exact E.
      * assert (k' = k).
        { apply Hsame; auto. }
        subst k'. congruence.
Qed.

Lemma delegated_fallback_witness :
  (exists res st',
      predict (loadDictionary (Some Fixture.dictionaryFile)) Fixture.offline
              "tell of doom" (Fixture.options "llm" 4 1%R) initial
      = Some (Return res, st')
      /\ calls st' = 1%nat
      /\ warning res = Some "LLM error: connect ECONNREFUSED")
  /\ (exists res st',
        predict (loadDictionary (Some Fixture.dictionaryFile)) Fixture.stubborn
                "tell of doom" (Fixture.options "llm" 4 1%R) initial
        = Some (Return res, st')
        /\ calls st' = 3%nat
        /\ warning res = Some constraintWarning).
Proof.
  assert (Hw : words (loadDictionary (Some Fixture.dictionaryFile)) <> [])
    by (vm_compute; discriminate).
  split.
  - destruct (delegated_fallback (Some Fixture.dictionaryFile)
                Fixture.offline "tell of doom" (Fixture.options "llm" 4 1%R)
                initial Hw eq_refl)
      as (res & d' & _ & _ & _ & Herr).
    destruct (Herr 0%nat "connect ECONNREFUSED" ltac:(lia)
                   ltac:(intros j Hj; lia) eq_refl) as [E _].
    eexists. eexists. split; [exact E|]. split; reflexivity.
  - destruct (delegated_fallback (Some Fixture.dictionaryFile)
                Fixture.stubborn "tell of doom" (Fixture.options "llm" 4 1%R)
                initial Hw eq_refl)
      as (res & d' & _ & _ & Hviol & _).
    destruct Hviol as [E _].
    { intros k Hk. exists (Some "Zeus rises"), "zeus".
      split; [reflexivity|]. split; [vm_compute; auto|].
      vm_compute. intuition discriminate. }
    eexists. eexists. split; [exact E|]. split; reflexivity.
Defined.

(** The reply of the attempt [k], after replies that all failed the
    test, is returned as it is exactly when it passes the test. *)
Lemma accepted_at (V : Vocabulary) (rt : Runtime) (prompt : string)
  (opts : Options) (st : State) (k : nat) (response : option string) :
  words V <> [] -> isLocal (modeOf opts) = false -> (k < 3)%nat ->
  (forall j, (j < k)%nat ->
     exists rj,
       generate rt (calls st + j) (llmRequest V prompt opts) = Responded rj
       /\ adheres V (responseTokens rj) = false) ->
  generate rt (calls st + k) (llmRequest V prompt opts) = Responded response ->
  (predict V rt prompt opts st
   = Some (Return (result (responseTokens response)),
           {| draws := draws st; calls := calls st + S k |})
   <-> adheres V (responseTokens response) = true).
Proof.
  intros Hw Hm Hk Hbefore Hgen.
  destruct (predict_delegated V rt prompt opts st Hw Hm)
    as (toks & d' & Hs & Hcases).
  split.
  - intros E.
    destruct Hcases as [(k' & r & Hk' & Hv & Hg & Ha & E')
                       |(k' & w & Hk' & Hv & Hcause & E')];
      rewrite E in E'; [|discriminate].
    assert (k' = k) by (injection E' as _ Hc; lia). subst k'.
    rewrite Hgen in Hg. injection Hg as <-. exact Ha.
  - intros Ha.
    assert (Hpass : forall j rj,
               generate rt (calls st + j) (llmRequest V prompt opts)
               = Responded rj ->
               adheres V (responseTokens rj) = false -> j <> k).
    { intros j rj Hg Hf ->. rewrite Hgen in Hg. injection Hg as <-.
      congruence. }
    destruct Hcases as [(k' & r & Hk' & Hv & Hg & Ha' & E')
                       |(k' & w & Hk' & Hv & Hcause & E')].
    + destruct (Nat.lt_trichotomy k' k) as [Hlt|[->|Hgt]].
      * destruct (Hbefore k' Hlt) as (rj & Hrj & Hfj).
        rewrite Hg in Hrj. injection Hrj as <-. congruence.
      * rewrite Hgen in Hg. injection Hg as <-. exact E'.
      * destruct (Hv k Hgt) as (rj & Hrj & Hfj).
        destruct (Hpass k rj Hrj Hfj eq_refl).
    + exfalso. destruct (Nat.lt_trichotomy k' k) as [Hlt|[->|Hgt]].
      * destruct (Hbefore k' Hlt) as (rj & Hrj & Hfj).
        destruct Hcause as [(message & Hg & _)|(Hlast & _)];
          [congruence | lia].
      * destruct Hcause as [(message & Hg & _)|(_ & _ & rk & Hg & Hf)];
          [congruence|].
        destruct (Hpass k rk Hg Hf eq_refl).
      * destruct (Hv k Hgt) as (rj & Hrj & Hfj).
        destruct (Hpass k rj Hrj Hfj eq_refl).
Qed.

(** The test and the first reply. *)
Lemma first_reply (file : option string) (rt : Runtime)
  (prompt : string) (opts : Options) (st : State) :
  words (loadDictionary file) <> [] -> isLocal (modeOf opts) = false ->
  (forall text, responseTokens (Some text) = tokenize text)
  /\ (forall toks,
      adheres (loadDictionary file) toks = true
      <-> toks <> []
          /\ forall t, In t toks -> In t (words (loadDictionary file)))
  /\ (forall response,
        generate rt (calls st) (llmRequest (loadDictionary file) prompt opts)
        = Responded response ->
        (predict (loadDictionary file) rt prompt opts st
         = Some (Return (result (responseTokens response)),
                 {| draws := draws st; calls := calls st + 1 |})
         <-> responseTokens response <> []
             /\ forall t, In t (responseTokens response) ->
                          In t (words (loadDictionary file)))
        /\ (forall w,
              In w (promptUniqueOf prompt) ->
              ~ In w (words (loadDictionary file)) ->
              In w (responseTokens response) ->
              exists res st',
                predict (loadDictionary file) rt prompt opts st
                = Some (Return res, st')
                /\ (calls st + 2 <= calls st')%nat))
  /\ (exists res st',
        predict (loadDictionary file) rt prompt opts st
        = Some (Return res, st')
        /\ (warning res = None ->
            tokens res <> []
            /\ (forall t, In t (tokens res) ->
                          In t (words (loadDictionary file)))
            /\ exists k response,
                 (k < 3)%nat
                 /\ generate rt (calls st + k)
                             (llmRequest (loadDictionary file) prompt opts)
                    = Responded response
                 /\ tokens res = responseTokens response)).
Proof.
  intros Hw Hm.
  destruct (predict_delegated (loadDictionary file) rt prompt opts st Hw Hm)
    as (toks & d' & Hs & Hcases).
  split; [apply TokenizerFacts.responseTokens_tokenize|].
  split; [intros toks0; apply adheres_iff; exact Hw|].
  split.
  - intros response Hgen.
    assert (Hzero : forall k,
               (forall j, (j < k)%nat ->
                  exists rj,
                    generate rt (calls st + j)
                             (llmRequest (loadDictionary file) prompt opts)
                    = Responded rj
                    /\ adheres (loadDictionary file) (responseTokens rj)
                       = false) ->
               adheres (loadDictionary file) (responseTokens response) = true ->
               k = 0%nat).
    { intros [|k] Hv Ha; [reflexivity|].
      destruct (Hv 0%nat ltac:(lia)) as (rj & Hrj & Haj).
      rewrite Nat.add_0_r in Hrj. congruence. }
    split.
    + rewrite <- (adheres_iff file _ Hw). split.
      * intros E.
        destruct Hcases as [(k & r & Hk & Hv & Hg & Ha & E')
                           |(k & w & Hk & Hv & Hcause & E')];
          rewrite E in E'.
        -- assert (k = 0%nat)
             by (injection E' as _ Hc; lia).
           subst k. rewrite Nat.add_0_r in Hg. congruence.
        -- discriminate.
      * intros Ha.
        destruct Hcases as [(k & r & Hk & Hv & Hg & Ha' & E')
                           |(k & w & Hk & Hv & Hcause & E')].
        -- rewrite (Hzero k Hv Ha) in *. rewrite Nat.add_0_r in Hg.
           rewrite Hgen in Hg. injection Hg as <-. exact E'.
        -- rewrite (Hzero k Hv Ha) in *. rewrite Nat.add_0_r in Hcause.
           destruct Hcause as [(message & Hg & _)|(Hlast & _)];
             [congruence | discriminate].
    + intros w _ Hout Hecho.
      pose proof (outside_token file _ w Hw Hecho Hout) as Hbad.
      destruct Hcases as [(k & r & Hk & Hv & Hg & Ha & E)
                         |(k & w' & Hk & Hv & Hcause & E)].
      * eexists. eexists. split; [exact E|]. simpl.
        destruct k as [|k]; [|lia].
        rewrite Nat.add_0_r in Hg. congruence.
      * eexists. eexists. split; [exact E|]. simpl.
        destruct k as [|k]; [|lia].
        rewrite Nat.add_0_r in Hcause.
        destruct Hcause as [(message & Hg & _)|(Hlast & _)];
          [congruence | discriminate].
  - destruct Hcases as [(k & r & Hk & Hv & Hg & Ha & E)
                       |(k & w & Hk & Hv & Hcause & E)].
    + eexists. eexists. split; [exact E|]. intros _. cbn [tokens result].
      apply (adheres_iff file _ Hw) in Ha as [Hne Hall].
      split; [exact Hne|]. split; [exact Hall|].
      exists k, r. auto.
    + eexists. eexists. split; [exact E|]. intros Hnone. discriminate.
Qed.

(** C3: in the delegated mode the reply of an attempt is accepted if
    and only if its tokens (those of its text, which cleaning leaves as
    they are) are not none and are all words of the base
    vocabulary (the loaded words, not these and the prompt words): the
    first reply is returned as it is exactly in that case, and so is the
    second or the third after replies that failed the test; a prompt word
    outside the vocabulary that the reply echoes makes [predict] call the
    service again; and a result returned without a warning is a reply all
    of whose tokens are vocabulary words.  [predict] always returns a
    result.  For the vocabulary fate:20, doom:15, glory:12 the reply
    [ Fate, DOOM glory! ] is accepted at the first call, with the tokens
    fate, doom, glory. *)
Theorem delegated_acceptance (file : option string) (rt : Runtime)
  (prompt : string) (opts : Options) (st : State) :
  words (loadDictionary file) <> [] -> isLocal (modeOf opts) = false ->
  (forall text, responseTokens (Some text) = tokenize text)
  /\ (forall toks,
      adheres (loadDictionary file) toks = true
      <-> toks <> []
          /\ forall t, In t toks -> In t (words (loadDictionary file)))
  /\ (forall response,
        generate rt (calls st) (llmRequest (loadDictionary file) prompt opts)
        = Responded response ->
        (predict (loadDictionary file) rt prompt opts st
         = Some (Return (result (responseTokens response)),
                 {| draws := draws st; calls := calls st + 1 |})
         <-> responseTokens response <> []
             /\ forall t, In t (responseTokens response) ->
                          In t (words (loadDictionary file)))
        /\ (forall w,
              In w (promptUniqueOf prompt) ->
              ~ In w (words (loadDictionary file)) ->
              In w (responseTokens response) ->
              exists res st',
                predict (loadDictionary file) rt prompt opts st
                = Some (Return res, st')
                /\ (calls st + 2 <= calls st')%nat))
  /\ (exists res st',
        predict (loadDictionary file) rt prompt opts st
        = Some (Return res, st')
        /\ (warning res = None ->
            tokens res <> []
            /\ (forall t, In t (tokens res) ->
                          In t (words (loadDictionary file)))
            /\ exists k response,
                 (k < 3)%nat
                 /\ generate rt (calls st + k)
                             (llmRequest (loadDictionary file) prompt opts)
                    = Responded response
                 /\ tokens res = responseTokens response))
  /\ (forall k response,
        (k < 3)%nat ->
        (forall j, (j < k)%nat ->
           exists rj,
             generate rt (calls st + j)
                      (llmRequest (loadDictionary file) prompt opts)
             = Responded rj
             /\ ~ (responseTokens rj <> []
                   /\ forall t, In t (responseTokens rj) ->
                                In t (words (loadDictionary file)))) ->
        generate rt (calls st + k)
                 (llmRequest (loadDictionary file) prompt opts)
        = Responded response ->
        (predict (loadDictionary file) rt prompt opts st
         = Some (Return (result (responseTokens response)),
                 {| draws := draws st; calls := calls st + S k |})
         <-> responseTokens response <> []
             /\ forall t, In t (responseTokens response) ->
                          In t (words (loadDictionary file))))
  /\ predict (loadDictionary (Some Fixture.dictionaryFile)) Fixture.obliging
             prompt opts st
     = Some (Return {| text := "Fate doom glory.";
                       tokens := ["fate"; "doom"; "glory"];
                       warning := None |},
             {| draws := draws st; calls := calls st + 1 |}).
Proof.
  intros Hw Hm.
  destruct (first_reply file rt prompt opts st Hw Hm) as (H1 & H2 & H3 & H4).
  split; [exact H1|]. split; [exact H2|]. split; [exact H3|].
  split; [exact H4|]. split.
  - intros k response Hk Hbefore Hgen.
    rewrite <- (adheres_iff file _ Hw).
    apply accepted_at; try assumption.
    intros j Hj. destruct (Hbefore j Hj) as (rj & Hrj & Hfail).
    exists rj. split; [exact Hrj|].
    destruct (adheres (loadDictionary file) (responseTokens rj)) eqn:Ha;
      [|reflexivity].
    exfalso. apply Hfail. apply (adheres_iff file _ Hw). exact Ha.
  - assert (Hv : words (loadDictionary (Some Fixture.dictionaryFile)) <> [])
      by (vm_compute; discriminate).
    apply (accepted_at (loadDictionary (Some Fixture.dictionaryFile))
             Fixture.obliging prompt opts st 0
             (Some " Fate, DOOM glory! ") Hv Hm);
      [lia | intros j Hj; lia | reflexivity | reflexivity].
Qed.

Lemma delegated_acceptance_witness :
  predict (loadDictionary (Some Fixture.dictionaryFile)) Fixture.echoing
          "tell of doom" (Fixture.options "llm" 4 1%R) initial
  = Some (Return {| text := "Doom fate.";
                    tokens := ["doom"; "fate"];
                    warning := None |},
          {| draws := 0; calls := 2 |}).
Proof.
  assert (Hw : words (loadDictionary (Some Fixture.dictionaryFile)) <> [])
    by (vm_compute; discriminate).
  destruct (delegated_acceptance (Some Fixture.dictionaryFile)
              Fixture.echoing "tell of doom" (Fixture.options "llm" 4 1%R)
              initial Hw eq_refl)
    as (_ & Htest & _ & _ & Hat & _).
  apply (Hat 1%nat (Some "Doom, fate.") ltac:(lia)).
  - intros j Hj. assert (j = 0%nat) by lia. subst j.
    exists (Some "Tell of doom"). split; [reflexivity|].
    intros [_ Hall].
    assert (Hin : In "tell" (words (loadDictionary
                                      (Some Fixture.dictionaryFile))))
      by (apply Hall; left; reflexivity).
    vm_compute in Hin. intuition discriminate.
  - reflexivity.
  - split; [discriminate|].
    intros t Ht. vm_compute in Ht. vm_compute.
    intuition.
Defined.

End DelegatedFacts.

(* ================================================================== *)
(** ** Further properties of the tokenizer and of the sentence text *)
(* ================================================================== *)

Module TokenizerMore.
Import JS Oracle Shape.

Local Ltac by_cases c :=
  destruct c as [[] [] [] [] [] [] [] []]; vm_compute; congruence.

Lemma letter_lower_is_lower (c : ascii) :
  isLetter c = true -> isLower (lowerChar c) = true.
Proof. by_cases c. Qed.

Lemma lower_is_letter (c : ascii) : isLower c = true -> isLetter c = true.
Proof. by_cases c. Qed.

Lemma lower_fixed (c : ascii) : isLower c = true -> lowerChar c = c.
Proof. by_cases c. Qed.

Lemma upper_is_letter (c : ascii) :
  isLower c = true -> isLetter (upperChar c) = true.
Proof. by_cases c. Qed.

Lemma lower_upper (c : ascii) :
  isLower c = true -> lowerChar (upperChar c) = c.
Proof. by_cases c. Qed.

(** The runs [scan] finds are words of lower-case letters. *)
Lemma scan_words (s : string) :
  allChars isLower (fst (Spec.scan s)) = true
  /\ Forall (fun t => isLowerWord t = true) (snd (Spec.scan s)).
Proof.
  induction s as [|c r [IHc IHr]]; [split; [reflexivity | constructor]|].
  simpl. destruct (Spec.scan r) as [cur runs]. simpl in *.
  destruct (isLetter c) eqn:Hc; simpl.
  - rewrite (letter_lower_is_lower c Hc), IHc. auto.
  - split; [reflexivity|].
    destruct (truthy cur) eqn:Ht; [|exact IHr].
    constructor; [|exact IHr]. unfold isLowerWord. rewrite Ht, IHc.
    reflexivity.
Qed.

Lemma tokenize_words (s : string) :
  Forall (fun t => isLowerWord t = true) (tokenize s).
Proof.
  rewrite TokenizerFacts.tokenize_letterRuns. unfold Spec.letterRuns.
  destruct (scan_words s) as [Hc Hr].
  destruct (Spec.scan s) as [cur runs]. simpl in *.
  destruct (truthy cur) eqn:Ht; [|exact Hr].
  constructor; [|exact Hr]. unfold isLowerWord. rewrite Ht, Hc. reflexivity.
Qed.

(** X1: every token [tokenize] gives is a non-empty string of lower-case
    letters: no digit, no punctuation, no white space, no empty token. *)
Theorem tokenize_lower_words (s : string) :
  Forall (fun t => isLowerWord t = true) (tokenize s).
Proof. apply tokenize_words. Qed.

Lemma append_empty (s : string) : s +++ "" = s.
Proof. induction s as [|c r IH]; simpl; [reflexivity | rewrite IH; reflexivity]. Qed.

Lemma scan_word_app (w rest : string) :
  allChars isLower w = true ->
  Spec.scan (w +++ rest)
  = (w +++ fst (Spec.scan rest), snd (Spec.scan rest)).
Proof.
  induction w as [|c r IH]; simpl; intros H.
  - destruct (Spec.scan rest); reflexivity.
  - apply andb_prop in H as [Hc Hr]. rewrite (IH Hr).
    rewrite (lower_is_letter c Hc), (lower_fixed c Hc). reflexivity.
Qed.

(** A sentence of words joined by single spaces scans to its words. *)
Lemma scan_join (ws : list string) :
  Forall (fun t => isLowerWord t = true) ws ->
  Spec.scan (join " " ws)
  = match ws with
    | [] => ("", [])
    | w :: rest => (w, rest)
    end.
Proof.
  induction 1 as [|w rest Hw Hrest IH]; [reflexivity|].
  unfold isLowerWord in Hw. apply andb_prop in Hw as [Ht Hl].
  unfold join in *. simpl String.concat.
  destruct rest as [|y rest].
  - rewrite <- (append_empty w) at 1. rewrite scan_word_app by exact Hl.
    simpl. rewrite append_empty. reflexivity.
  - rewrite scan_word_app by exact Hl.
    assert (Hsp : forall x, Spec.scan (String " " x)
                            = ("", if truthy (fst (Spec.scan x))
                                   then fst (Spec.scan x) :: snd (Spec.scan x)
                                   else snd (Spec.scan x))).
    { intros x. simpl. destruct (Spec.scan x). reflexivity. }
    change (" " +++ String.concat " " (y :: rest))
      with (String " " (String.concat " " (y :: rest))).
    rewrite Hsp, IH. inversion Hrest as [|? ? Hy _]; subst.
    unfold isLowerWord in Hy. apply andb_prop in Hy as [Hty _].
    simpl. rewrite Hty, append_empty. reflexivity.
Qed.

Lemma tokenize_joined (ws : list string) :
  Forall (fun t => isLowerWord t = true) ws -> tokenize (join " " ws) = ws.
Proof.
  intros Hl. rewrite TokenizerFacts.tokenize_letterRuns.
  unfold Spec.letterRuns. rewrite (scan_join ws Hl).
  destruct Hl as [|w rest Hw _]; [reflexivity|].
  unfold isLowerWord in Hw. apply andb_prop in Hw as [Ht _].
  rewrite Ht. reflexivity.
Qed.

(** X2: words of lower-case letters joined by single spaces tokenize
    back to themselves; so tokenizing is idempotent through [join]. *)
Theorem tokenize_join (ws : list string) :
  Forall (fun t => isLowerWord t = true) ws ->
  tokenize (join " " ws) = ws
  /\ forall s, tokenize (join " " (tokenize s)) = tokenize s.
Proof.
  intros Hws. split; [apply tokenize_joined, Hws|].
  intros s. apply tokenize_joined, tokenize_words.
Qed.

Lemma tokenize_join_witness :
  tokenize (join " " ["tell"; "of"; "doom"]) = ["tell"; "of"; "doom"].
Proof.
  apply (tokenize_join ["tell"; "of"; "doom"]).
  repeat constructor.
Defined.

Lemma scan_app_dot (s : string) : Spec.scan (s +++ ".") = Spec.scan s.
Proof.
  induction s as [|c r IH]; [reflexivity|]. simpl. rewrite IH. reflexivity.
Qed.

(** X3: the text of a result reads back as its tokens: for tokens that
    are words of lower-case letters, tokenizing the capitalized sentence
    with its final period gives the tokens again. *)
Theorem text_tokens (toks : list string) :
  Forall (fun t => isLowerWord t = true) toks ->
  tokenize (text (result toks)) = toks.
Proof.
  intros H.
  pose proof (tokenize_joined toks H) as Hjoin.
  rewrite <- Hjoin at 2.
  rewrite !TokenizerFacts.tokenize_letterRuns. unfold Spec.letterRuns.
  cbn [text result]. unfold capitalizeSentence.
  pose proof (scan_join toks H) as Hscan.
  destruct (join " " toks) as [|c rest] eqn:Hj; [reflexivity|].
  destruct toks as [|w tl]; [discriminate|].
  inversion H as [|? ? Hw _]; subst.
  assert (Hc : isLower c = true).
  { unfold isLowerWord in Hw. apply andb_prop in Hw as [Ht Hl].
    unfold join in Hj. destruct w as [|c' w']; [discriminate|].
    simpl in Hl. apply andb_prop in Hl as [Hc' _].
    destruct tl; simpl in Hj; injection Hj as <- _; exact Hc'. }
  change (String (upperChar c) rest +++ ".")
    with (String (upperChar c) (rest +++ ".")).
  simpl Spec.scan. rewrite scan_app_dot.
  rewrite (upper_is_letter c Hc), (lower_upper c Hc).
  rewrite (lower_is_letter c Hc), (lower_fixed c Hc). reflexivity.
Qed.

Lemma text_tokens_witness :
  tokenize (text (result ["tell"; "of"; "doom"; "fate"]))
  = ["tell"; "of"; "doom"; "fate"].
Proof.
  apply (text_tokens ["tell"; "of"; "doom"; "fate"]).
  repeat constructor.
Defined.

End TokenizerMore.

(* ================================================================== *)
(** ** Further properties of the sampler and of the modes of [predict] *)
(* ================================================================== *)

Module OracleMore.
Import JS Oracle Shape TokenFacts.

Lemma search_range (cumArr : list R) (r : R) : forall fuel lo hi,
  (lo <= hi)%nat -> (lo <= search fuel cumArr r lo hi <= hi)%nat.
Proof.
  induction fuel as [|f IH]; intros lo hi Hle; [simpl; lia|].
  rewrite SamplerFacts.search_turn.
  destruct (Nat.ltb_spec lo hi) as [Hlt|Hge]; [|lia].
  pose proof (SamplerFacts.middle lo hi Hlt) as Hmid.
  destruct (Rgt_dec _ _).
  - pose proof (IH lo ((lo + hi) / 2)%nat ltac:(lia)). lia.
  - pose proof (IH ((lo + hi) / 2 + 1)%nat hi ltac:(lia)). lia.
Qed.

(** X4: whatever the cumulative array, the total and the random value,
    [sampleIndexFromCum] gives an index of the array (0 for the empty
    array), and draws one random number. *)
Theorem sampleIndex_in_range (rt : Runtime) (cumArr : list R) (total : R)
  (st : State) :
  (fst (sampleIndexFromCum rt cumArr total st) <= List.length cumArr - 1)%nat
  /\ draws (snd (sampleIndexFromCum rt cumArr total st)) = S (draws st)
  /\ calls (snd (sampleIndexFromCum rt cumArr total st)) = calls st.
Proof.
  unfold sampleIndexFromCum. cbn [fst snd draws calls].
  split; [|split; reflexivity].
  apply search_range. lia.
Qed.

Lemma cumulativeFrom_total (arr : list R) : forall s,
  snd (cumulativeFrom s arr) = (s + sumR arr)%R.
Proof.
  induction arr as [|x rest IH]; intros s; simpl; [lra|].
  specialize (IH (s + x)%R).
  destruct (cumulativeFrom (s + x) rest). simpl in *. lra.
Qed.

Lemma cumulativeFrom_prefix (arr : list R) : forall s,
  fst (cumulativeFrom s arr)
  = map (fun i => (s + sumR (firstn (S i) arr))%R)
        (seq 0 (List.length arr)).
Proof.
  induction arr as [|x rest IH]; intros s; [reflexivity|].
  specialize (IH (s + x)%R). cbn [cumulativeFrom].
  destruct (cumulativeFrom (s + x) rest) as [cum total]. cbn [fst] in *.
  cbn [List.length seq map]. f_equal.
  - simpl. lra.
  - rewrite IH, <- seq_shift, map_map. apply map_ext.
    intros i. simpl. lra.
Qed.

Lemma sampleIndex_in_range_aux (rt : Runtime) (w : list R) (st : State) :
  ~ (snd (cumulativeFromArray w) <= 0)%R ->
  (fst (sampleIndexFromCum rt (fst (cumulativeFromArray w))
          (snd (cumulativeFromArray w)) st)
   <= List.length w - 1)%nat
  /\ (0 < List.length w)%nat.
Proof.
  intros Hp. split.
  - unfold sampleIndexFromCum, cumulativeFromArray. cbn [fst].
    rewrite <- (SamplerFacts.cumulativeFrom_length w 0%R).
    apply search_range. lia.
  - destruct w; [|simpl; lia]. exfalso. apply Hp. simpl. lra.
Qed.

(** The sampling loop, whatever the random values: it appends the words
    at indices of the weight array, one random number each, and makes no
    service call. *)
Lemma sampleLoop_range (V : Vocabulary) (rt : Runtime) :
  forall fuel length toks drawn modWeights st,
  exists new,
    sampleLoop V rt fuel length toks drawn modWeights st
    = (toks ++ map (fun i => nth i (words V) "") new, drawn ++ new,
       {| draws := draws st + List.length new; calls := calls st |})
    /\ (forall i, In i new -> (i < List.length modWeights)%nat).
Proof.
  assert (Hstop : forall toks drawn (w : list R) st,
    exists new : list nat,
      (toks, drawn, st)
      = (toks ++ map (fun i => nth i (words V) "") new, drawn ++ new,
         {| draws := draws st + List.length new; calls := calls st |})
      /\ (forall i, In i new -> (i < List.length w)%nat)).
  { intros toks drawn w st. exists []. simpl.
    rewrite !app_nil_r, Nat.add_0_r. destruct st. split; [reflexivity|].
    intros i []. }
  induction fuel as [|f IH]; intros length toks drawn w st;
    [apply Hstop|].
  rewrite SamplerFacts.sampleLoop_turn.
  destruct (Z.of_nat (List.length toks) <? length); [|apply Hstop].
  destruct (Rle_dec (snd (cumulativeFromArray w)) 0) as [Hz|Hp];
    [apply Hstop|].
  cbv zeta.
  set (idx := fst (sampleIndexFromCum rt (fst (cumulativeFromArray w))
                     (snd (cumulativeFromArray w)) st)).
  assert (Hidx : (idx < List.length w)%nat).
  { destruct (sampleIndex_in_range_aux rt w st) as [Hr Hn]; [exact Hp|].
    fold idx in Hr. lia. }
  destruct (IH length (toks ++ [nth idx (words V) ""]) (drawn ++ [idx])
               (setAt idx 0%R w)
               {| draws := S (draws st); calls := calls st |})
    as (new & E & Hin).
  exists (idx :: new). rewrite E. cbn [draws calls map List.length].
  rewrite <- !app_assoc. cbn [app]. split.
  - f_equal. f_equal. lia.
  - intros i [<-|Hi]; [exact Hidx|].
    apply Hin in Hi. rewrite SamplerFacts.setAt_length in Hi. exact Hi.
Qed.

Lemma firstn_NoDup {A : Type} (n : nat) (l : list A) :
  NoDup l -> NoDup (firstn n l).
Proof.
  intros H. rewrite <- (firstn_skipn n l) in H.
  exact (NoDup_app_remove_r _ _ H).
Qed.

Lemma firstn_In {A : Type} (n : nat) (l : list A) (x : A) :
  In x (firstn n l) -> In x l.
Proof.
  intros H. rewrite <- (firstn_skipn n l). apply in_or_app. left. exact H.
Qed.

(** The tokens of the ranked branch. *)
Lemma ranked_tokens (V : Vocabulary) (rt : Runtime) (prompt : string)
  (opts : Options) (st : State) :
  words V <> [] -> modeOf opts = "mostLikely" ->
  predict V rt prompt opts st
  = Some (Return (result
            (promptUniqueOf prompt
             ++ firstn (Z.to_nat (lengthOf opts
                         - Z.of_nat (List.length (promptUniqueOf prompt))))
                  (uniqueFrom (promptUniqueOf prompt)
                     (map (fun i => nth i (words V) "") (rankedIdxs V))))),
          st).
Proof.
  intros Hw Hm.
  rewrite LocalFacts.predict_local by (assumption || (rewrite Hm; reflexivity)).
  unfold predictLocal. rewrite Hm. simpl String.eqb. cbv iota.
  rewrite startTokens_prompt
    by (apply promptUnique_truthy || apply promptUnique_NoDup).
  rewrite RankedFacts.fillRanked_unique. reflexivity.
Qed.

(** X6: the ranked mode returns tokens that are pairwise distinct, at
    most [max(length, number of prompt words)] of them, and it draws no
    random number and calls no service. *)
Theorem ranked_distinct (V : Vocabulary) (rt : Runtime) (prompt : string)
  (opts : Options) (st : State) :
  words V <> [] -> modeOf opts = "mostLikely" ->
  exists res,
    predict V rt prompt opts st = Some (Return res, st)
    /\ NoDup (tokens res)
    /\ Z.of_nat (List.length (tokens res))
       <= Z.max (lengthOf opts)
                (Z.of_nat (List.length (promptUniqueOf prompt))).
Proof.
  intros Hw Hm. eexists. split; [apply ranked_tokens; assumption|].
  cbn [tokens result]. split.
  - apply NoDup_app.
    + apply promptUnique_NoDup.
    + apply firstn_NoDup, uniqueFrom_NoDup.
    + intros t Ht Hin. apply firstn_In, uniqueFrom_In in Hin. tauto.
  - rewrite length_app.
    pose proof (firstn_le_length
                  (Z.to_nat (lengthOf opts
                     - Z.of_nat (List.length (promptUniqueOf prompt))))
                  (uniqueFrom (promptUniqueOf prompt)
                     (map (fun i => nth i (words V) "") (rankedIdxs V)))).
    lia.
Qed.

Lemma ranked_distinct_witness :
  exists res,
    predict Fixture.vocabulary Fixture.offline "doom doom of doom"
            (Fixture.options "mostLikely" 4 1%R) initial
    = Some (Return res, initial)
    /\ NoDup (tokens res)
    /\ Z.of_nat (List.length (tokens res))
       <= Z.max (lengthOf (Fixture.options "mostLikely" 4 1%R))
                (Z.of_nat (List.length (promptUniqueOf "doom doom of doom"))).
Proof.
  apply ranked_distinct; [discriminate | reflexivity].
Defined.

Lemma loaded_lengths (file : option string) :
  List.length (words (loadDictionary file))
  = List.length (counts (loadDictionary file)).
Proof.
  destruct file as [raw|]; [|reflexivity]. unfold loadDictionary.
  destruct (LoaderFacts.fold_loadLine (splitLines raw) emptyVocabulary)
    as (Hw & Hc & _).
  assert (H : List.length
                (words (fold_left loadLine (splitLines raw) emptyVocabulary))
              = List.length
                (counts (fold_left loadLine (splitLines raw) emptyVocabulary)))
    by (rewrite Hw, Hc; simpl; rewrite !length_map; reflexivity).
  destruct (_ =? _)%nat; exact H.
Qed.

Lemma startWeights_length (V : Vocabulary) (rt : Runtime) (temperature : R)
  (promptUnique : list string) :
  List.length (startWeights V rt temperature promptUnique)
  = List.length (counts V).
Proof.
  unfold startWeights, zeroSeed, reshape.
  destruct (firstTruthy promptUnique) as [seed|];
    [destruct (indexOf (words V) seed)|];
    rewrite ?SamplerFacts.setAt_length, length_map; reflexivity.
Qed.

(** The tokens of the local modes come from the prompt or from the
    vocabulary, and these modes call no service. *)
Lemma local_tokens_allowed (V : Vocabulary) (rt : Runtime) (prompt : string)
  (mode : string) (length : Z) (temperature : R) (st : State) :
  List.length (words V) = List.length (counts V) ->
  exists toks d',
    predictLocal V rt mode length temperature (promptUniqueOf prompt) st
    = (Return (result toks), {| draws := d'; calls := calls st |})
    /\ Forall (fun t => In t (promptUniqueOf prompt) \/ In t (words V)) toks.
Proof.
  intros Hlen. unfold predictLocal.
  assert (Hstart : startTokens (promptUniqueOf prompt) = promptUniqueOf prompt)
    by (apply startTokens_prompt;
        [apply promptUnique_truthy | apply promptUnique_NoDup]).
  assert (Hword : forall new : list nat,
             (forall i, In i new -> (i < List.length (counts V))%nat) ->
             Forall (fun t => In t (promptUniqueOf prompt) \/ In t (words V))
                    (promptUniqueOf prompt
                     ++ map (fun i => nth i (words V) "") new)).
  { intros new Hnew. apply Forall_app. split.
    - apply Forall_forall. auto.
    - apply Forall_forall. intros t Ht. apply in_map_iff in Ht as (i & <- & Hi).
      right. apply nth_In. rewrite Hlen. apply Hnew, Hi. }
  destruct (String.eqb mode "mostLikely").
  - exists (fillRanked V length (rankedIdxs V)
                       (startTokens (promptUniqueOf prompt))), (draws st).
    split; [destruct st; reflexivity|].
    rewrite Hstart, RankedFacts.fillRanked_unique.
    apply Forall_app. split; [apply Forall_forall; auto|].
    apply Forall_forall. intros t Ht.
    apply firstn_In, uniqueFrom_In in Ht as [Ht _].
    apply in_map_iff in Ht as (i & <- & Hi). right. apply nth_In.
    apply (Permutation_in _ (Permutation_sym (RankedFacts.rankedIdxs_perm V)))
      in Hi.
    apply in_seq in Hi. lia.
  - unfold sampleRun. rewrite Hstart.
    destruct (sampleLoop_range V rt
                (Z.to_nat (length
                   - Z.of_nat (List.length (promptUniqueOf prompt))))
                length (promptUniqueOf prompt) []
                (startWeights V rt temperature (promptUniqueOf prompt)) st)
      as (new & E & Hin).
    rewrite E. eexists. eexists. split; [reflexivity|].
    apply Hword. intros i Hi. rewrite <- (startWeights_length V rt temperature
                                           (promptUniqueOf prompt)).
    apply Hin, Hi.
Qed.

(** X7: whatever the mode, the random values and the replies of the
    service, every token [predict] returns is a word of the seed phrase
    or a word of the loaded vocabulary. *)
Theorem tokens_allowed (file : option string) (rt : Runtime)
  (prompt : string) (opts : Options) (st : State) (res : GenerationResult)
  (st' : State) :
  predict (loadDictionary file) rt prompt opts st = Some (Return res, st') ->
  Forall (fun t => In t (promptUniqueOf prompt)
                   \/ In t (words (loadDictionary file)))
         (tokens res).
Proof.
  intros E.
  destruct (words (loadDictionary file)) as [|w0 ws] eqn:Hwords.
  - rewrite RankedFacts.predict_vocabulary_unavailable_aux in E
      by exact Hwords. discriminate.
  - assert (Hw : words (loadDictionary file) <> [])
      by (rewrite Hwords; discriminate).
    rewrite <- Hwords.
    destruct (isLocal (modeOf opts)) eqn:Hm.
    + rewrite LocalFacts.predict_local in E by assumption.
      destruct (local_tokens_allowed (loadDictionary file) rt prompt
                  (modeOf opts) (lengthOf opts) (temperatureOf opts) st
                  (loaded_lengths file)) as (toks & d' & E' & Hall).
      rewrite E' in E. injection E as <- _. exact Hall.
    + destruct (DelegatedFacts.predict_delegated (loadDictionary file) rt
                  prompt opts st Hw Hm) as (toks & d' & Hs & Hcases).
      assert (Htoks : Forall (fun t => In t (promptUniqueOf prompt)
                               \/ In t (words (loadDictionary file))) toks).
      { specialize (Hs (calls st)).
        rewrite DelegatedFacts.predict_sample_mode in Hs by exact Hw.
        destruct (local_tokens_allowed (loadDictionary file) rt prompt
                    "sample" (lengthOf opts) (temperatureOf opts)
                    {| draws := draws st; calls := calls st |}
                    (loaded_lengths file)) as (toks' & d'' & E' & Hall).
        rewrite E' in Hs.
        assert (Heq : result toks' = result toks) by congruence.
        apply (f_equal tokens) in Heq. cbn [tokens result] in Heq.
        subst toks'. exact Hall. }
      destruct Hcases as [(k & r & _ & _ & _ & Ha & E')
                         |(k & w & _ & _ & _ & E')];
        rewrite E' in E; injection E as <- _; cbn [tokens result setWarning].
      * apply (DelegatedFacts.adheres_iff file _ Hw) in Ha as [_ Hall].
        apply Forall_forall. intros t Ht. right. apply Hall, Ht.
      * exact Htoks.
Qed.

Lemma tokens_allowed_witness :
  Forall (fun t => In t (promptUniqueOf "tell of doom")
                   \/ In t (words (loadDictionary
                                     (Some Fixture.dictionaryFile))))
         ["tell"; "of"; "doom"; "fate"].
Proof.
  apply (tokens_allowed (Some Fixture.dictionaryFile) Fixture.offline
           "tell of doom" (Fixture.options "mostLikely" 4 1%R) initial
           {| text := "Tell of doom fate.";
              tokens := ["tell"; "of"; "doom"; "fate"];
              warning := None |} initial).
  reflexivity.
Defined.

(** X8: in the delegated mode [predict] returns a result after at
    least one and at most three calls of the service; a result without a
    warning has drawn no random number, and a result with a warning is
    the sampled one. *)
Theorem delegated_call_bound (V : Vocabulary) (rt : Runtime)
  (prompt : string) (opts : Options) (st : State) :
  words V <> [] -> isLocal (modeOf opts) = false ->
  exists res st',
    predict V rt prompt opts st = Some (Return res, st')
    /\ (calls st < calls st' <= calls st + 3)%nat
    /\ (warning res = None -> draws st' = draws st)
    /\ (warning res <> None ->
        exists sampled st'',
          predict V rt prompt (Spec.withMode opts "sample") st
          = Some (Return sampled, st'')
          /\ tokens res = tokens sampled /\ text res = text sampled
          /\ draws st' = draws st'').
Proof.
  intros Hw Hm.
  destruct (DelegatedFacts.predict_delegated V rt prompt opts st Hw Hm)
    as (toks & d' & Hs & [(k & r & Hk & _ & _ & _ & E)
                         |(k & w & Hk & _ & _ & E)]);
    rewrite E; eexists; eexists; (split; [reflexivity|]);
    cbn [calls draws warning result setWarning].
  - split; [lia|]. split; [reflexivity|]. intros H. congruence.
  - split; [lia|]. split; [discriminate|]. intros _.
    specialize (Hs (calls st)).
    replace {| draws := draws st; calls := calls st |} with st in Hs
      by (destruct st; reflexivity).
    eexists. eexists. split; [exact Hs|]. auto.
Qed.

Lemma delegated_call_bound_witness :
  exists res st',
    predict Fixture.vocabulary Fixture.offline "tell of doom"
            (Fixture.options "llm" 4 1%R) initial
    = Some (Return res, st')
    /\ (calls initial < calls st' <= calls initial + 3)%nat.
Proof.
  destruct (delegated_call_bound Fixture.vocabulary Fixture.offline
              "tell of doom" (Fixture.options "llm" 4 1%R) initial
              ltac:(discriminate) eq_refl)
    as (res & st' & E & Hc & _).
  exists res, st'. auto.
Defined.

(** X9: the sampled mode calls no service and draws exactly one random
    number for each token it adds after the prompt words. *)
Theorem sampled_accounting (V : Vocabulary) (rt : Runtime) (prompt : string)
  (opts : Options) (st : State) :
  words V <> [] -> modeOf opts = "sample" ->
  exists res filler,
    predict V rt prompt opts st
    = Some (Return res, {| draws := draws st + List.length filler;
                           calls := calls st |})
    /\ tokens res = promptUniqueOf prompt ++ filler.
Proof.
  intros Hw Hm.
  rewrite LocalFacts.predict_local by (assumption || (rewrite Hm; reflexivity)).
  unfold predictLocal, sampleRun. rewrite Hm. simpl String.eqb. cbv iota.
  rewrite startTokens_prompt
    by (apply promptUnique_truthy || apply promptUnique_NoDup).
  destruct (sampleLoop_range V rt
              (Z.to_nat (lengthOf opts
                 - Z.of_nat (List.length (promptUniqueOf prompt))))
              (lengthOf opts) (promptUniqueOf prompt) []
              (startWeights V rt (temperatureOf opts) (promptUniqueOf prompt))
              st) as (new & E & _).
  rewrite E.
  exists (result (promptUniqueOf prompt
                  ++ map (fun i => nth i (words V) "") new)),
    (map (fun i => nth i (words V) "") new).
  rewrite length_map. split; reflexivity.
Qed.

Lemma sampled_accounting_witness :
  exists res filler,
    predict Fixture.vocabulary Fixture.offline "tell of doom"
            (Fixture.options "sample" 6 1%R) initial
    = Some (Return res, {| draws := draws initial + List.length filler;
                           calls := calls initial |})
    /\ tokens res = promptUniqueOf "tell of doom" ++ filler.
Proof.
  apply sampled_accounting; [discriminate | reflexivity].
Defined.

Lemma zeroed_other (drawn : list nat) : forall (w : list R) (i : nat),
  ~ In i drawn ->
  nth i (fold_left (fun a j => setAt j 0%R a) drawn w) 0%R = nth i w 0%R.
Proof.
  induction drawn as [|j rest IH]; intros w i Hi; [reflexivity|].
  simpl. rewrite IH by (intros H; apply Hi; right; exact H).
  apply SamplerFacts.setAt_other. intros ->. apply Hi. left. reflexivity.
Qed.

Lemma zeroed_nonneg (drawn : list nat) : forall w : list R,
  (forall x, In x w -> (0 <= x)%R) ->
  forall x, In x (fold_left (fun a j => setAt j 0%R a) drawn w) ->
            (0 <= x)%R.
Proof.
  induction drawn as [|j rest IH]; intros w Hw; [exact Hw|].
  simpl. apply IH. intros x Hx.
  apply In_nth with (d := 0%R) in Hx as (k & Hk & <-).
  rewrite SamplerFacts.setAt_length in Hk.
  destruct (Nat.eq_dec j k) as [->|Hne].
  - rewrite SamplerFacts.setAt_same by exact Hk. lra.
  - rewrite SamplerFacts.setAt_other by exact Hne. apply Hw, nth_In, Hk.
Qed.

Lemma zeroed_length (drawn : list nat) : forall w : list R,
  List.length (fold_left (fun a j => setAt j 0%R a) drawn w) = List.length w.
Proof.
  induction drawn as [|j rest IH]; intros w; [reflexivity|].
  simpl. rewrite IH. apply SamplerFacts.setAt_length.
Qed.

Lemma sum_nonneg_zero (w : list R) :
  (forall x, In x w -> (0 <= x)%R) -> (sumR w <= 0)%R ->
  forall x, In x w -> x = 0%R.
Proof.
  induction w as [|y rest IH]; intros Hpos Hsum x Hx; [destruct Hx|].
  assert (Hy : (0 <= y)%R) by (apply Hpos; left; reflexivity).
  assert (Hrest : (0 <= sumR rest)%R).
  { clear -Hpos. induction rest as [|z rest IH]; simpl; [lra|].
    assert ((0 <= z)%R) by (apply Hpos; right; left; reflexivity).
    assert ((0 <= sumR rest)%R).
    { apply IH. intros x [<-|Hx]; apply Hpos; [left | right; right]; auto. }
    lra. }
  simpl in Hsum. destruct Hx as [<-|Hx]; [lra|].
  apply IH; auto; [intros z Hz; apply Hpos; right; exact Hz | lra].
Qed.

(** X10: with random values in [[0, 1)] and start weights that are not
    negative, the sampling run stops short of the length only when the
    vocabulary is exhausted: every index whose start weight is positive
    has then been drawn. *)
Theorem sampled_exhaustion (V : Vocabulary) (rt : Runtime) (length : Z)
  (temperature : R) (promptUnique : list string) (st : State) :
  (forall n, (0 <= random rt n < 1)%R) ->
  (forall x, In x (startWeights V rt temperature promptUnique) -> (0 <= x)%R) ->
  let run := sampleRun V rt length temperature promptUnique st in
  (length <= Z.of_nat (List.length (fst (fst run))))
  \/ (forall i, (0 < nth i (startWeights V rt temperature promptUnique) 0)%R ->
                In i (snd (fst run))).
Proof.
  intros Hrand Hpos. cbv zeta.
  destruct (sampleRun V rt length temperature promptUnique st)
    as [[toks drawn] st'] eqn:E.
  unfold sampleRun in E. apply (SamplerFacts.sampleLoop_spec V rt Hrand) in E.
  destruct E as (new & -> & -> & _ & _ & _ & Hend). cbn [fst snd app].
  destruct (Hend ltac:(lia)) as [Hlen|Htotal]; [left; exact Hlen|].
  right. intros i Hi.
  set (w := startWeights V rt temperature promptUnique) in *.
  destruct (in_dec Nat.eq_dec i new) as [Hin|Hout]; [exact Hin|].
  exfalso.
  unfold cumulativeFromArray in Htotal.
  rewrite cumulativeFrom_total, Rplus_0_l in Htotal.
  assert (Hlt : (i < List.length w)%nat).
  { destruct (Nat.lt_ge_cases i (List.length w)) as [H|H]; [exact H|].
    rewrite nth_overflow in Hi by exact H. lra. }
  assert (Hz : nth i (fold_left (fun a j => setAt j 0%R a) new w) 0%R = 0%R).
  { apply (sum_nonneg_zero _ (zeroed_nonneg new w Hpos) Htotal).
    apply nth_In. rewrite zeroed_length. exact Hlt. }
  rewrite zeroed_other in Hz by exact Hout. lra.
Qed.

Lemma sampled_exhaustion_witness :
  (6 <= Z.of_nat (List.length
          (fst (fst (sampleRun Fixture.vocabulary Fixture.offline 6 1
                       ["tell"; "of"; "doom"] initial)))))
  \/ (forall i,
        (0 < nth i (startWeights Fixture.vocabulary Fixture.offline 1
                      ["tell"; "of"; "doom"]) 0)%R ->
        In i (snd (fst (sampleRun Fixture.vocabulary Fixture.offline 6 1
                          ["tell"; "of"; "doom"] initial)))).
Proof.
  apply (sampled_exhaustion Fixture.vocabulary Fixture.offline 6 1
           ["tell"; "of"; "doom"] initial).
  - intros n. simpl. lra.
  - rewrite SampledFacts.example_weights by reflexivity.
    intros x [<-|[<-|[<-|[]]]]; lra.
Defined.

End OracleMore.

(* ================================================================== *)
(** ** Further properties of the string primitives *)
(* ================================================================== *)

Module StringFacts.
Import JS Shape.

Lemma allChars_trimStart (p : ascii -> bool) (s : string) :
  allChars p s = true -> allChars p (trimStart s) = true.
Proof.
  induction s as [|c r IH]; simpl; [auto|]. intros H.
  apply andb_prop in H as [Hc Hr].
  destruct (isWhiteSpace c); [auto | simpl; rewrite Hc, Hr; reflexivity].
Qed.

Lemma allChars_trimEnd (p : ascii -> bool) (s : string) :
  allChars p s = true -> allChars p (trimEnd s) = true.
Proof.
  induction s as [|c r IH]; simpl; [auto|]. intros H.
  apply andb_prop in H as [Hc Hr]. specialize (IH Hr).
  destruct (trimEnd r) as [|c' r'].
  - destruct (isWhiteSpace c); [reflexivity | simpl; rewrite Hc; reflexivity].
  - simpl in *. rewrite Hc. exact IH.
Qed.

Lemma allChars_trim (p : ascii -> bool) (s : string) :
  allChars p s = true -> allChars p (trim s) = true.
Proof. intros H. apply allChars_trimStart, allChars_trimEnd, H. Qed.

Lemma trimEnd_idem (s : string) : trimEnd (trimEnd s) = trimEnd s.
Proof.
  induction s as [|c r IH]; [reflexivity|]. simpl.
  destruct (trimEnd r) as [|c' r'] eqn:Hr.
  - destruct (isWhiteSpace c) eqn:Hc; [reflexivity|]. simpl. rewrite Hc.
    reflexivity.
  - change (trimEnd (String c (String c' r')))
      with (match trimEnd (String c' r') with
            | EmptyString => if isWhiteSpace c then EmptyString
                             else String c EmptyString
            | r2 => String c r2
            end).
    rewrite IH. reflexivity.
Qed.

Lemma trimStart_idem (s : string) : trimStart (trimStart s) = trimStart s.
Proof.
  induction s as [|c r IH]; [reflexivity|]. simpl.
  destruct (isWhiteSpace c) eqn:Hc; [exact IH|]. simpl. rewrite Hc.
  reflexivity.
Qed.

Lemma trimEnd_trimStart (s : string) :
  trimEnd s = s -> trimEnd (trimStart s) = trimStart s.
Proof.
  induction s as [|c r IH]; [reflexivity|]. intros H. simpl trimStart.
  destruct (isWhiteSpace c) eqn:Hc; [|exact H].
  apply IH. simpl in H. destruct (trimEnd r) as [|c' r'] eqn:Hr.
  - rewrite Hc in H. discriminate.
  - injection H as H. exact H.
Qed.

(** Trimming twice is trimming once. *)
Lemma trim_idem (s : string) : trim (trim s) = trim s.
Proof.
  unfold trim.
  rewrite (trimEnd_trimStart (trimEnd s) (trimEnd_idem s)).
  apply trimStart_idem.
Qed.

(** A string with no white space is left as it is by [trim]. *)
Lemma trim_solid (s : string) :
  allChars (fun c => negb (isWhiteSpace c)) s = true -> trim s = s.
Proof.
  intros H. unfold trim.
  assert (He : trimEnd s = s).
  { induction s as [|c r IH]; [reflexivity|]. simpl in *.
    apply andb_prop in H as [Hc Hr]. rewrite (IH Hr).
    destruct r; [|reflexivity].
    destruct (isWhiteSpace c); [discriminate | reflexivity]. }
  rewrite He. destruct s as [|c r]; [reflexivity|]. simpl in *.
  apply andb_prop in H as [Hc _].
  destruct (isWhiteSpace c); [discriminate | reflexivity].
Qed.

Lemma allChars_consHead (p : ascii -> bool) (c : ascii) (fs : list string) :
  p c = true -> Forall (fun f => allChars p f = true) fs ->
  Forall (fun f => allChars p f = true) (consHead c fs).
Proof.
  intros Hc Hfs. destruct fs as [|f fs]; simpl.
  - constructor; [simpl; rewrite Hc; reflexivity | constructor].
  - inversion Hfs; subst.
    constructor; [simpl; rewrite Hc; assumption | assumption].
Qed.

(** The fields of a string hold only characters of the string. *)
Lemma fields_allChars (p cls : ascii -> bool) (s : string) :
  allChars p s = true ->
  forall inRun,
    Forall (fun f => allChars p f = true) (splitRunsFrom cls inRun s).
Proof.
  induction s as [|c r IH]; simpl; intros H inRun.
  - constructor; [reflexivity | constructor].
  - apply andb_prop in H as [Hc Hr].
    destruct (cls c).
    + destruct inRun; [apply IH; assumption|].
      constructor; [reflexivity | apply IH; assumption].
    + apply allChars_consHead; [assumption | apply IH; assumption].
Qed.

(** The fields of a string hold no separator. *)
Lemma fields_no_separator (cls : ascii -> bool) (s : string) :
  forall inRun,
    Forall (fun f => allChars (fun c => negb (cls c)) f = true)
           (splitRunsFrom cls inRun s).
Proof.
  induction s as [|c r IH]; simpl; intros inRun.
  - constructor; [reflexivity | constructor].
  - destruct (cls c) eqn:Hc.
    + destruct inRun; [apply IH|].
      constructor; [reflexivity | apply IH].
    + apply allChars_consHead; [rewrite Hc; reflexivity | apply IH].
Qed.

(** A string with no separator is its only field. *)
Lemma fields_single (cls : ascii -> bool) (s : string) :
  allChars (fun c => negb (cls c)) s = true ->
  forall inRun, splitRunsFrom cls inRun s = [s].
Proof.
  induction s as [|c r IH]; simpl; intros H inRun; [reflexivity|].
  apply andb_prop in H as [Hc Hr]. apply negb_true_iff in Hc.
  rewrite Hc, (IH Hr). reflexivity.
Qed.

Lemma splitLines_cons (c : ascii) (x : string) :
  isNewline c = false -> isReturn c = false ->
  splitLines (String c x) = consHead c (splitLines x).
Proof.
  intros Hn Hr. destruct x as [|c' r']; simpl; rewrite Hn, ?Hr; reflexivity.
Qed.

(** The lines of a text hold no line feed. *)
Lemma lines_no_newline (s : string) :
  Forall (fun l => allChars (fun c => negb (isNewline c)) l = true)
         (splitLines s).
Proof.
  assert (H : forall n s, (String.length s <= n)%nat ->
    Forall (fun l => allChars (fun c => negb (isNewline c)) l = true)
           (splitLines s)).
  { induction n as [|n IH]; intros [|c r] Hlen; simpl in Hlen;
      try (constructor; [reflexivity | constructor]); [lia|].
    simpl splitLines. destruct (isNewline c) eqn:Hc.
    - constructor; [reflexivity | apply IH; lia].
    - destruct r as [|c' r'].
      + simpl. constructor; [simpl; rewrite Hc; reflexivity | constructor].
      + destruct (isReturn c && isNewline c')%bool.
        * constructor; [reflexivity | apply IH; simpl in *; lia].
        * apply allChars_consHead; [rewrite Hc; reflexivity|].
          apply IH. lia. }
  apply (H (String.length s)). lia.
Qed.

(** A line without line feed or carriage return, then a line feed, then
    a text: the line, then the lines of the text. *)
Lemma splitLines_line (l rest : string) :
  allChars (fun c => negb (isNewline c || isReturn c)) l = true ->
  splitLines (l +++ String (ascii_of_nat 10) rest) = l :: splitLines rest.
Proof.
  induction l as [|c r IH]; intros H.
  - simpl. reflexivity.
  - simpl in H. apply andb_prop in H as [Hc Hr].
    apply negb_true_iff, orb_false_iff in Hc as [Hn Hret].
    change (String c r +++ String (ascii_of_nat 10) rest)
      with (String c (r +++ String (ascii_of_nat 10) rest)).
    rewrite splitLines_cons by assumption. rewrite (IH Hr). reflexivity.
Qed.

End StringFacts.

(* ================================================================== *)
(** ** Further properties of the dictionary loader *)
(* ================================================================== *)

Module LoaderMore.
Import JS Oracle Shape StringFacts.

Lemma countOfField_nonzero (field : string) : Spec.countOfField field <> 0.
Proof.
  unfold Spec.countOfField. destruct (parseInt field) as [n|]; [|lia].
  destruct (Z.eqb_spec n 0); lia.
Qed.

(** The entry of a line without line feed: a trimmed, non-empty word
    without tab or line feed, and a count that is not 0. *)
Lemma entryOfLine_shape (line w : string) (c : Z) :
  allChars (fun ch => negb (isNewline ch)) line = true ->
  Spec.entryOfLine line = Some (w, c) ->
  truthy w = true /\ trim w = w
  /\ allChars (fun ch => negb (isTab ch)) w = true
  /\ allChars (fun ch => negb (isNewline ch)) w = true
  /\ c <> 0.
Proof.
  intros Hline. unfold Spec.entryOfLine.
  destruct (Spec.blank line); [discriminate|].
  destruct (startsWith (trimStart line) "#"); [discriminate|].
  pose proof (fields_no_separator isTab line false) as Htab.
  pose proof (fields_allChars _ isTab line Hline false) as Hnl.
  fold (splitRuns isTab line) in Htab, Hnl.
  destruct (splitRuns isTab line) as [|f0 [|f1 fs]]; try discriminate.
  destruct (truthy (trim f0)) eqn:Ht; [|discriminate].
  intros E. injection E as <- <-.
  inversion Htab; subst. inversion Hnl; subst.
  split; [exact Ht|]. split; [apply trim_idem|].
  split; [apply allChars_trim; assumption|].
  split; [apply allChars_trim; assumption | apply countOfField_nonzero].
Qed.

(** X11: whatever the file, every loaded word is non-empty, trimmed and
    free of tab and line feed, every loaded count is an integer other
    than 0, there are as many counts as words, and the membership set
    holds exactly the loaded words. *)
Theorem loaded_entries_wellformed (file : option string) :
  Forall (fun w => truthy w = true /\ trim w = w
                   /\ allChars (fun ch => negb (isTab ch)) w = true
                   /\ allChars (fun ch => negb (isNewline ch)) w = true)
         (words (loadDictionary file))
  /\ Forall (fun c => c <> 0) (counts (loadDictionary file))
  /\ List.length (words (loadDictionary file))
     = List.length (counts (loadDictionary file))
  /\ (forall t, setHas (allowedSet (loadDictionary file)) t = true
                <-> In t (words (loadDictionary file))).
Proof.
  assert (Hset : forall t, setHas (allowedSet (loadDictionary file)) t = true
                           <-> In t (words (loadDictionary file))).
  { intros t. destruct (words (loadDictionary file)) eqn:Hw.
    - destruct file as [raw|]; [|simpl; split; [discriminate | tauto]].
      unfold loadDictionary in *.
      destruct (LoaderFacts.fold_loadLine (splitLines raw) emptyVocabulary)
        as (_ & _ & Ha).
      destruct (_ =? _)%nat eqn:Hz.
      + rewrite Ha. simpl. split; [discriminate | tauto].
      + simpl in Hw. apply Nat.eqb_neq in Hz. rewrite Hw in Hz.
        exfalso. apply Hz. reflexivity.
    - rewrite <- Hw. apply DelegatedFacts.setHas_words. rewrite Hw.
      discriminate. }
  split; [|split; [|split; [apply OracleMore.loaded_lengths | exact Hset]]].
  - destruct file as [raw|]; [|constructor].
    assert (H : Forall (fun w => truthy w = true /\ trim w = w
                   /\ allChars (fun ch => negb (isTab ch)) w = true
                   /\ allChars (fun ch => negb (isNewline ch)) w = true)
                (words (fold_left loadLine (splitLines raw) emptyVocabulary))).
    { destruct (LoaderFacts.fold_loadLine (splitLines raw) emptyVocabulary)
        as (Hw & _ & _).
      rewrite Hw. simpl. clear Hw.
      pose proof (lines_no_newline raw) as Hlines.
      induction Hlines as [|line rest Hl _ IH]; [constructor|].
      simpl. rewrite map_app. apply Forall_app. split; [|exact IH].
      destruct (Spec.entryOfLine line) as [[w c]|] eqn:E; [|constructor].
      constructor; [|constructor].
      destruct (entryOfLine_shape line w c Hl E) as (H1 & H2 & H3 & H4 & _).
      auto. }
    unfold loadDictionary. destruct (_ =? _)%nat; exact H.
  - destruct file as [raw|]; [|constructor].
    assert (H : Forall (fun c => c <> 0)
                (counts (fold_left loadLine (splitLines raw) emptyVocabulary))).
    { destruct (LoaderFacts.fold_loadLine (splitLines raw) emptyVocabulary)
        as (_ & Hc & _).
      rewrite Hc. simpl. clear Hc.
      induction (splitLines raw) as [|line rest IH]; [constructor|].
      simpl. rewrite map_app. apply Forall_app. split; [|exact IH].
      destruct (Spec.entryOfLine line) as [[w c]|] eqn:E; [|constructor].
      constructor; [|constructor]. simpl.
      unfold Spec.entryOfLine in E.
      destruct (Spec.blank line); [discriminate|].
      destruct (startsWith _ _); [discriminate|].
      destruct (splitRuns isTab line) as [|f0 [|f1 fs]]; try discriminate.
      destruct (truthy _); [|discriminate].
      injection E as _ <-. apply countOfField_nonzero. }
    unfold loadDictionary. destruct (_ =? _)%nat; exact H.
Qed.

End LoaderMore.

(* ================================================================== *)
(** ** Further properties of the dictionary builder *)
(* ================================================================== *)

Module BuilderMore.
Import JS Builder Shape StringFacts.

(** The words the builder tallies are the tokens of the oracle. *)
Lemma builder_tokens (text : string) :
  filter truthy (splitRuns isWhiteSpace (normalized text))
  = Oracle.tokenize text.
Proof.
  rewrite TokenizerFacts.tokenize_letterRuns.
  unfold normalized, splitRuns, replaceRuns, Spec.letterRuns.
  destruct (TokenizerFacts.normalized_fields text) as [(tl & E & Hk) _].
  rewrite E. destruct (Spec.scan text) as [cur runs]. simpl in *.
  rewrite Hk. reflexivity.
Qed.

Lemma tally_skips_empty (l : list string) : forall t,
  fold_left tallyStep l t = fold_left tallyStep (filter truthy l) t.
Proof.
  induction l as [|w rest IH]; intros t; [reflexivity|]. simpl.
  destruct (truthy w) eqn:Hw; simpl.
  - apply IH.
  - unfold tallyStep at 2. rewrite Hw. simpl. apply IH.
Qed.

Lemma lookup_assign (t : table) (w w' : string) (v : Z) :
  lookup (assign t w v) w'
  = if String.eqb w w' then Some v else lookup t w'.
Proof.
  induction t as [|[k old] rest IH]; simpl.
  - rewrite String.eqb_sym. destruct (String.eqb w' w); reflexivity.
  - destruct (String.eqb_spec k w) as [->|Hkw]; simpl.
    + destruct (String.eqb_spec w w'); reflexivity.
    + destruct (String.eqb_spec k w') as [->|Hkw'].
      * destruct (String.eqb_spec w w'); [congruence | reflexivity].
      * exact IH.
Qed.

Lemma keysOf_assign (t : table) (w : string) (v : Z) :
  keysOf (assign t w v)
  = if includes (keysOf t) w then keysOf t else keysOf t ++ [w].
Proof.
  unfold includes.
  induction t as [|[k old] rest IH]; simpl; [reflexivity|].
  rewrite (String.eqb_sym w k).
  destruct (String.eqb k w); simpl; [reflexivity|].
  rewrite IH. destruct (existsb _ _); reflexivity.
Qed.

Lemma tallyStep_count (t : table) (w w' : string) :
  truthy w = true ->
  countOf (tallyStep t w) w'
  = countOf t w' + (if String.eqb w w' then 1 else 0).
Proof.
  intros Hw. unfold tallyStep, countOf. rewrite Hw. simpl.
  rewrite lookup_assign.
  destruct (String.eqb_spec w w') as [->|Hne]; [|lia].
  unfold orZero. destruct (lookup t w') as [v|]; [|lia].
  destruct (Z.eqb_spec v 0); lia.
Qed.

(** The tally loop adds the occurrences of each word and appends the new
    words in their order of first occurrence. *)
Lemma tally_fold (l : list string) :
  Forall (fun w => truthy w = true) l ->
  forall t,
    (forall w, countOf (fold_left tallyStep l t) w
               = countOf t w + Z.of_nat (count_occ string_dec l w))
    /\ keysOf (fold_left tallyStep l t)
       = keysOf t ++ uniqueFrom (keysOf t) l.
Proof.
  induction 1 as [|x rest Hx Hrest IH]; intros t.
  - simpl. split; [intros w; lia | rewrite app_nil_r; reflexivity].
  - simpl fold_left. destruct (IH (tallyStep t x)) as [Hc Hk]. split.
    + intros w. rewrite Hc, tallyStep_count by exact Hx. simpl count_occ.
      destruct (string_dec x w) as [->|Hne].
      * rewrite String.eqb_refl. lia.
      * apply String.eqb_neq in Hne. rewrite Hne. lia.
    + rewrite Hk. unfold tallyStep. rewrite Hx. simpl negb. cbv iota.
      rewrite keysOf_assign. simpl uniqueFrom.
      destruct (includes (keysOf t) x); [reflexivity|].
      rewrite <- app_assoc. reflexivity.
Qed.

Lemma tokens_truthy (text : string) :
  Forall (fun w => truthy w = true) (Oracle.tokenize text).
Proof.
  apply Forall_forall. intros w Hw.
  exact (TokenFacts.tokenize_truthy text w Hw).
Qed.

Lemma tally_tokens (text : string) :
  (forall w, countOf (tally text) w
             = Z.of_nat (count_occ string_dec (Oracle.tokenize text) w))
  /\ keysOf (tally text) = unique (Oracle.tokenize text).
Proof.
  unfold tally. rewrite tally_skips_empty, builder_tokens.
  destruct (tally_fold (Oracle.tokenize text) (tokens_truthy text) [])
    as [Hc Hk].
  split; [intros w; rewrite Hc; reflexivity | exact Hk].
Qed.

(** X12: the builder counts, for each word, its occurrences among the
    tokens of the corpus (the same tokens as [tokenize] of the oracle
    gives), and its keys are the distinct tokens in their order of first
    occurrence. *)
Theorem tally_counts (text : string) :
  (forall w, countOf (tally text) w
             = Z.of_nat (count_occ string_dec (Oracle.tokenize text) w))
  /\ keysOf (tally text) = unique (Oracle.tokenize text)
  /\ filter truthy (splitRuns isWhiteSpace (normalized text))
     = Oracle.tokenize text.
Proof.
  destruct (tally_tokens text) as [Hc Hk].
  split; [exact Hc|]. split; [exact Hk | apply builder_tokens].
Qed.

Lemma selected_member (text w : string) (c : Z) :
  In (w, c) (selected text)
  <-> c = Z.of_nat (count_occ string_dec (Oracle.tokenize text) w)
      /\ 10 <= c.
Proof.
  destruct (tally_tokens text) as [Hc Hk].
  unfold selected, selectedBy. rewrite BuilderFacts.selectFrom_filter.
  rewrite in_map_iff. split.
  - intros (w' & E & Hin). injection E as -> <-.
    apply filter_In in Hin as [_ Hge]. rewrite <- Hc.
    split; [reflexivity | apply Z.leb_le, Hge].
  - intros [-> Hge]. exists w. rewrite Hc. split; [reflexivity|].
    apply filter_In. split; [|rewrite Hc; apply Z.leb_le, Hge].
    apply (Permutation_in _ (SortFacts.sort_perm _ (keysOf (tally text)))).
    rewrite Hk. unfold unique. apply TokenFacts.uniqueFrom_In.
    split; [|intros []].
    apply (count_occ_In string_dec). lia.
Qed.

(** X13: the builder keeps exactly the words that occur at least 10
    times among the tokens of the corpus, each with its number of
    occurrences; it has no upper bound on the count. *)
Theorem selected_complete (text w : string) (c : Z) :
  In (w, c) (selected text)
  <-> c = Z.of_nat (count_occ string_dec (Oracle.tokenize text) w)
      /\ 10 <= c.
Proof. apply selected_member. Qed.

Local Ltac by_cases c :=
  destruct c as [[] [] [] [] [] [] [] []]; vm_compute; congruence.

Lemma lower_plain (c : ascii) :
  isLower c = true ->
  isWhiteSpace c = false /\ isTab c = false /\ isNewline c = false
  /\ isReturn c = false /\ Ascii.eqb "#" c = false.
Proof.
  destruct c as [[] [] [] [] [] [] [] []]; vm_compute; intros;
    repeat split; congruence.
Qed.

Lemma digit_plain (c : ascii) :
  isDigit c = true ->
  isWhiteSpace c = false /\ isTab c = false /\ isNewline c = false
  /\ isReturn c = false /\ N.eqb (code c) 45 = false
  /\ N.eqb (code c) 43 = false.
Proof.
  destruct c as [[] [] [] [] [] [] [] []]; vm_compute; intros;
    repeat split; congruence.
Qed.

Lemma allChars_impl (p q : ascii -> bool) (s : string) :
  (forall c, p c = true -> q c = true) ->
  allChars p s = true -> allChars q s = true.
Proof.
  intros Hpq. induction s as [|c r IH]; simpl; [auto|]. intros H.
  apply andb_prop in H as [Hc Hr]. rewrite (Hpq c Hc), (IH Hr). reflexivity.
Qed.

Lemma allChars_app (p : ascii -> bool) (a b : string) :
  allChars p a = true -> allChars p b = true -> allChars p (a +++ b) = true.
Proof.
  induction a as [|c r IH]; simpl; [auto|]. intros H Hb.
  apply andb_prop in H as [Hc Hr]. rewrite Hc, (IH Hr Hb). reflexivity.
Qed.

Lemma append_assoc (a b c : string) : (a +++ b) +++ c = a +++ b +++ c.
Proof.
  induction a as [|x r IH]; simpl; [reflexivity | rewrite IH; reflexivity].
Qed.

Lemma digitChar_spec (d : Z) :
  0 <= d <= 9 ->
  isDigit (digitChar d) = true /\ digitValue (digitChar d) = d.
Proof.
  intros H.
  assert (Hd : d = 0 \/ d = 1 \/ d = 2 \/ d = 3 \/ d = 4 \/ d = 5
               \/ d = 6 \/ d = 7 \/ d = 8 \/ d = 9) by lia.
  repeat (destruct Hd as [->|Hd]; [split; reflexivity|]).
  subst; split; reflexivity.
Qed.

Lemma showDigits_digits (fuel : nat) : forall n acc,
  allChars isDigit acc = true -> allChars isDigit (showDigits fuel n acc) = true.
Proof.
  induction fuel as [|f IH]; intros n acc Hacc; [exact Hacc|].
  simpl.
  assert (Hacc' : allChars isDigit (String (digitChar (n mod 10)) acc) = true).
  { simpl. rewrite Hacc.
    destruct (digitChar_spec (n mod 10)) as [Hd _];
      [pose proof (Z.mod_pos_bound n 10); lia|].
    rewrite Hd. reflexivity. }
  destruct (n / 10 =? 0); [exact Hacc' | apply IH, Hacc'].
Qed.

Lemma showDigits_head (fuel : nat) : forall n acc,
  exists d rest,
    showDigits (S fuel) n acc = String d rest /\ isDigit d = true.
Proof.
  induction fuel as [|f IH]; intros n acc.
  - simpl. destruct (digitChar_spec (n mod 10)) as [Hd _];
      [pose proof (Z.mod_pos_bound n 10); lia|].
    destruct (n / 10 =? 0); eexists; eexists; split; try reflexivity; exact Hd.
  - change (showDigits (S (S f)) n acc)
      with (if n / 10 =? 0 then String (digitChar (n mod 10)) acc
            else showDigits (S f) (n / 10)
                            (String (digitChar (n mod 10)) acc)).
    destruct (n / 10 =? 0); [|apply IH].
    destruct (digitChar_spec (n mod 10)) as [Hd _];
      [pose proof (Z.mod_pos_bound n 10); lia|].
    eexists; eexists; split; [reflexivity | exact Hd].
Qed.

(** Reading the digits written gives the number back. *)
Lemma readDigits_showDigits (fuel : nat) : forall n acc,
  0 <= n < 2 ^ Z.of_nat (S fuel) ->
  readDigits None (showDigits (S fuel) n acc) = readDigits (Some n) acc.
Proof.
  induction fuel as [|f IH]; intros n acc Hn;
    destruct (digitChar_spec (n mod 10)) as [Hd Hv];
    try (pose proof (Z.mod_pos_bound n 10); lia);
    pose proof (Z.div_mod n 10 ltac:(lia)) as Hdm.
  - assert (Hsmall : n / 10 = 0) by (apply Z.div_small; simpl in Hn; lia).
    cbn [showDigits]. rewrite Hsmall. cbn [Z.eqb readDigits].
    rewrite Hd, Hv. f_equal. f_equal. lia.
  - change (showDigits (S (S f)) n acc)
      with (if n / 10 =? 0 then String (digitChar (n mod 10)) acc
            else showDigits (S f) (n / 10)
                            (String (digitChar (n mod 10)) acc)).
    destruct (Z.eqb_spec (n / 10) 0) as [Hz|Hnz].
    + cbn [readDigits]. rewrite Hd, Hv. f_equal. f_equal. lia.
    + rewrite IH.
      * cbn [readDigits]. rewrite Hd, Hv. f_equal. f_equal. lia.
      * rewrite (Nat2Z.inj_succ (S f)), Z.pow_succ_r in Hn by lia.
        split; [apply Z.div_pos; lia|].
        apply Z.div_lt_upper_bound; lia.
Qed.

Lemma showZ_parse (n : Z) :
  0 <= n ->
  allChars isDigit (showZ n) = true /\ parseInt (showZ n) = Some n.
Proof.
  intros Hn. unfold showZ.
  destruct (Z.ltb_spec n 0) as [Hneg|_]; [lia|].
  split; [apply showDigits_digits; reflexivity|].
  destruct (showDigits_head (Z.to_nat (Z.log2 n)) n "") as (d & rest & E & Hd).
  pose proof (readDigits_showDigits (Z.to_nat (Z.log2 n)) n "") as Hread.
  rewrite E in *. unfold parseInt. simpl trimStart.
  destruct (digit_plain d Hd) as (Hw & _ & _ & _ & Hm & Hp).
  rewrite Hw, Hm, Hp. rewrite Hread; [reflexivity|].
  split; [exact Hn|].
  rewrite Nat2Z.inj_succ, Z2Nat.id by apply Z.log2_nonneg.
  destruct (Z.eq_dec n 0) as [->|Hne]; [reflexivity|].
  apply Z.log2_spec. lia.
Qed.

Lemma splitLines_nl (l rest : string) :
  allChars (fun c => negb (isNewline c || isReturn c)) l = true ->
  splitLines (l +++ nl +++ rest) = l :: splitLines rest.
Proof. exact (splitLines_line l rest). Qed.

Lemma split_two (w d : string) :
  allChars (fun c => negb (isTab c)) w = true ->
  allChars (fun c => negb (isTab c)) d = true ->
  splitRuns isTab (w +++ tab +++ d) = [w; d].
Proof.
  unfold splitRuns. intros Hw Hd.
  induction w as [|c r IH].
  - simpl. rewrite (fields_single isTab d Hd). reflexivity.
  - simpl in Hw. apply andb_prop in Hw as [Hc Hr].
    apply negb_true_iff in Hc.
    change (String c r +++ tab +++ d) with (String c (r +++ tab +++ d)).
    cbn [splitRunsFrom]. rewrite Hc, (IH Hr). reflexivity.
Qed.

Lemma comment_line (x : string) : Spec.entryOfLine (String "#" x) = None.
Proof.
  unfold Spec.entryOfLine. simpl. destruct x; reflexivity.
Qed.

(** The line the builder writes for an entry reads back as the entry. *)
Lemma entry_of_line (w : string) (c : Z) :
  isLowerWord w = true -> 0 < c ->
  Spec.entryOfLine (w +++ tab +++ showZ c) = Some (w, c)
  /\ allChars (fun ch => negb (isNewline ch || isReturn ch))
              (w +++ tab +++ showZ c) = true.
Proof.
  intros Hw Hc. unfold isLowerWord in Hw. apply andb_prop in Hw as [Ht Hl].
  destruct (showZ_parse c ltac:(lia)) as [Hdig Hparse].
  assert (Hwtab : allChars (fun ch => negb (isTab ch)) w = true).
  { apply (allChars_impl isLower); [|exact Hl]. intros ch Hch.
    destruct (lower_plain ch Hch) as (_ & H & _). rewrite H. reflexivity. }
  assert (Hdtab : allChars (fun ch => negb (isTab ch)) (showZ c) = true).
  { apply (allChars_impl isDigit); [|exact Hdig]. intros ch Hch.
    destruct (digit_plain ch Hch) as (_ & H & _). rewrite H. reflexivity. }
  assert (Hwws : allChars (fun ch => negb (isWhiteSpace ch)) w = true).
  { apply (allChars_impl isLower); [|exact Hl]. intros ch Hch.
    destruct (lower_plain ch Hch) as (H & _). rewrite H. reflexivity. }
  assert (Hdws : allChars (fun ch => negb (isWhiteSpace ch)) (showZ c) = true).
  { apply (allChars_impl isDigit); [|exact Hdig]. intros ch Hch.
    destruct (digit_plain ch Hch) as (H & _). rewrite H. reflexivity. }
  split.
  - unfold Spec.entryOfLine. rewrite split_two by assumption.
    rewrite (trim_solid w Hwws), (trim_solid (showZ c) Hdws), Ht.
    unfold Spec.countOfField. rewrite Hparse.
    destruct w as [|c0 r]; [discriminate|].
    simpl in Hl. apply andb_prop in Hl as [Hc0 _].
    destruct (lower_plain c0 Hc0) as (Hws0 & _ & _ & _ & Hhash).
    change (String c0 r +++ tab +++ showZ c)
      with (String c0 (r +++ tab +++ showZ c)).
    cbn [Spec.blank trimStart]. rewrite Hws0. cbn [andb].
    unfold startsWith. cbn [String.prefix].
    destruct (ascii_dec "#" c0) as [E|_];
      [subst c0; discriminate|].
    destruct (Z.eqb_spec c 0); [lia | reflexivity].
  - apply allChars_app.
    + apply (allChars_impl isLower); [|exact Hl]. intros ch Hch.
      destruct (lower_plain ch Hch) as (_ & _ & H1 & H2 & _).
      rewrite H1, H2. reflexivity.
    + apply allChars_app; [reflexivity|].
      apply (allChars_impl isDigit); [|exact Hdig]. intros ch Hch.
      destruct (digit_plain ch Hch) as (_ & _ & H1 & H2 & _).
      rewrite H1, H2. reflexivity.
Qed.

Local Abbreviation entryList :=
  (fun line : string => match Spec.entryOfLine line with
                        | Some e => [e]
                        | None => []
                        end).

Local Abbreviation goodEntry :=
  (fun e : string * Z => isLowerWord (fst e) = true /\ 0 < snd e).

(** The entries written by the builder read back one by one. *)
Lemma body_entries (sel : list (string * Z)) :
  Forall goodEntry sel ->
  flat_map entryList (splitLines (body sel +++ nl)) = sel.
Proof.
  induction sel as [|[w c] rest IH]; intros H.
  - reflexivity.
  - inversion H as [|e l [Hw Hc] Hrest]; subst. simpl in Hw, Hc.
    destruct (entry_of_line w c Hw Hc) as [Hentry Hclean].
    destruct rest as [|e' rest'].
    + change (body [(w, c)] +++ nl)
        with ((w +++ tab +++ showZ c) +++ nl +++ "").
      rewrite splitLines_nl by exact Hclean.
      cbn [flat_map]. rewrite Hentry. reflexivity.
    + change (body ((w, c) :: e' :: rest') +++ nl)
        with (((w +++ tab +++ showZ c) +++ nl +++ body (e' :: rest'))
              +++ nl).
      rewrite !(append_assoc (w +++ tab +++ showZ c)).
      rewrite (append_assoc nl).
      rewrite splitLines_nl by exact Hclean.
      cbn [flat_map]. rewrite Hentry, (IH Hrest). reflexivity.
Qed.

(** The header of the file holds no entry. *)
Lemma header_entries (n : nat) (rest : string) :
  flat_map entryList (splitLines (header n +++ rest))
  = flat_map entryList (splitLines rest).
Proof.
  assert (E : header n +++ rest =
              "# Dictionary generated from iliad.txt" +++ nl +++
              "# Words with counts >= 10 and < 100" +++ nl +++
              ("# Total unique words matching: " +++ showZ (Z.of_nat n))
              +++ nl +++
              ("# Format: word" +++ tab +++ "count") +++ nl +++
              "" +++ nl +++ rest).
  { unfold header. rewrite !append_assoc. reflexivity. }
  rewrite E.
  destruct (showZ_parse (Z.of_nat n) ltac:(lia)) as [Hdig _].
  rewrite splitLines_nl by reflexivity.
  rewrite splitLines_nl by reflexivity.
  rewrite splitLines_nl.
  2:{ apply allChars_app; [reflexivity|].
      apply (allChars_impl isDigit); [|exact Hdig]. intros ch Hch.
      destruct (digit_plain ch Hch) as (_ & _ & H1 & H2 & _).
      rewrite H1, H2. reflexivity. }
  rewrite splitLines_nl by reflexivity.
  rewrite splitLines_nl by reflexivity.
  cbn [flat_map].
  change ("# Total unique words matching: " +++ showZ (Z.of_nat n))
    with (String "#" (" Total unique words matching: "
                      +++ showZ (Z.of_nat n))).
  rewrite comment_line. reflexivity.
Qed.

(** What the loader keeps of a file: the entries of its lines. *)
Lemma loaded_entries (raw : string) :
  Oracle.words (Oracle.loadDictionary (Some raw))
  = map fst (flat_map entryList (splitLines raw))
  /\ Oracle.counts (Oracle.loadDictionary (Some raw))
     = map snd (flat_map entryList (splitLines raw)).
Proof.
  unfold Oracle.loadDictionary.
  destruct (LoaderFacts.fold_loadLine (splitLines raw) Oracle.emptyVocabulary)
    as (Hw & Hc & _).
  simpl in Hw, Hc.
  destruct (_ =? _)%nat; simpl; rewrite Hw, Hc; split; reflexivity.
Qed.

Lemma selected_good (text : string) : Forall goodEntry (selected text).
Proof.
  apply Forall_forall. intros [w c] Hin.
  apply selected_member in Hin as [Hc Hge]. simpl. split; [|lia].
  pose proof (TokenizerMore.tokenize_words text) as Hall.
  rewrite Forall_forall in Hall. apply Hall.
  apply (count_occ_In string_dec). lia.
Qed.

Lemma build_entries (text : string) :
  flat_map entryList (splitLines (build text)) = selected text.
Proof.
  unfold build. cbv zeta. rewrite header_entries.
  apply body_entries, selected_good.
Qed.

(** X14: the loader reads the file the builder writes back to the
    builder's selection: the vocabulary is the selected words in the
    order written, with their counts. *)
Theorem build_load_roundtrip (text : string) :
  Oracle.words (Oracle.loadDictionary (Some (build text)))
  = map fst (selected text)
  /\ Oracle.counts (Oracle.loadDictionary (Some (build text)))
     = map snd (selected text).
Proof.
  destruct (loaded_entries (build text)) as [Hw Hc].
  rewrite Hw, Hc, build_entries. split; reflexivity.
Qed.

End BuilderMore.

(* ================================================================== *)
(** ** From the corpus to the oracle: the builder, the loader and
       [predict] together *)
(* ================================================================== *)

Module PipelineFacts.
Import JS Builder Shape.

Lemma sorted_weaken {A : Type} (P Q : A -> A -> Prop) (l : list A) :
  (forall a b, In a l -> In b l -> P a b -> Q a b) ->
  StronglySorted P l -> StronglySorted Q l.
Proof.
  intros H Hs. induction Hs as [|x rest Hs IH Hx]; constructor.
  - apply IH. intros a b Ha Hb. apply H; right; assumption.
  - rewrite Forall_forall in *. intros y Hy.
    apply H; [left; reflexivity | right; exact Hy | apply Hx, Hy].
Qed.

Lemma sorted_map {A B : Type} (R : B -> B -> Prop) (f : A -> B)
  (l : list A) :
  StronglySorted (fun a b => R (f a) (f b)) l -> StronglySorted R (map f l).
Proof.
  induction 1 as [|x rest Hs IH Hx]; simpl; constructor; [exact IH|].
  rewrite Forall_forall in *. intros y Hy.
  apply in_map_iff in Hy as (a & <- & Ha). apply Hx, Ha.
Qed.

Lemma sorted_nth {A : Type} (R : A -> A -> Prop) (d : A) (l : list A) :
  StronglySorted R l ->
  forall a b, (a < b < List.length l)%nat -> R (nth a l d) (nth b l d).
Proof.
  induction 1 as [|x rest Hs IH Hx]; intros a b Hab; simpl in Hab; [lia|].
  destruct b as [|b]; [lia|]. destruct a as [|a]; simpl.
  - rewrite Forall_forall in Hx. apply Hx, nth_In. lia.
  - apply IH. lia.
Qed.

(** A stable sort leaves a list alone that is in order already. *)
Lemma sort_in_order {A : Type} (cmp : A -> A -> Z) (l : list A) :
  StronglySorted (fun a b => cmp a b <= 0) l -> sort cmp l = l.
Proof.
  induction 1 as [|x rest Hs IH Hx]; [reflexivity|].
  change (sort cmp (x :: rest)) with (insertSorted cmp x (sort cmp rest)).
  rewrite IH.
  destruct rest as [|y r]; [reflexivity|]. cbn [insertSorted].
  inversion Hx as [|? ? Hxy _]; subst.
  destruct (Z.ltb_spec 0 (cmp x y)); [lia | reflexivity].
Qed.

Lemma nth_seq_all {A : Type} (d : A) (l : list A) :
  map (fun i => nth i l d) (seq 0 (List.length l)) = l.
Proof.
  induction l as [|x rest IH]; [reflexivity|].
  cbn [List.length seq map nth]. rewrite <- seq_shift, map_map.
  cbn [nth]. rewrite IH. reflexivity.
Qed.

Lemma unique_distinct (l : list string) : NoDup l -> unique l = l.
Proof.
  unfold unique.
  assert (H : forall seen, NoDup l -> (forall x, In x l -> ~ In x seen) ->
                           uniqueFrom seen l = l).
  { induction l as [|x rest IH]; intros seen Hn Hd; [reflexivity|].
    inversion Hn; subst. simpl.
    assert (Hx : includes seen x = false)
      by (apply TokenFacts.includes_false, Hd; left; reflexivity).
    rewrite Hx. f_equal. apply IH; [assumption|].
    intros y Hy. rewrite in_app_iff. simpl. intros [Hs|[->|[]]].
    - apply (Hd y); [right; exact Hy | exact Hs].
    - contradiction. }
  intros Hn. apply H; [exact Hn | intros x _ []].
Qed.

(** The counts of the selection never go up. *)
Lemma selected_counts_sorted (text : string) :
  StronglySorted Z.ge (map snd (selected text)).
Proof.
  unfold selected, selectedBy. rewrite BuilderFacts.selectFrom_filter.
  fold (keys (tally text)). rewrite map_map. cbn [snd].
  apply sorted_map, SortFacts.sorted_filter.
  apply (sorted_weaken
           (fun a b => keyOrder localeCompare (tally text) a b <= 0));
    [|apply BuilderFacts.keys_sorted].
  intros a b _ _ H. apply BuilderFacts.keyOrder_le in H. lia.
Qed.

Lemma selected_words_distinct (text : string) :
  NoDup (map fst (selected text)).
Proof.
  unfold selected, selectedBy. rewrite BuilderFacts.selectFrom_filter.
  rewrite map_map. cbn [fst]. rewrite map_id.
  apply NoDup_filter.
  apply (Permutation_NoDup (SortFacts.sort_perm _ (keysOf (tally text)))).
  apply BuilderFacts.tally_nodup.
Qed.

Lemma built_vocabulary (text : string) :
  Oracle.words (Oracle.loadDictionary (Some (build text)))
  = map fst (selected text)
  /\ Oracle.counts (Oracle.loadDictionary (Some (build text)))
     = map snd (selected text).
Proof.
  destruct (BuilderMore.loaded_entries (build text)) as [Hw Hc].
  rewrite Hw, Hc, BuilderMore.build_entries. split; reflexivity.
Qed.

(** X15: a corpus in which no word occurs 10 times gives a file with no
    entry, and [predict] on the vocabulary loaded from it throws the
    error of the unavailable vocabulary in every mode. *)
Theorem sparse_corpus_unavailable (text : string) (rt : Oracle.Runtime)
  (prompt : string) (opts : Oracle.Options) (st : Oracle.State) :
  (forall w, (count_occ string_dec (Oracle.tokenize text) w < 10)%nat) ->
  selected text = []
  /\ Oracle.predict (Oracle.loadDictionary (Some (build text))) rt prompt
                    opts st
     = Some (Oracle.Throw Oracle.EMPTY_MESSAGE, st).
Proof.
  intros Hsparse.
  assert (Hsel : selected text = []).
  { destruct (selected text) as [|[w c] rest] eqn:E; [reflexivity|].
    assert (Hin : In (w, c) (selected text))
      by (rewrite E; left; reflexivity).
    apply BuilderMore.selected_member in Hin as [Hc Hge].
    specialize (Hsparse w). lia. }
  split; [exact Hsel|].
  apply RankedFacts.predict_vocabulary_unavailable_aux.
  destruct (built_vocabulary text) as [Hw _]. rewrite Hw, Hsel. reflexivity.
Qed.

Lemma sparse_corpus_unavailable_witness :
  selected "tell of doom" = []
  /\ Oracle.predict (Oracle.loadDictionary (Some (build "tell of doom")))
                    Fixture.offline "doom"
                    (Fixture.options "sample" 4 1%R) Oracle.initial
     = Some (Oracle.Throw Oracle.EMPTY_MESSAGE, Oracle.initial).
Proof.
  apply (sparse_corpus_unavailable "tell of doom").
  intros w.
  apply (Nat.le_lt_trans _ _ _ (count_occ_bound string_dec w _)).
  vm_compute. lia.
Defined.

(** X16: on a vocabulary loaded from the builder's file the ranking of
    the mode [mostLikely] is the order of the file: the tokens are the
    prompt words, then the selected words in the order written that the
    prompt does not hold, up to the requested length. *)
Theorem built_ranked_order (text w : string) (rt : Oracle.Runtime)
  (prompt : string) (opts : Oracle.Options) (st : Oracle.State) :
  (10 <= count_occ string_dec (Oracle.tokenize text) w)%nat ->
  Oracle.modeOf opts = "mostLikely" ->
  let V := Oracle.loadDictionary (Some (build text)) in
  let pu := Oracle.promptUniqueOf prompt in
  Oracle.rankedIdxs V = seq 0 (List.length (selected text))
  /\ Oracle.predict V rt prompt opts st
     = Some (Oracle.Return
               (Oracle.result
                  (pu ++ firstn (Z.to_nat (Oracle.lengthOf opts
                                           - Z.of_nat (List.length pu)))
                                (filter (fun x => negb (includes pu x))
                                        (map fst (selected text))))),
             st).
Proof.
  intros Hocc Hm V pu.
  destruct (built_vocabulary text) as [Hw Hc]. fold V in Hw, Hc.
  assert (Hin : In (w, Z.of_nat (count_occ string_dec
                                   (Oracle.tokenize text) w))
                   (selected text))
    by (apply BuilderMore.selected_member; split; [reflexivity | lia]).
  assert (Hne : Oracle.words V <> []).
  { rewrite Hw. destruct (selected text); [destruct Hin | discriminate]. }
  assert (Hidx : Oracle.rankedIdxs V = seq 0 (List.length (selected text))).
  { unfold Oracle.rankedIdxs. rewrite Hc, length_map.
    apply sort_in_order.
    apply (sorted_weaken lt); [|apply SortFacts.seq_sorted].
    intros a b _ Hb Hab. apply in_seq in Hb.
    pose proof (sorted_nth Z.ge 0 _ (selected_counts_sorted text) a b) as H.
    rewrite length_map in H. specialize (H ltac:(lia)). lia. }
  split; [exact Hidx|].
  unfold Oracle.predict, Oracle.predictFuel.
  rewrite (RankedFacts.words_nonempty V Hne), Hm.
  simpl Oracle.isLocal. cbv iota. unfold Oracle.predictLocal.
  simpl String.eqb. cbv iota.
  rewrite TokenFacts.startTokens_prompt
    by (apply TokenFacts.promptUnique_truthy
        || apply TokenFacts.promptUnique_NoDup).
  rewrite RankedFacts.fillRanked_unique, Hidx.
  replace (List.length (selected text))
    with (List.length (Oracle.words V)) by (rewrite Hw; apply length_map).
  rewrite nth_seq_all, Hw.
  rewrite <- (app_nil_r (Oracle.promptUniqueOf prompt)) at 3.
  rewrite TokenFacts.uniqueFrom_filter.
  fold (unique (map fst (selected text))).
  rewrite (unique_distinct _ (selected_words_distinct text)).
  reflexivity.
Qed.

Lemma built_ranked_order_witness :
  Oracle.rankedIdxs
    (Oracle.loadDictionary
       (Some (build "doom doom doom doom doom doom doom doom doom doom fate")))
  = seq 0 (List.length
             (selected "doom doom doom doom doom doom doom doom doom doom fate"))
  /\ Oracle.predict
       (Oracle.loadDictionary
          (Some (build "doom doom doom doom doom doom doom doom doom doom fate")))
       Fixture.offline "tell of fate"
       (Fixture.options "mostLikely" 4 1%R) Oracle.initial
     = Some (Oracle.Return
               {| Oracle.text := "Tell of fate doom.";
                  Oracle.tokens := ["tell"; "of"; "fate"; "doom"];
                  Oracle.warning := None |}, Oracle.initial).
Proof.
  apply (built_ranked_order
           "doom doom doom doom doom doom doom doom doom doom fate" "doom"
           Fixture.offline "tell of fate"
           (Fixture.options "mostLikely" 4 1%R) Oracle.initial).
  - vm_compute. lia.
  - reflexivity.
Defined.

End PipelineFacts.

(* ================================================================== *)
(** ** The verdict of the check script *)
(* ================================================================== *)

Module ScriptFacts.
Import JS Oracle Scripts.

Lemma allowedHas_In (V : Vocabulary) (t : string) :
  allowedHas V t = true <-> In t (words V).
Proof.
  unfold allowedHas, unique.
  rewrite TokenFacts.includes_In, TokenFacts.uniqueFrom_In. simpl. tauto.
Qed.

Lemma no_bad_token (V : Vocabulary) (toks : list string) :
  (List.length (filter (fun t => negb (allowedHas V t)) toks) =? 0)%nat = true
  <-> forall t, In t toks -> In t (words V).
Proof.
  rewrite Nat.eqb_eq, length_zero_iff_nil. split.
  - intros E t Ht. apply allowedHas_In.
    destruct (allowedHas V t) eqn:Ha; [reflexivity|].
    assert (Hin : In t (filter (fun t => negb (allowedHas V t)) toks))
      by (apply filter_In; rewrite Ha; auto).
    rewrite E in Hin. destruct Hin.
  - intros H. induction toks as [|t rest IH]; [reflexivity|]. simpl.
    assert (Ha : allowedHas V t = true)
      by (apply allowedHas_In, H; left; reflexivity).
    rewrite Ha. simpl. apply IH. intros u Hu. apply H. right. exact Hu.
Qed.

(** The tokens of the sampled mode: the prompt words, then words of the
    vocabulary. *)
Lemma sampled_tokens (V : Vocabulary) (rt : Runtime) (prompt : string)
  (opts : Options) (st st' : State) (toks : list string) :
  words V <> [] -> List.length (words V) = List.length (counts V) ->
  predict V rt prompt (Spec.withMode opts "sample") st
  = Some (Return (result toks), st') ->
  exists filler,
    toks = promptUniqueOf prompt ++ filler
    /\ forall t, In t filler -> In t (words V).
Proof.
  intros Hw Hlen. rewrite DelegatedFacts.predict_sample_mode by exact Hw.
  unfold predictLocal, sampleRun. simpl String.eqb. cbv iota.
  rewrite TokenFacts.startTokens_prompt
    by (apply TokenFacts.promptUnique_truthy
        || apply TokenFacts.promptUnique_NoDup).
  destruct (OracleMore.sampleLoop_range V rt
              (Z.to_nat (lengthOf opts
                 - Z.of_nat (List.length (promptUniqueOf prompt))))
              (lengthOf opts) (promptUniqueOf prompt) []
              (startWeights V rt (temperatureOf opts) (promptUniqueOf prompt))
              st) as (new & E & Hin).
  rewrite E. intros H.
  assert (Ht : promptUniqueOf prompt ++ map (fun i => nth i (words V) "") new
               = toks).
  { apply (f_equal (fun o => match o with
                             | Some (Return r, _) => tokens r
                             | _ => []
                             end)) in H. exact H. }
  exists (map (fun i => nth i (words V) "") new). split; [auto|].
  intros t Hin'. apply in_map_iff in Hin' as (i & <- & Hi).
  apply nth_In. rewrite Hlen.
  rewrite <- (OracleMore.startWeights_length V rt (temperatureOf opts)
                (promptUniqueOf prompt)).
  apply Hin, Hi.
Qed.

(** X17: the check script always ends: with the code 1 exactly when no
    word is loaded, and with the code 2 exactly when the oracle fell back
    to sampling (its result carries a warning) and the dictionary does
    not hold the word [prophecy]; otherwise with the code 0. *)
Theorem testOracle_verdict (file : option string) (rt : Runtime)
  (st : State) :
  exists run st',
    testOracle file rt st = Some (run, st')
    /\ (exitCode run = 0 \/ exitCode run = 1 \/ exitCode run = 2)
    /\ (exitCode run = 1 <-> words (loadDictionary file) = [])
    /\ (exitCode run = 2 <->
        exists res,
          predict (loadDictionary file) rt "prophecy" testOptions st
          = Some (Return res, st')
          /\ warning res <> None
          /\ ~ In "prophecy" (words (loadDictionary file))).
Proof.
  unfold testOracle. cbv zeta. set (V := loadDictionary file).
  destruct (words V) as [|w0 ws] eqn:Hwords.
  - rewrite (RankedFacts.predict_vocabulary_unavailable_aux V rt _ _ st Hwords).
    eexists. exists st. split; [reflexivity|]. simpl.
    split; [auto|]. split; [tauto|]. split; [discriminate|].
    intros (res & E & _). discriminate.
  - assert (Hw : words V <> []) by (rewrite Hwords; discriminate).
    rewrite <- Hwords.
    destruct (DelegatedFacts.predict_delegated V rt "prophecy" testOptions st
                Hw eq_refl) as (toks & d' & Hs & Hcases).
    destruct Hcases as [(k & response & _ & _ & _ & Hok & E)
                       |(k & w & _ & _ & _ & E)].
    + rewrite E.
      apply (DelegatedFacts.adheres_iff file _ Hw) in Hok as [_ Hall].
      fold V in Hall.
      assert (Hnone : (List.length
                         (filter (fun t => negb (allowedHas V t))
                                 (tokens (result (responseTokens response))))
                       =? 0)%nat = true)
        by (apply no_bad_token; exact Hall).
      rewrite Hnone. simpl negb. cbv iota.
      eexists. eexists. split; [reflexivity|]. simpl.
      split; [auto|]. split; [split; [discriminate | contradiction]|].
      split; [discriminate|].
      intros (res & E' & Hwarn & _). injection E' as <-.
      exfalso. apply Hwarn. reflexivity.
    + rewrite E.
      destruct (sampled_tokens V rt "prophecy" testOptions _ _ toks Hw
                  (OracleMore.loaded_lengths file) (Hs (calls st)))
        as (filler & -> & Hfill).
      change (promptUniqueOf "prophecy") with ["prophecy"] in *.
      change (tokens (setWarning (result (["prophecy"] ++ filler)) w))
        with ("prophecy" :: filler).
      destruct (List.length
                  (filter (fun t => negb (allowedHas V t))
                          ("prophecy" :: filler)) =? 0)%nat eqn:Hbad.
      * simpl negb. cbv iota.
        pose proof (proj1 (no_bad_token V _) Hbad) as Hgood.
        eexists. eexists. split; [reflexivity|]. simpl.
        split; [auto|]. split; [split; [discriminate | contradiction]|].
        split; [discriminate|].
        intros (res & _ & _ & Hout). exfalso.
        apply Hout, Hgood. left. reflexivity.
      * simpl negb. cbv iota.
        eexists. eexists. split; [reflexivity|]. simpl.
        split; [auto|]. split; [split; [discriminate | contradiction]|].
        split; [|reflexivity]. intros _.
        eexists. split; [reflexivity|]. split; [discriminate|].
        intros Hin.
        assert (Hall : forall t, In t ("prophecy" :: filler) -> In t (words V))
          by (intros t [<-|Ht]; [exact Hin | apply Hfill, Ht]).
        apply (proj2 (no_bad_token V _)) in Hall.
        rewrite Hall in Hbad. discriminate.
Qed.



End ScriptFacts.

(* ================================================================== *)
(** ** Properties of the similarity score and of the cleaning of
       translations *)
(* ================================================================== *)

Module TranslatorFacts.
Import JS Shape Translator.

Lemma splitRunsFrom_nonempty (cls : ascii -> bool) (s : string) :
  forall inRun, splitRunsFrom cls inRun s <> [].
Proof.
  induction s as [|c r IH]; intros inRun; simpl; [discriminate|].
  destruct (cls c).
  - destruct inRun; [apply IH | discriminate].
  - specialize (IH false). destruct (splitRunsFrom cls false r);
      [contradiction | discriminate].
Qed.

(** The set of words of a text is never empty: a text with no word has
    the empty string for its only word. *)
Lemma wordSet_nonempty (s : string) : wordSet s <> [].
Proof.
  unfold wordSet, unique, splitRuns.
  pose proof (splitRunsFrom_nonempty isWhiteSpace (toLowerCase s) false) as H.
  destruct (splitRunsFrom isWhiteSpace false (toLowerCase s));
    [contradiction | discriminate].
Qed.

Lemma wordSet_NoDup (s : string) : NoDup (wordSet s).
Proof. apply TokenFacts.uniqueFrom_NoDup. Qed.

Section Sets.
Variables a b : list string.

Local Abbreviation inter := (unique (filter (fun x => includes b x) a)).
Local Abbreviation union := (unique (a ++ b)).

Lemma inter_In (x : string) : In x inter <-> In x a /\ In x b.
Proof.
  unfold unique. rewrite TokenFacts.uniqueFrom_In, filter_In.
  rewrite TokenFacts.includes_In. simpl. tauto.
Qed.

Lemma union_In (x : string) : In x union <-> In x a \/ In x b.
Proof.
  unfold unique. rewrite TokenFacts.uniqueFrom_In, in_app_iff. simpl. tauto.
Qed.

Lemma inter_le_union : (List.length inter <= List.length union)%nat.
Proof.
  apply NoDup_incl_length; [apply TokenFacts.uniqueFrom_NoDup|].
  intros x Hx. apply union_In. apply inter_In in Hx. tauto.
Qed.

Lemma union_positive : a <> [] -> (0 < List.length union)%nat.
Proof.
  intros Ha.
  assert (Hx : exists x, In x a)
    by (destruct a as [|x r]; [contradiction | exists x; left; reflexivity]).
  destruct Hx as [x Hx].
  assert (Hu : In x union) by (apply union_In; left; exact Hx).
  destruct union; [destruct Hu | simpl; lia].
Qed.

Lemma inter_all :
  List.length inter = List.length union <-> forall x, In x a <-> In x b.
Proof.
  split.
  - intros E.
    assert (Hincl : incl union inter).
    { apply NoDup_length_incl; [apply TokenFacts.uniqueFrom_NoDup|lia|].
      intros x Hx. apply union_In. apply inter_In in Hx. tauto. }
    intros x. split; intros Hx.
    + apply (inter_In x), Hincl, union_In. left. exact Hx.
    + apply (inter_In x), Hincl, union_In. right. exact Hx.
  - intros H. apply Permutation_length.
    apply NoDup_Permutation; try apply TokenFacts.uniqueFrom_NoDup.
    intros x. rewrite inter_In, union_In, (H x). tauto.
Qed.

Lemma inter_none :
  List.length inter = 0%nat <-> forall x, In x a -> ~ In x b.
Proof.
  rewrite length_zero_iff_nil. split.
  - intros E x Ha Hb.
    assert (Hx : In x inter) by (apply inter_In; auto).
    rewrite E in Hx. destruct Hx.
  - intros H. destruct inter as [|x r] eqn:E; [reflexivity|].
    assert (Hx : In x inter) by (rewrite E; left; reflexivity).
    apply inter_In in Hx as [Ha Hb]. destruct (H x Ha Hb).
Qed.

End Sets.

Lemma inter_sym (a b : list string) :
  List.length (unique (filter (fun x => includes b x) a))
  = List.length (unique (filter (fun x => includes a x) b)).
Proof.
  apply Permutation_length.
  apply NoDup_Permutation; try apply TokenFacts.uniqueFrom_NoDup.
  intros x. rewrite !inter_In. tauto.
Qed.

Lemma union_sym (a b : list string) :
  List.length (unique (a ++ b)) = List.length (unique (b ++ a)).
Proof.
  apply Permutation_length.
  apply NoDup_Permutation; try apply TokenFacts.uniqueFrom_NoDup.
  intros x. rewrite !union_In. tauto.
Qed.

(** The score is the share of the common words among all the words. *)
Lemma similarity_ratio (original final : string) :
  calculateTextSimilarity original final
  = (INR (List.length (unique (filter (fun x => includes (wordSet final) x)
                                      (wordSet original))))
     / INR (List.length (unique (wordSet original ++ wordSet final))))%R.
Proof.
  unfold calculateTextSimilarity. cbv zeta.
  pose proof (wordSet_nonempty original) as Ho.
  pose proof (union_positive (wordSet original) (wordSet final) Ho) as Hu.
  destruct (wordSet original) as [|x r] eqn:E; [contradiction|].
  cbn [List.length Nat.eqb].
  destruct (Nat.ltb_spec 0 (List.length (unique ((x :: r) ++ wordSet final))));
    [reflexivity | lia].
Qed.

Lemma ratio_facts (i u : nat) :
  (i <= u)%nat -> (0 < u)%nat ->
  (0 <= INR i / INR u <= 1)%R
  /\ ((INR i / INR u = 0)%R <-> i = 0%nat)
  /\ ((INR i / INR u = 1)%R <-> i = u).
Proof.
  intros Hle Hpos.
  assert (Hu : (0 < INR u)%R) by (apply lt_0_INR; exact Hpos).
  assert (Hi : (0 <= INR i)%R) by apply pos_INR.
  assert (Hiu : (INR i <= INR u)%R) by (apply le_INR; exact Hle).
  assert (Hinv : (0 < / INR u)%R) by (apply Rinv_0_lt_compat; exact Hu).
  assert (Hmul : (INR i / INR u * INR u = INR i)%R) by (field; lra).
  split; [split|split; split].
  - unfold Rdiv. apply Rmult_le_pos; lra.
  - apply (Rmult_le_reg_r (INR u)); [exact Hu|]. rewrite Hmul. lra.
  - intros E. rewrite E in Hmul. apply INR_eq. simpl. lra.
  - intros ->. simpl. unfold Rdiv. lra.
  - intros E. rewrite E in Hmul. apply INR_eq. lra.
  - intros ->. field. lra.
Qed.

(** X19: the similarity score lies between 0 and 1 and does not depend
    on the order of its arguments; it is 0 exactly when the two texts
    share no word and 1 exactly when they have the same words, so that a
    text scores 1 against itself, the empty text too: the set of words
    of a text is never empty, and no guard of the function gives 0. *)
Theorem similarity_score (original final : string) :
  let s := calculateTextSimilarity original final in
  (0 <= s <= 1)%R
  /\ s = calculateTextSimilarity final original
  /\ (s = 0%R <->
      forall w, In w (wordSet original) -> ~ In w (wordSet final))
  /\ (s = 1%R <->
      forall w, In w (wordSet original) <-> In w (wordSet final))
  /\ calculateTextSimilarity original original = 1%R
  /\ wordSet original <> [].
Proof.
  cbv zeta. rewrite !similarity_ratio.
  set (a := wordSet original). set (b := wordSet final).
  destruct (ratio_facts _ _ (inter_le_union a b)
              (union_positive a b (wordSet_nonempty original)))
    as (Hrange & Hzero & Hone).
  split; [exact Hrange|].
  split; [rewrite (inter_sym a b), (union_sym a b); reflexivity|].
  split; [rewrite Hzero; apply inter_none|].
  split; [rewrite Hone; apply inter_all|].
  split; [|apply wordSet_nonempty].
  destruct (ratio_facts _ _ (inter_le_union a a)
              (union_positive a a (wordSet_nonempty original)))
    as (_ & _ & Hsame).
  apply Hsame, inter_all. tauto.
Qed.

(** [t] occurs in [s]. *)
Local Abbreviation occurs t s := (exists p q : string, s = p +++ t +++ q).

Lemma prefix_app (t s : string) :
  String.prefix t s = true <-> exists q, s = t +++ q.
Proof.
  revert s. induction t as [|c t IH]; intros s.
  - split; [intros _; exists s; reflexivity | destruct s; reflexivity].
  - destruct s as [|d s]; cbn [String.prefix];
      [split; [discriminate | intros [q H]; discriminate]|].
    destruct (ascii_dec c d) as [->|Hne].
    + rewrite IH. split; intros [q H]; exists q.
      * rewrite H. reflexivity.
      * simpl in H. congruence.
    + split; [discriminate | intros [q H]; simpl in H; congruence].
Qed.

Lemma contains_occurs (s t : string) : contains s t = true <-> occurs t s.
Proof.
  induction s as [|c r IH].
  - cbn [contains]. rewrite orb_false_r, prefix_app. split.
    + intros [q H]. exists "", q. exact H.
    + intros (p & q & H). destruct p; [exists q; exact H | discriminate].
  - cbn [contains]. rewrite orb_true_iff, prefix_app, IH. split.
    + intros [[q H]|(p & q & H)].
      * exists "", q. exact H.
      * exists (String c p), q. rewrite H. reflexivity.
    + intros (p & q & H). destruct p as [|d p].
      * left. exists q. exact H.
      * right. exists p, q. simpl in H. congruence.
Qed.

Lemma append_nil_r (s : string) : s +++ "" = s.
Proof. induction s as [|c r IH]; simpl; [reflexivity | rewrite IH; reflexivity]. Qed.

(** What occurs in a part of a text occurs in the text. *)
Lemma contains_part (s part t : string) :
  occurs part s -> contains part t = true -> contains s t = true.
Proof.
  intros (p & q & ->) H. apply contains_occurs in H as (p' & q' & ->).
  apply contains_occurs. exists (p +++ p'), (q' +++ q).
  rewrite !BuilderMore.append_assoc. reflexivity.
Qed.

Lemma trimStart_part (s : string) : exists p, s = p +++ trimStart s.
Proof.
  induction s as [|c r [p IH]]; [exists ""; reflexivity|]. simpl.
  destruct (isWhiteSpace c).
  - exists (String c p). simpl. rewrite <- IH. reflexivity.
  - exists "". reflexivity.
Qed.

Lemma trimEnd_part (s : string) : exists q, s = trimEnd s +++ q.
Proof.
  induction s as [|c r [q IH]]; [exists ""; reflexivity|]. simpl.
  destruct (trimEnd r) as [|d r'] eqn:E.
  - destruct (isWhiteSpace c).
    + exists (String c r). reflexivity.
    + exists q. simpl in *. rewrite <- IH. reflexivity.
  - exists q. simpl. rewrite IH at 1. reflexivity.
Qed.

Lemma trim_part (s : string) : occurs (trim s) s.
Proof.
  unfold trim. destruct (trimEnd_part s) as [q Hq].
  destruct (trimStart_part (trimEnd s)) as [p Hp].
  exists p, q. rewrite Hq at 1. rewrite Hp at 1.
  rewrite BuilderMore.append_assoc. reflexivity.
Qed.

Lemma before_part (s t : string) : exists q, s = before s t +++ q.
Proof.
  induction s as [|c r [q IH]].
  - exists "". destruct t; reflexivity.
  - cbn [before]. destruct (String.prefix t (String c r)).
    + exists (String c r). reflexivity.
    + exists q. simpl. rewrite <- IH. reflexivity.
Qed.

Lemma prefix_trans (a b c : string) :
  String.prefix a b = true -> String.prefix b c = true ->
  String.prefix a c = true.
Proof.
  rewrite !prefix_app. intros [q ->] [q' ->]. exists (q +++ q').
  apply BuilderMore.append_assoc.
Qed.

(** The text before the first occurrence of [t] holds no [t]. *)
Lemma before_free (s t : string) :
  t <> "" -> contains (before s t) t = false.
Proof.
  intros Ht. induction s as [|c r IH].
  - cbn [before]. destruct (String.prefix t "") eqn:E.
    + destruct t; [contradiction | discriminate].
    + cbn [contains]. rewrite E. reflexivity.
  - cbn [before]. destruct (String.prefix t (String c r)) eqn:E.
    + cbn [contains]. destruct t; [contradiction | reflexivity].
    + cbn [contains]. rewrite IH, orb_false_r.
      destruct (String.prefix t (String c (before r t))) eqn:E'; [|reflexivity].
      assert (Hp : String.prefix (String c (before r t)) (String c r) = true).
      { apply prefix_app. destruct (before_part r t) as [q Hq].
        exists q. simpl. rewrite <- Hq. reflexivity. }
      rewrite (prefix_trans _ _ _ E' Hp) in E. discriminate.
Qed.

Lemma splitOn_nonempty (sep : ascii) (s : string) : splitOn sep s <> [].
Proof.
  induction s as [|c r IH]; simpl; [discriminate|].
  destruct (Ascii.eqb c sep); [discriminate|].
  destruct (splitOn sep r); [contradiction | discriminate].
Qed.

(** The first line of a text starts it. *)
Lemma first_line (sep : ascii) (s : string) :
  exists q, s = hd "" (splitOn sep s) +++ q.
Proof.
  induction s as [|c r [q IH]]; simpl.
  - exists "". reflexivity.
  - destruct (Ascii.eqb c sep).
    + exists (String c r). reflexivity.
    + pose proof (splitOn_nonempty sep r) as Hne.
      destruct (splitOn sep r) as [|l0 rest]; [contradiction|].
      exists q. simpl in *. rewrite <- IH. reflexivity.
Qed.

(** A line of a text is a part of it. *)
Lemma line_part (sep : ascii) (s l : string) :
  In l (splitOn sep s) -> occurs l s.
Proof.
  revert l. induction s as [|c r IH]; intros l; simpl.
  - intros [<-|[]]. exists "", "". reflexivity.
  - destruct (Ascii.eqb c sep).
    + intros [<-|H].
      * exists "", (String c r). reflexivity.
      * destruct (IH l H) as (p & q & ->). exists (String c p), q. reflexivity.
    + pose proof (splitOn_nonempty sep r) as Hne.
      destruct (first_line sep r) as [q Hq].
      destruct (splitOn sep r) as [|l0 rest]; [contradiction|].
      simpl. intros [<-|H].
      * exists "", q. simpl in *. rewrite <- Hq. reflexivity.
      * destruct (IH l (or_intror H)) as (p & q' & ->).
        exists (String c p), q'. reflexivity.
Qed.

Local Abbreviation oneLine t :=
  (allChars (fun c => negb (Ascii.eqb c newline)) t = true).

Lemma prefix_line (x z : string) : forall t,
  oneLine t -> String.prefix t (x +++ nl +++ z) = true ->
  String.prefix t x = true.
Proof.
  induction x as [|d x IH]; intros t Ht H.
  - destruct t as [|c t]; [reflexivity|].
    simpl in Ht. apply andb_prop in Ht as [Hc _].
    apply negb_true_iff, Ascii.eqb_neq in Hc.
    change ("" +++ nl +++ z) with (String newline z) in H.
    cbn [String.prefix] in H.
    destruct (ascii_dec c newline); [contradiction | discriminate].
  - destruct t as [|c t]; [reflexivity|].
    simpl in Ht. apply andb_prop in Ht as [_ Ht].
    change (String d x +++ nl +++ z) with (String d (x +++ nl +++ z)) in H.
    cbn [String.prefix] in *.
    destruct (ascii_dec c d); [|discriminate]. apply (IH t Ht H).
Qed.

Lemma contains_prefix (s t : string) :
  String.prefix t s = true -> contains s t = true.
Proof. intros H. destruct s; cbn [contains]; rewrite H; reflexivity. Qed.

Lemma contains_tail (c : ascii) (s t : string) :
  contains s t = true -> contains (String c s) t = true.
Proof. intros H. cbn [contains]. rewrite H. apply orb_true_r. Qed.

(** A text of one line that occurs in two texts joined by a line feed
    occurs in one of them. *)
Lemma contains_sep (x z t : string) :
  t <> "" -> oneLine t ->
  contains (x +++ nl +++ z) t = true ->
  contains x t = true \/ contains z t = true.
Proof.
  intros Hne Ht. induction x as [|d x IH]; intros H.
  - change ("" +++ nl +++ z) with (String newline z) in H.
    cbn [contains] in H. apply orb_true_iff in H as [H|H]; [|right; exact H].
    left. apply contains_prefix.
    apply (prefix_line "" z t Ht). exact H.
  - change (String d x +++ nl +++ z) with (String d (x +++ nl +++ z)) in H.
    cbn [contains] in H. apply orb_true_iff in H as [H|H].
    + left. apply contains_prefix. apply (prefix_line (String d x) z t Ht H).
    + destruct (IH H) as [H'|H']; [left | right; exact H'].
      apply contains_tail, H'.
Qed.

Lemma contains_join (t : string) (ls : list string) :
  t <> "" -> oneLine t ->
  contains (join nl ls) t = true ->
  exists l, In l ls /\ contains l t = true.
Proof.
  intros Hne Ht. induction ls as [|x rest IH]; intros H.
  - cbn in H. destruct t; [contradiction | discriminate].
  - destruct rest as [|y rest'].
    + exists x. split; [left; reflexivity | exact H].
    + change (join nl (x :: y :: rest'))
        with (x +++ nl +++ join nl (y :: rest')) in H.
      destruct (contains_sep _ _ _ Hne Ht H) as [H'|H'].
      * exists x. split; [left; reflexivity | exact H'].
      * destruct (IH H') as (l & Hl & Hc). exists l. split; [right|]; assumption.
Qed.

Lemma join_consHead (c : ascii) (fs : list string) :
  fs <> [] -> join nl (consHead c fs) = String c (join nl fs).
Proof.
  intros H. destruct fs as [|l0 [|l1 rest]]; [contradiction| |]; reflexivity.
Qed.

(** Joining the lines of a text gives the text back. *)
Lemma join_lines (s : string) : join nl (splitOn newline s) = s.
Proof.
  induction s as [|c r IH]; [reflexivity|]. cbn [splitOn].
  pose proof (splitOn_nonempty newline r) as Hne.
  destruct (Ascii.eqb_spec c newline) as [->|Hc].
  - destruct (splitOn newline r) as [|l0 rest] eqn:E; [contradiction|].
    change (join nl ("" :: l0 :: rest))
      with (String newline (join nl (l0 :: rest))).
    rewrite IH. reflexivity.
  - rewrite join_consHead by exact Hne. rewrite IH. reflexivity.
Qed.

Lemma filter_all {A : Type} (p : A -> bool) (l : list A) :
  (forall x, In x l -> p x = true) -> filter p l = l.
Proof.
  induction l as [|x rest IH]; intros H; [reflexivity|]. simpl.
  rewrite (H x (or_introl eq_refl)), IH; [reflexivity|].
  intros y Hy. apply H. right. exact Hy.
Qed.

(** Trimming, cutting at a trigger and dropping lines add no occurrence
    of a text of one line. *)
Lemma trim_keeps (s t : string) :
  contains (trim s) t = true -> contains s t = true.
Proof. apply contains_part, trim_part. Qed.

Lemma cutAt_keeps (x trigger t : string) :
  contains (cutAt x trigger) t = true -> contains x t = true.
Proof.
  unfold cutAt. destruct (contains x trigger); [|auto].
  intros H. apply trim_keeps in H.
  destruct (before_part x trigger) as [q Hq].
  apply (contains_part x (before x trigger)); [|exact H].
  exists "", q. exact Hq.
Qed.

Lemma lines_keep (p : string -> bool) (x t : string) :
  t <> "" -> oneLine t ->
  contains (trim (join nl (filter p (splitOn newline x)))) t = true ->
  contains x t = true.
Proof.
  intros Hne Ht H. apply trim_keeps in H.
  destruct (contains_join t _ Hne Ht H) as (l & Hl & Hc).
  apply filter_In in Hl as [Hl _].
  apply (contains_part x l); [|exact Hc].
  apply (line_part newline), Hl.
Qed.

Lemma dropBullets_keeps (x t : string) :
  t <> "" -> oneLine t ->
  contains (dropBullets x) t = true -> contains x t = true.
Proof.
  intros Hne Ht. unfold dropBullets.
  destruct (contains x "*" && _)%bool; [|auto].
  apply lines_keep; assumption.
Qed.

Lemma dropExplained_keeps (x t : string) :
  t <> "" -> oneLine t ->
  contains (dropExplained x) t = true -> contains x t = true.
Proof. intros Hne Ht. apply lines_keep; assumption. Qed.

Lemma fold_keeps (ts : list string) : forall x t,
  contains (fold_left cutAt ts x) t = true -> contains x t = true.
Proof.
  induction ts as [|t0 ts IH]; intros x t H; [exact H|].
  simpl in H. apply IH in H. apply (cutAt_keeps x t0 t H).
Qed.

Lemma cutAt_free (x t : string) : t <> "" -> contains (cutAt x t) t = false.
Proof.
  intros Hne. unfold cutAt. destruct (contains x t) eqn:E; [|exact E].
  destruct (contains (trim (before x t)) t) eqn:E'; [|reflexivity].
  apply trim_keeps in E'. rewrite before_free in E' by exact Hne.
  discriminate.
Qed.

Lemma fold_free (ts : list string) : forall x t,
  In t ts -> t <> "" -> contains (fold_left cutAt ts x) t = false.
Proof.
  induction ts as [|t0 ts IH]; intros x t Hin Hne; [destruct Hin|].
  destruct Hin as [->|Hin]; simpl.
  - destruct (contains (fold_left cutAt ts (cutAt x t)) t) eqn:E;
      [|reflexivity].
    apply fold_keeps in E. rewrite cutAt_free in E by exact Hne. discriminate.
  - apply IH; assumption.
Qed.

Lemma triggers_plain :
  Forall (fun t => t <> "" /\ oneLine t) commentaryTriggers.
Proof. repeat constructor; discriminate. Qed.

Lemma clean_free (translation t : string) :
  In t commentaryTriggers -> contains (cleanTranslation translation) t = false.
Proof.
  intros Hin.
  pose proof triggers_plain as Hp. rewrite Forall_forall in Hp.
  destruct (Hp t Hin) as [Hne Ht].
  destruct (contains (cleanTranslation translation) t) eqn:E; [|reflexivity].
  unfold cleanTranslation in E.
  apply dropExplained_keeps in E; [|assumption..].
  apply dropBullets_keeps in E; [|assumption..].
  rewrite fold_free in E by assumption. discriminate.
Qed.

Lemma clean_trimmed (translation : string) :
  trim (cleanTranslation translation) = cleanTranslation translation.
Proof. unfold cleanTranslation, dropExplained. apply StringFacts.trim_idem. Qed.

(** X20: whatever the text, its cleaned form holds none of the
    commentary triggers, and it starts and ends with no white space. *)
Theorem clean_no_commentary (translation : string) :
  Forall (fun t => contains (cleanTranslation translation) t = false)
         commentaryTriggers
  /\ trim (cleanTranslation translation) = cleanTranslation translation.
Proof.
  split; [|apply clean_trimmed].
  apply Forall_forall. intros t Hin. apply clean_free, Hin.
Qed.

Lemma fold_same (ts : list string) (x : string) :
  Forall (fun t => contains x t = false) ts -> fold_left cutAt ts x = x.
Proof.
  induction 1 as [|t ts Ht _ IH]; [reflexivity|]. simpl.
  unfold cutAt at 2. rewrite Ht. exact IH.
Qed.

(** X21: a text that holds no commentary trigger, no star and no opening
    parenthesis is only trimmed by the cleaning. *)
Theorem clean_plain (translation : string) :
  Forall (fun t => contains translation t = false) commentaryTriggers ->
  contains translation "*" = false ->
  contains translation "(" = false ->
  cleanTranslation translation = trim translation.
Proof.
  intros Htrig Hstar Hparen.
  assert (Hkeep : forall t, contains translation t = false ->
                            contains (trim translation) t = false).
  { intros t H. destruct (contains (trim translation) t) eqn:E; [|reflexivity].
    apply trim_keeps in E. congruence. }
  unfold cleanTranslation. rewrite fold_same.
  2:{ apply Forall_forall. intros t Hin. rewrite Forall_forall in Htrig.
      apply Hkeep, Htrig, Hin. }
  unfold dropBullets. rewrite (Hkeep _ Hstar). cbn [andb].
  unfold dropExplained. rewrite filter_all.
  - rewrite join_lines. apply StringFacts.trim_idem.
  - intros l Hl. unfold explains.
    destruct (contains l "(") eqn:E; [|reflexivity].
    apply (contains_part (trim translation) l) in E;
      [|apply (line_part newline), Hl].
    rewrite (Hkeep _ Hparen) in E. discriminate.
Qed.

Lemma clean_plain_witness :
  cleanTranslation "  Sing, goddess, of the wrath  "
  = trim "  Sing, goddess, of the wrath  ".
Proof.
  apply clean_plain; [repeat constructor | reflexivity | reflexivity].
Defined.

(** What a call with the prompt [prompt] comes to: one call of the
    service with the model and the temperature of the engine; the reply
    cleaned, or an error that wraps the message of the failure. *)
Local Abbreviation settled generate engine prompt calls r :=
  (snd r = S calls
   /\ fst r
      = match generate calls%nat
                {| Oracle.req_model := modelName engine;
                   Oracle.req_prompt := prompt;
                   Oracle.req_temperature := temperature engine |} with
        | Oracle.Responded (Some response) =>
            Returned (cleanTranslation response)
        | Oracle.Responded None =>
            Thrown ("Translation failed: " +++ UNDEFINED_TRIM)
        | Oracle.Failed message => Thrown ("Translation failed: " +++ message)
        end
   /\ (forall translation,
         fst r = Returned translation ->
         Forall (fun t => contains translation t = false) commentaryTriggers
         /\ trim translation = translation)
   /\ (forall message,
         fst r = Thrown message ->
         startsWith message "Translation failed: " = true)).

Lemma translateWith_settled
  (generate : nat -> Oracle.GenerateRequest -> Oracle.GenerateReply)
  (engine : Engine) (prompt : string) (calls : nat) :
  settled generate engine prompt calls
          (translateWith generate engine prompt calls).
Proof.
  unfold translateWith. cbv zeta.
  destruct (generate calls _) as [[response|]|message]; cbn [fst snd];
    (split; [reflexivity|]); (split; [reflexivity|]); split;
    intros x E; try discriminate; injection E as <-.
  - split; [|apply clean_trimmed].
    apply Forall_forall. intros t Hin. apply clean_free, Hin.
  - reflexivity.
  - apply prefix_app. exists message. reflexivity.
Qed.

Lemma startsWith_app (p rest : string) : startsWith (p +++ rest) p = true.
Proof. apply prefix_app. exists rest. reflexivity. Qed.

(** X22: a translation makes one call of the service, with the model and
    the temperature of the engine and a prompt that holds the text to
    translate: the prompt of the caller followed by the text when one is
    given, the same in both directions, and the fixed instruction of the
    direction otherwise.  The translation returned is the reply of that
    call cleaned, so that it holds no commentary trigger; a failure of
    the service, or a reply without text, is thrown again as an error
    whose message starts with [Translation failed: ]. *)
Theorem translation_settled
  (generate : nat -> Oracle.GenerateRequest -> Oracle.GenerateReply)
  (engine : Engine) (text : string) (customPrompt : option string)
  (calls : nat) :
  exists toEnglish toGreek,
    settled generate engine toEnglish calls
            (translateToEnglish generate engine text customPrompt calls)
    /\ settled generate engine toGreek calls
               (translateToGreek generate engine text customPrompt calls)
    /\ contains toEnglish text = true
    /\ contains toGreek text = true
    /\ match customPrompt with
       | Some (String c p) =>
           toEnglish = customPromptOf text (String c p)
           /\ toGreek = toEnglish
           /\ startsWith toEnglish (String c p) = true
       | _ =>
           toEnglish = greekToEnglishPrompt text
           /\ toGreek = englishToGreekPrompt text
           /\ startsWith toEnglish
                "Translate this Ancient Greek text to English." = true
           /\ startsWith toGreek
                "Translate this English text to Ancient Greek" = true
       end.
Proof.
  unfold translateToEnglish, translateToGreek, translateWithCustomPrompt,
    translateGreekToEnglish, translateEnglishToGreek.
  assert (Hcustom : forall p, contains (customPromptOf text p) text = true).
  { intros p. apply contains_occurs.
    exists (p +++ nl +++ nl +++ "Text to translate:" +++ nl),
      (nl +++ nl +++ "Translation:").
    unfold customPromptOf. rewrite !BuilderMore.append_assoc. reflexivity. }
  assert (Henglish : contains (greekToEnglishPrompt text) text = true).
  { apply contains_occurs.
    exists ("Translate this Ancient Greek text to English. " +++ nl
            +++ nl
            +++ "IMPORTANT: Provide ONLY the English translation. Do not include:"
            +++ nl
            +++ "- Notes or explanations" +++ nl
            +++ "- Commentary about translation choices  " +++ nl
            +++ "- Analysis of vocabulary or style" +++ nl
            +++ "- Any text after the translation" +++ nl
            +++ nl
            +++ "Ancient Greek:" +++ nl),
      (nl +++ nl +++ "English:").
    unfold greekToEnglishPrompt. rewrite !BuilderMore.append_assoc.
    reflexivity. }
  assert (Hgreek : contains (englishToGreekPrompt text) text = true).
  { apply contains_occurs.
    exists ("Translate this English text to Ancient Greek in Homeric style."
            +++ nl
            +++ nl
            +++ "IMPORTANT: Provide ONLY the Ancient Greek translation. Do not include:"
            +++ nl
            +++ "- Notes about vocabulary choices" +++ nl
            +++ "- Explanations of poetic devices" +++ nl
            +++ "- Commentary about style" +++ nl
            +++ "- Any text after the translation" +++ nl
            +++ nl
            +++ "English:" +++ nl),
      (nl +++ nl +++ "Ancient Greek:").
    unfold englishToGreekPrompt. rewrite !BuilderMore.append_assoc.
    reflexivity. }
  destruct customPrompt as [[|c p]|]; cbn [given truthy].
  - exists (greekToEnglishPrompt text), (englishToGreekPrompt text).
    split; [apply translateWith_settled|].
    split; [apply translateWith_settled|].
    split; [exact Henglish|]. split; [exact Hgreek|].
    split; [reflexivity|]. split; [reflexivity|].
    split; reflexivity.
  - exists (customPromptOf text (String c p)),
      (customPromptOf text (String c p)).
    split; [apply translateWith_settled|].
    split; [apply translateWith_settled|].
    split; [apply Hcustom|]. split; [apply Hcustom|].
    split; [reflexivity|]. split; [reflexivity|].
    apply startsWith_app.
  - exists (greekToEnglishPrompt text), (englishToGreekPrompt text).
    split; [apply translateWith_settled|].
    split; [apply translateWith_settled|].
    split; [exact Henglish|]. split; [exact Hgreek|].
    split; [reflexivity|]. split; [reflexivity|].
    split; reflexivity.
Qed.

Lemma occurs_trans (a b c : string) : occurs a b -> occurs b c -> occurs a c.
Proof.
  intros (p & q & ->) (p' & q' & ->). exists (p' +++ p), (q +++ q').
  rewrite !BuilderMore.append_assoc. reflexivity.
Qed.

Lemma occurs_refl (a : string) : occurs a a.
Proof. exists "", "". simpl. rewrite append_nil_r. reflexivity. Qed.

Lemma toLowerCase_app (a b : string) :
  toLowerCase (a +++ b) = toLowerCase a +++ toLowerCase b.
Proof.
  unfold toLowerCase.
  induction a as [|c r IH]; simpl; [reflexivity | rewrite IH; reflexivity].
Qed.

(** A line that holds an explained line is explained. *)
Lemma explains_part (l l' : string) :
  occurs l l' -> explains l = true -> explains l' = true.
Proof.
  intros Hocc. unfold explains. rewrite !andb_true_iff, !existsb_exists.
  intros [Hp (word & Hin & Hw)]. split.
  - apply (contains_part l' l); assumption.
  - exists word. split; [exact Hin|].
    apply (contains_part _ (toLowerCase l)); [|exact Hw].
    destruct Hocc as (p & q & ->).
    exists (toLowerCase p), (toLowerCase q).
    rewrite !toLowerCase_app. reflexivity.
Qed.

Local Abbreviation lines s := (splitOn newline s).

Lemma occurs_cons (c : ascii) (l m : string) :
  occurs l m -> occurs l (String c m).
Proof. intros (p & q & ->). exists (String c p), q. reflexivity. Qed.

(** The lines of the end of a text are parts of lines of the text. *)
Lemma lines_suffix (p y l : string) :
  In l (lines y) -> exists l', In l' (lines (p +++ y)) /\ occurs l l'.
Proof.
  induction p as [|c p IH]; intros H.
  - exists l. split; [exact H | apply occurs_refl].
  - destruct (IH H) as (l' & Hl' & Hocc).
    change (String c p +++ y) with (String c (p +++ y)). cbn [splitOn].
    destruct (Ascii.eqb c newline).
    + exists l'. split; [right; exact Hl' | exact Hocc].
    + destruct (splitOn newline (p +++ y)) as [|m0 rest]; [destruct Hl'|].
      destruct Hl' as [<-|Hl'].
      * exists (String c m0). split; [left; reflexivity|].
        apply occurs_cons, Hocc.
      * exists l'. split; [right; exact Hl' | exact Hocc].
Qed.

(** The lines of the start of a text: the first starts the first line of
    the text, the others are parts of lines of the text. *)
Lemma lines_prefix (p q : string) :
  (exists e, hd "" (lines (p +++ q)) = hd "" (lines p) +++ e)
  /\ (forall l, In l (tl (lines p)) ->
                exists l', In l' (lines (p +++ q)) /\ occurs l l').
Proof.
  induction p as [|c p [[e IHhd] IHtl]].
  - split; [|intros l []]. exists (hd "" (lines q)). reflexivity.
  - assert (Hall : forall l, In l (lines p) ->
                     exists l', In l' (lines (p +++ q)) /\ occurs l l').
    { intros l Hl.
      pose proof (splitOn_nonempty newline p) as Hp.
      pose proof (splitOn_nonempty newline (p +++ q)) as Hpq.
      destruct (splitOn newline p) as [|l0 rest]; [contradiction|].
      destruct (splitOn newline (p +++ q)) as [|m0 rest']; [contradiction|].
      simpl in IHhd, IHtl. destruct Hl as [<-|Hl].
      - exists m0. split; [left; reflexivity|].
        exists "", e. exact IHhd.
      - apply IHtl, Hl. }
    change (String c p +++ q) with (String c (p +++ q)). cbn [splitOn].
    destruct (Ascii.eqb c newline).
    + split; [exists ""; reflexivity|]. simpl. intros l Hl.
      destruct (Hall l Hl) as (l' & Hl' & Hocc).
      exists l'. split; [right; exact Hl' | exact Hocc].
    + pose proof (splitOn_nonempty newline p) as Hp.
      pose proof (splitOn_nonempty newline (p +++ q)) as Hpq.
      destruct (splitOn newline p) as [|l0 rest]; [contradiction|].
      destruct (splitOn newline (p +++ q)) as [|m0 rest']; [contradiction|].
      simpl in *. split; [exists e; rewrite IHhd; reflexivity|].
      intros l Hl. destruct (IHtl l Hl) as (l' & [<-|Hl'] & Hocc).
      * exists (String c m0). split; [left; reflexivity|].
        apply occurs_cons, Hocc.
      * exists l'. split; [right; exact Hl' | exact Hocc].
Qed.

Lemma lines_start (p q l : string) :
  In l (lines p) -> exists l', In l' (lines (p +++ q)) /\ occurs l l'.
Proof.
  destruct (lines_prefix p q) as [[e Hhd] Htl].
  pose proof (splitOn_nonempty newline p) as Hp.
  pose proof (splitOn_nonempty newline (p +++ q)) as Hpq.
  destruct (splitOn newline p) as [|l0 rest]; [contradiction|].
  destruct (splitOn newline (p +++ q)) as [|m0 rest']; [contradiction|].
  simpl in *. intros [<-|Hl].
  - exists m0. split; [left; reflexivity|]. exists "", e. exact Hhd.
  - apply Htl, Hl.
Qed.

(** The lines of a trimmed text are parts of lines of the text. *)
Lemma lines_trim (y l : string) :
  In l (lines (trim y)) -> exists l', In l' (lines y) /\ occurs l l'.
Proof.
  unfold trim. intros H.
  destruct (trimEnd_part y) as [q Hq].
  destruct (trimStart_part (trimEnd y)) as [p Hp].
  destruct (lines_suffix p _ l H) as (l1 & Hl1 & Ho1).
  rewrite <- Hp in Hl1.
  destruct (lines_start (trimEnd y) q l1 Hl1) as (l2 & Hl2 & Ho2).
  rewrite <- Hq in Hl2.
  exists l2. split; [exact Hl2 | apply (occurs_trans _ _ _ Ho1 Ho2)].
Qed.

Lemma lines_oneLine (s l : string) : In l (lines s) -> oneLine l.
Proof.
  revert l. induction s as [|c r IH]; intros l; cbn [splitOn].
  - intros [<-|[]]. reflexivity.
  - destruct (Ascii.eqb c newline) eqn:Hc.
    + intros [<-|H]; [reflexivity | apply IH, H].
    + pose proof (splitOn_nonempty newline r) as Hne.
      destruct (splitOn newline r) as [|l0 rest]; [contradiction|].
      simpl. intros [<-|H].
      * simpl. rewrite Hc. simpl. apply IH. left. reflexivity.
      * apply IH. right. exact H.
Qed.

Lemma lines_app (x z : string) :
  oneLine x -> lines (x +++ nl +++ z) = x :: lines z.
Proof.
  induction x as [|c x IH]; intros H.
  - reflexivity.
  - simpl in H. apply andb_prop in H as [Hc Hx].
    apply negb_true_iff in Hc.
    change (String c x +++ nl +++ z) with (String c (x +++ nl +++ z)).
    cbn [splitOn]. rewrite Hc, (IH Hx). reflexivity.
Qed.

Lemma lines_single (x : string) : oneLine x -> lines x = [x].
Proof.
  induction x as [|c x IH]; intros H; [reflexivity|].
  simpl in H. apply andb_prop in H as [Hc Hx]. apply negb_true_iff in Hc.
  cbn [splitOn]. rewrite Hc, (IH Hx). reflexivity.
Qed.

(** Lines of one line each, joined, are the lines of the text they
    make. *)
Lemma lines_join (ls : list string) :
  ls <> [] -> (forall l, In l ls -> oneLine l) -> lines (join nl ls) = ls.
Proof.
  induction ls as [|x rest IH]; intros Hne H; [contradiction|].
  destruct rest as [|y rest'].
  - apply lines_single, H. left. reflexivity.
  - change (join nl (x :: y :: rest'))
      with (x +++ nl +++ join nl (y :: rest')).
    rewrite lines_app by (apply H; left; reflexivity).
    rewrite IH; [reflexivity | discriminate |].
    intros l Hl. apply H. right. exact Hl.
Qed.

Lemma cleaned_lines (translation line : string) :
  In line (lines (cleanTranslation translation)) -> explains line = false.
Proof.
  unfold cleanTranslation, dropExplained.
  set (x := dropBullets _).
  set (kept := filter (fun l => negb (explains l)) (lines x)).
  intros H. destruct (lines_trim _ _ H) as (l' & Hl' & Hocc).
  destruct (explains line) eqn:E; [|reflexivity].
  apply (explains_part _ _ Hocc) in E.
  destruct kept as [|k0 krest] eqn:Hk.
  - destruct Hl' as [<-|[]]. discriminate.
  - rewrite lines_join in Hl'; [|discriminate|].
    + rewrite <- Hk in Hl'. apply filter_In in Hl' as [_ Hl'].
      rewrite E in Hl'. discriminate.
    + intros l Hl. rewrite <- Hk in Hl. apply filter_In in Hl as [Hl _].
      apply (lines_oneLine x), Hl.
Qed.

(** X23: no line of a cleaned text holds an opening parenthesis together
    with one of the English words of the filter, whatever the case of
    its letters; as the letter [a] is one of these words, a line with a
    parenthesis is kept only if it holds no [a] and no [A]. *)
Theorem clean_no_explanation (translation : string) :
  Forall (fun line =>
            contains line "(" = true ->
            Forall (fun word => contains (toLowerCase line) word = false)
                   englishWords
            /\ contains line "a" = false /\ contains line "A" = false)
         (splitOn newline (cleanTranslation translation)).
Proof.
  apply Forall_forall. intros line Hin Hparen.
  pose proof (cleaned_lines translation line Hin) as E.
  unfold explains in E. rewrite Hparen in E. cbn [andb] in E.
  assert (Hwords : forall word, In word englishWords ->
                                contains (toLowerCase line) word = false).
  { intros word Hw.
    destruct (contains (toLowerCase line) word) eqn:Ew; [|reflexivity].
    assert (Hex : existsb (fun word => contains (toLowerCase line) word)
                          englishWords = true)
      by (apply existsb_exists; exists word; auto).
    rewrite Hex in E. discriminate. }
  split; [apply Forall_forall; exact Hwords|].
  assert (Ha : contains (toLowerCase line) "a" = false)
    by (apply Hwords; simpl; tauto).
  assert (Hlow : forall x, contains line x = true ->
                           contains (toLowerCase line) (toLowerCase x) = true).
  { intros x Hx. apply contains_occurs in Hx as (p & q & ->).
    apply contains_occurs. exists (toLowerCase p), (toLowerCase q).
    rewrite !toLowerCase_app. reflexivity. }
  split.
  - destruct (contains line "a") eqn:E1; [|reflexivity].
    apply Hlow in E1. change (toLowerCase "a") with "a" in E1. congruence.
  - destruct (contains line "A") eqn:E1; [|reflexivity].
    apply Hlow in E1. change (toLowerCase "A") with "a" in E1. congruence.
Qed.

End TranslatorFacts.

(* ================================================================== *)
(** ** The model at work on small inputs *)
(* ================================================================== *)

Module Examples.
Import JS Oracle.

Example tokenize_sentence :
  tokenize "Tell of  DOOM, 42 times!" = ["tell"; "of"; "doom"; "times"].
Proof. reflexivity. Qed.

Example tokenize_blank : tokenize "  " = [].
Proof. reflexivity. Qed.

Example parseInt_prefix : parseInt "12abc" = Some 12.
Proof. reflexivity. Qed.

Example parseInt_signed : parseInt " -7" = Some (-7).
Proof. reflexivity. Qed.

Example parseInt_fails : parseInt "abc" = None.
Proof. reflexivity. Qed.

Example splitLines_mixed :
  splitLines ("a" +++ String (ascii_of_nat 13) nl +++ "b" +++ nl)
  = ["a"; "b"; ""].
Proof. reflexivity. Qed.

Example splitTabs_run :
  splitRuns isTab ("neg" +++ Fixture.tab +++ Fixture.tab +++ " -12abc")
  = ["neg"; " -12abc"].
Proof. reflexivity. Qed.

Example load_example :
  loadDictionary (Some Fixture.dictionaryFile)
  = {| words := ["fate"; "doom"; "glory"];
       counts := [20; 15; 12];
       allowedSet := Some ["fate"; "doom"; "glory"] |}.
Proof. reflexivity. Qed.

Example load_unreadable : loadDictionary None = emptyVocabulary.
Proof. reflexivity. Qed.

Example rankedIdxs_example : rankedIdxs Fixture.vocabulary = [0; 1; 2]%nat.
Proof. reflexivity. Qed.

Example selected_example :
  Builder.selected
    "b a c, a a a a a a a a A a b b b b b b b b b c c c c c c c c c c c d"
  = [("c", 12); ("a", 11); ("b", 10)].
Proof. reflexivity. Qed.

Example selected_tie :
  Builder.selected "b b b b b b b b b b a a a a a a a a a a"
  = [("a", 10); ("b", 10)].
Proof. reflexivity. Qed.

Example capitalize_example :
  capitalizeSentence (join " " ["tell"; "of"; "doom"; "fate"])
  = "Tell of doom fate.".
Proof. reflexivity. Qed.

End Examples.
